(** * PrefixSpan sequential pattern mining: a shallow embedding

    This development embeds [algo/prefixspan.py] and
    [utils/sequence_utils.py] and proves properties of the mining
    engine: threshold conversion, frequent item discovery and dispatch,
    the two in-place pruning passes, the two recursive growth
    procedures, the pattern writer and the scratch buffer discipline.

    Conventions of the embedding.
    - Python integers are [Z]; list indices keep Python's meaning,
      including negative indices (see [Py.getitem]).
    - Python dictionaries preserve insertion order and the code iterates
      over [.items()], so a dictionary is an association list in
      insertion order ([Py.dict]).
    - The object [self] is the record [PrefixSpan]; methods are
      computations in a state-and-exception monad [M] over it.
    - [minsup_relative] is a Python float, a binary64 number: a finite
      value is kept as the rational number that it denotes, and every
      operation rounds its exact result to the nearest binary64 number,
      ties to even ([round64]); infinities and NaN are values of their
      own.
    - The output file is the list of records written so far; a record
      keeps the decoded itemsets and the support, [line_of_record]
      renders the text line that the code writes. *)

From Stdlib Require Import String Ascii DecimalString QArith Qround Qabs Qpower.
From Stdlib Require Import Qreduction Lqa.
From Stdlib Require Qcanon.
From Stdlib Require Import ZArith Bool Lia List.
Import ListNotations.
Local Open Scope Z_scope.

(** ** Python primitives *)

Module Py.

  (** [l[i]]: negative indices count from the end; [None] stands for
      IndexError. *)
Definition getitem {A : Type} (l : list A) (i : Z) : option A :=
    let n := Z.of_nat (length l) in
    if 0 <=? i then nth_error l (Z.to_nat i)
    else if - n <=? i then nth_error l (Z.to_nat (n + i))
    else None.

Fixpoint set_nth {A : Type} (l : list A) (n : nat) (v : A) : list A :=
    match l, n with
    | [], _ => []
    | _ :: t, O => v :: t
    | h :: t, S n' => h :: set_nth t n' v
    end.

  (** [l[i] = v]: [None] stands for IndexError. *)
Definition setitem {A : Type} (l : list A) (i : Z) (v : A) : option (list A) :=
    let n := Z.of_nat (length l) in
    if 0 <=? i then
      if i <? n then Some (set_nth l (Z.to_nat i) v) else None
    else if - n <=? i then Some (set_nth l (Z.to_nat (n + i)) v)
    else None.

  (** [len(l)] *)
Definition len {A : Type} (l : list A) : Z := Z.of_nat (length l).

  (** [range(n)] *)
Definition range (n : Z) : list Z := map Z.of_nat (seq 0 (Z.to_nat n)).

  (** [l[:n]] for a non-negative [n] *)
Definition slice_to {A : Type} (l : list A) (n : Z) : list A :=
    firstn (Z.to_nat n) l.

  (** The tokens [l[i], l[i+1], ...] that a loop [while l[i] ...: i += 1]
      reads before an IndexError: from a negative start the index runs
      up to [-1] and then over the whole list again. *)
Definition tokens_from {A : Type} (l : list A) (i : Z) : list A :=
    let n := Z.of_nat (length l) in
    if 0 <=? i then skipn (Z.to_nat i) l
    else if - n <=? i then skipn (Z.to_nat (n + i)) l ++ l
    else [].

  (** Insertion-ordered dictionaries with integer keys. *)
Definition dict (V : Type) : Type := list (Z * V).

Fixpoint get {V : Type} (m : dict V) (k : Z) : option V :=
    match m with
    | [] => None
    | (k', v) :: t => if k' =? k then Some v else get t k
    end.

  (** [m[k] = v]: an existing key keeps its position, a new key goes to
      the end. *)
Fixpoint set {V : Type} (m : dict V) (k : Z) (v : V) : dict V :=
    match m with
    | [] => [(k, v)]
    | (k', v') :: t => if k' =? k then (k', v) :: t else (k', v') :: set t k v
    end.

  (** [m.get(k, d)] *)
Definition get_default {V : Type} (m : dict V) (k : Z) (d : V) : V :=
    match get m k with Some v => v | None => d end.

  (** [m.setdefault(k, d)]: the dictionary afterwards and the value. *)
Definition setdefault {V : Type} (m : dict V) (k : Z) (d : V) : dict V * V :=
    match get m k with
    | Some v => (m, v)
    | None => (set m k d, d)
    end.

  (** [x in s] for a set kept as a list *)
Definition mem (x : Z) (s : list Z) : bool := existsb (Z.eqb x) s.

End Py.

(** ** utils/sequence_utils.py *)

Record PseudoSequence : Type := mkPseudoSequence {
  sequence_id : Z;
  index_first_item : Z
}.

(** A database slot: a token list, or [None] once pruning removed it. *)
Definition Sequence : Type := option (list Z).
Definition SequenceDatabase : Type := list Sequence.

(** [load_csv_tokens], from the token lists [toks] parsed from the
    non-blank lines: a terminator is appended to a non-empty list that
    does not end with one. *)
Definition load_line (toks : list Z) : list Z :=
  match last (map Some toks) None with
  | Some t => if negb (t =? -2) then toks ++ [-2] else toks
  | None => toks
  end.

Definition load_csv_tokens (lines : list (list Z)) : SequenceDatabase :=
  map (fun toks => Some (load_line toks)) lines.

Definition size (db : SequenceDatabase) : Z := Py.len db.

Definition get (db : SequenceDatabase) (idx : Z) : option Sequence :=
  Py.getitem db idx.

(** ** algo/prefixspan.py: the object and its monad *)

Inductive error : Type :=
| ValueError          (* output_file not provided, or [ceil] of NaN *)
| BufferIndexError    (* IndexError on self._buffer *)
| SequenceIndexError  (* IndexError on the database or one of its sequences *)
| TypeError           (* a removed (None) sequence is subscripted or iterated *)
| OverflowError       (* an integer too large for a float, or [ceil] of an infinity *)
| OutOfFuel.          (* the recursion bound of the embedding was reached *)

Inductive result (A : Type) : Type :=
| Ok (a : A)
| Raise (e : error).
Arguments Ok {A} a.
Arguments Raise {A} e.

(** ** Python floats *)

(** A binary64 number.  A finite number is [m * 2 ^ e] for integers
    [m] and [e] with [|m| < 2 ^ 53] and [-1074 <= e <= 971]; the two
    zeros are not told apart (the code takes [ceil] of the only float
    that it computes). *)
Inductive float : Type :=
| Finite (value : Q)
| Infinity (negative : bool)
| NaN.

(** The integer nearest to [y]; the even one when [y] is half-way
    between two integers. *)
Definition Qround_half_even (y : Q) : Z :=
  let f := Qfloor y in
  match (y - inject_Z f ?= 1 # 2)%Q with
  | Lt => f
  | Gt => f + 1
  | Eq => if Z.even f then f else f + 1
  end.

(** The integer part of the binary logarithm of [x > 0]: the quotient
    of a numerator of [a + 1] bits by a denominator of [b + 1] bits
    lies between [2 ^ (a - b - 1)] and [2 ^ (a - b + 1)]. *)
Definition Qlog2 (x : Q) : Z :=
  let k := Z.log2 (Qnum x) - Z.log2 (Zpos (Qden x)) in
  if Qle_bool (2 ^ k) x then k else k - 1.

(** The exponent of the unit in the last place of the binary64 numbers
    around [x]: 53 significant bits, and never below [2 ^ -1074]
    (gradual underflow). *)
Definition ulp_exponent (x : Q) : Z := Z.max (-1074) (Qlog2 (Qabs x) - 52).

(** The binary64 number nearest to [x], ties to even; an infinity when
    that number would be [2 ^ 1024] or beyond. *)
Definition round64 (x : Q) : float :=
  if Qeq_bool x 0 then Finite 0
  else
    let e := ulp_exponent x in
    let r := Qred (inject_Z (Qround_half_even (x / 2 ^ e)) * 2 ^ e) in
    if Qle_bool (2 ^ 1024) (Qabs r) then Infinity (negb (Qle_bool 0 x)) else Finite r.

(** [float(n)] for an integer [n]; Python raises OverflowError when
    [n] is too large. *)
Definition float_of_int (n : Z) : result float :=
  match round64 (inject_Z n) with
  | Infinity _ => Raise OverflowError
  | x => Ok x
  end.

(** [a * b] on floats. *)
Definition float_mul (a b : float) : float :=
  match a, b with
  | NaN, _ | _, NaN => NaN
  | Finite x, Finite y => round64 (x * y)
  | Infinity s, Finite y | Finite y, Infinity s =>
      if Qeq_bool y 0 then NaN else Infinity (xorb s (negb (Qle_bool 0 y)))
  | Infinity s, Infinity t => Infinity (xorb s t)
  end.

(** [math.ceil(x)]: an integer; OverflowError for an infinity,
    ValueError for NaN. *)
Definition ceil (x : float) : result Z :=
  match x with
  | Finite v => Ok (Qceiling v)
  | Infinity _ => Raise OverflowError
  | NaN => Raise ValueError
  end.

(** One written record: the itemsets of the pattern and its support. *)
Definition pattern_record : Type := (list (list Z) * Z)%type.

(** A scratch buffer access, kept in a ghost trace. *)
Inductive access : Type :=
| Rd (i : Z)
| Wr (i : Z).

Record PrefixSpan : Type := mkPrefixSpan {
  pattern_count : Z;
  max_len : Z;
  min_len : Z;
  _minsupp_abs : Z;
  _db : option SequenceDatabase;
  _sequence_count : Z;
  _contains_itemsets_with_multiple_items : bool;
  _buffer : list Z;
  _writer : list pattern_record;     (* records written, oldest first *)
  trace : list access                (* ghost: buffer accesses, latest first *)
}.

(** [PrefixSpan.__init__] *)
Definition init (maximum_pattern_length min_len_arg : Z) : PrefixSpan :=
  {| pattern_count := 0;
     max_len := maximum_pattern_length;
     min_len := Z.max 1 min_len_arg;
     _minsupp_abs := 1;
     _db := None;
     _sequence_count := 0;
     _contains_itemsets_with_multiple_items := false;
     _buffer := repeat 0 2000;
     _writer := [];
     trace := [] |}.

Definition M (A : Type) : Type := PrefixSpan -> result (A * PrefixSpan).

Definition ret {A : Type} (a : A) : M A := fun self => Ok (a, self).

Definition bind {A B : Type} (c : M A) (k : A -> M B) : M B :=
  fun self =>
    match c self with
    | Ok (a, self') => k a self'
    | Raise e => Raise e
    end.

Definition raise {A : Type} (e : error) : M A := fun _ => Raise e.

Definition lift {A : Type} (r : result A) : M A :=
  fun self => match r with Ok a => Ok (a, self) | Raise e => Raise e end.

Definition gets {A : Type} (f : PrefixSpan -> A) : M A :=
  fun self => Ok (f self, self).

Declare Scope py_scope.
Delimit Scope py_scope with py.
Notation "x <- c ;; k" := (bind c (fun x => k))
  (at level 100, c at next level, right associativity) : py_scope.
Notation "c ;;; k" := (bind c (fun _ => k))
  (at level 100, right associativity) : py_scope.
Local Open Scope py_scope.

(** [for x in l: acc = body x acc], with the loop's local variables in
    [acc]. *)
Fixpoint for_each {A S : Type} (l : list A) (body : A -> S -> M S) (acc : S) : M S :=
  match l with
  | [] => ret acc
  | x :: t => acc' <- body x acc ;; for_each t body acc'
  end.

(** State updates: a logged buffer access, a new buffer, a written
    record, and the assignments to [_db], to
    [_contains_itemsets_with_multiple_items] and to [_writer]. *)
Definition log (a : access) (self : PrefixSpan) : PrefixSpan :=
  {| pattern_count := pattern_count self; max_len := max_len self;
     min_len := min_len self; _minsupp_abs := _minsupp_abs self;
     _db := _db self; _sequence_count := _sequence_count self;
     _contains_itemsets_with_multiple_items :=
       _contains_itemsets_with_multiple_items self;
     _buffer := _buffer self; _writer := _writer self;
     trace := a :: trace self |}.

Definition store (b : list Z) (self : PrefixSpan) : PrefixSpan :=
  {| pattern_count := pattern_count self; max_len := max_len self;
     min_len := min_len self; _minsupp_abs := _minsupp_abs self;
     _db := _db self; _sequence_count := _sequence_count self;
     _contains_itemsets_with_multiple_items :=
       _contains_itemsets_with_multiple_items self;
     _buffer := b; _writer := _writer self;
     trace := trace self |}.

Definition with_record (r : pattern_record) (self : PrefixSpan) : PrefixSpan :=
  {| pattern_count := pattern_count self + 1; max_len := max_len self;
     min_len := min_len self; _minsupp_abs := _minsupp_abs self;
     _db := _db self; _sequence_count := _sequence_count self;
     _contains_itemsets_with_multiple_items :=
       _contains_itemsets_with_multiple_items self;
     _buffer := _buffer self; _writer := _writer self ++ [r];
     trace := trace self |}.

Definition with_db (db : option SequenceDatabase) (self : PrefixSpan) : PrefixSpan :=
  {| pattern_count := pattern_count self; max_len := max_len self;
     min_len := min_len self; _minsupp_abs := _minsupp_abs self;
     _db := db; _sequence_count := _sequence_count self;
     _contains_itemsets_with_multiple_items :=
       _contains_itemsets_with_multiple_items self;
     _buffer := _buffer self; _writer := _writer self;
     trace := trace self |}.

Definition with_flag (b : bool) (self : PrefixSpan) : PrefixSpan :=
  {| pattern_count := pattern_count self; max_len := max_len self;
     min_len := min_len self; _minsupp_abs := _minsupp_abs self;
     _db := _db self; _sequence_count := _sequence_count self;
     _contains_itemsets_with_multiple_items := b;
     _buffer := _buffer self; _writer := _writer self;
     trace := trace self |}.

Definition with_writer (w : list pattern_record) (self : PrefixSpan) : PrefixSpan :=
  {| pattern_count := pattern_count self; max_len := max_len self;
     min_len := min_len self; _minsupp_abs := _minsupp_abs self;
     _db := _db self; _sequence_count := _sequence_count self;
     _contains_itemsets_with_multiple_items :=
       _contains_itemsets_with_multiple_items self;
     _buffer := _buffer self; _writer := w;
     trace := trace self |}.

(** [self._buffer[i]] *)
Definition buf_read (i : Z) : M Z :=
  fun self =>
    match Py.getitem (_buffer self) i with
    | Some v => Ok (v, log (Rd i) self)
    | None => Raise BufferIndexError
    end.

(** [self._buffer[i] = v] *)
Definition buf_write (i v : Z) : M unit :=
  fun self =>
    match Py.setitem (_buffer self) i v with
    | Some b => Ok (tt, log (Wr i) (store b self))
    | None => Raise BufferIndexError
    end.

(** [self.pattern_count += 1; self._writer.write(record)] *)
Definition emit (r : pattern_record) : M unit :=
  fun self => Ok (tt, with_record r self).

Definition set_db (db : option SequenceDatabase) : M unit :=
  fun self => Ok (tt, with_db db self).

Definition set_flag (b : bool) : M unit :=
  fun self => Ok (tt, with_flag b self).

(** ** Utilities *)

(** [for i in range(n): tok = self._buffer[i]; acc = f tok acc] *)
Definition read_loop {S : Type} (n : Z) (f : Z -> S -> S) (acc : S) : M S :=
  for_each (Py.range n) (fun i acc => tok <- buf_read i ;; ret (f tok acc)) acc.

(** [_pattern_length_in_buffer] *)
Definition _pattern_length_in_buffer (tokens_end_idx : Z) : M Z :=
  read_loop (tokens_end_idx + 1)
    (fun tok length => if tok >? 0 then length + 1 else length) 0.

(** The body of the decoding loop of [_write_pattern_tokens]; the
    locals are [(pattern, current_itemset)]. *)
Definition decode_token (tok : Z) (acc : list (list Z) * list Z)
  : list (list Z) * list Z :=
  let '(pattern, current_itemset) := acc in
  if tok =? -1 then
    match current_itemset with
    | _ :: _ => (pattern ++ [current_itemset], [])
    | [] => (pattern, current_itemset)
    end
  else if tok >? 0 then (pattern, current_itemset ++ [tok])
  else (pattern, current_itemset).

Definition close_pattern (acc : list (list Z) * list Z) : list (list Z) :=
  let '(pattern, current_itemset) := acc in
  match current_itemset with
  | _ :: _ => pattern ++ [current_itemset]
  | [] => pattern
  end.

(** [_write_pattern_tokens] *)
Definition _write_pattern_tokens (tokens_end_idx : Z)
    (pseudo_sequences : list PseudoSequence) : M unit :=
  length <- _pattern_length_in_buffer tokens_end_idx ;;
  minlen <- gets min_len ;;
  if length <? minlen then ret tt
  else
    let support := Py.len pseudo_sequences in
    acc <- read_loop (tokens_end_idx + 1) decode_token ([], []) ;;
    emit (close_pattern acc, support).

(** [_write_single] *)
Definition _write_single (item support : Z) : M unit :=
  minlen <- gets min_len ;;
  if minlen >? 1 then ret tt
  else emit ([[item]], support).

(** The text line of a record: the itemsets as [{item item ...}]
    joined by spaces, left-justified to [_pretty_pad = 30] columns,
    then [ #SUP: support] and a newline. *)
Definition str (z : Z) : string := NilEmpty.string_of_int (Z.to_int z).

Definition join (sep : string) (l : list string) : string :=
  match l with
  | [] => EmptyString
  | x :: t => fold_left (fun acc y => (acc ++ sep ++ y)%string) t x
  end.

Definition ljust (s : string) (width : nat) : string :=
  (s ++ String.concat EmptyString (repeat " "%string (width - String.length s)))%string.

Definition line_of_record (r : pattern_record) : string :=
  let pattern :=
    map (fun itemset => ("{" ++ join " " (map str itemset) ++ "}")%string) (fst r) in
  (ljust (join " " pattern) 30 ++ " #SUP: " ++ str (snd r)
     ++ String (ascii_of_nat 10) EmptyString)%string.

(** [self._db], which is [None] outside a run *)
Definition the_db : M SequenceDatabase :=
  fun self =>
    match _db self with
    | Some db => Ok (db, self)
    | None => Raise TypeError
    end.

(** [self._db.get(sid)] followed by a use of the sequence as a list *)
Definition get_sequence (db : SequenceDatabase) (sid : Z) : result (list Z) :=
  match get db sid with
  | None => Raise SequenceIndexError
  | Some None => Raise TypeError
  | Some (Some seq) => Ok seq
  end.

(** ** Step 1: frequent items and the multi-item flag *)

(** [m.setdefault(k, []).append(x)] *)
Definition dict_append {V : Type} (m : Py.dict (list V)) (k : Z) (x : V)
  : Py.dict (list V) :=
  let '(m', lst) := Py.setdefault m k [] in
  Py.set m' k (lst ++ [x]).

(** The loop [for tok in seq] of [_find_sequences_containing_items];
    [acc] is the dictionary [m] and the flag. *)
Fixpoint find_in_sequence (sid : Z) (seq : list Z) (count_in_itemset : Z)
    (seen_in_this_seq : list Z) (acc : Py.dict (list Z) * bool)
  : Py.dict (list Z) * bool :=
  match seq with
  | [] => acc
  | tok :: rest =>
      if tok >? 0 then
        let '(m, flag) := acc in
        let '(m', seen') :=
          if negb (Py.mem tok seen_in_this_seq)
          then (dict_append m tok sid, tok :: seen_in_this_seq)
          else (m, seen_in_this_seq) in
        let count_in_itemset' := count_in_itemset + 1 in
        let flag' := if count_in_itemset' >? 1 then true else flag in
        find_in_sequence sid rest count_in_itemset' seen' (m', flag')
      else if tok =? -1 then
        find_in_sequence sid rest 0 seen_in_this_seq acc
      else if tok =? -2 then acc
      else find_in_sequence sid rest count_in_itemset seen_in_this_seq acc
  end.

(** The loop [for sid in range(self._db.size())] with
    [seq = self._db.get(sid)], as an enumeration of the database. *)
Fixpoint find_loop (db : SequenceDatabase) (sid : Z)
    (acc : Py.dict (list Z) * bool) : result (Py.dict (list Z) * bool) :=
  match db with
  | [] => Ok acc
  | None :: _ => Raise TypeError
  | Some seq :: rest => find_loop rest (sid + 1) (find_in_sequence sid seq 0 [] acc)
  end.

(** [_find_sequences_containing_items] *)
Definition _find_sequences_containing_items : M (Py.dict (list Z)) :=
  set_flag false ;;;
  db <- the_db ;;
  r <- lift (find_loop db 0 ([], false)) ;;
  set_flag (snd r) ;;;
  ret (fst r).

(** ** Step 2, pruning *)

(** [len(map_item_to_sids.get(tok, ())) >= self._minsupp_abs] *)
Definition is_frequent (map_item_to_sids : Py.dict (list Z)) (minsupp_abs tok : Z)
  : bool :=
  Py.len (Py.get_default map_item_to_sids tok []) >=? minsupp_abs.

(** The loop [for j, tok in enumerate(seq)] of
    [_prefixspan_with_single_items]: [n] iterations remain, [seq] is the
    list as mutated so far.  The value is the new database slot. *)
Fixpoint prune_single_loop (map_item_to_sids : Py.dict (list Z)) (minsupp_abs : Z)
    (n : nat) (j : Z) (seq : list Z) (write_pos : Z) : result Sequence :=
  match n with
  | O => Ok (Some seq)
  | S n' =>
      match Py.getitem seq j with
      | None => Ok (Some seq)
      | Some tok =>
          if tok >? 0 then
            if is_frequent map_item_to_sids minsupp_abs tok then
              match Py.setitem seq write_pos tok with
              | Some seq' =>
                  prune_single_loop map_item_to_sids minsupp_abs n' (j + 1) seq'
                    (write_pos + 1)
              | None => Raise SequenceIndexError
              end
            else
              prune_single_loop map_item_to_sids minsupp_abs n' (j + 1) seq write_pos
          else if tok =? -2 then
            if write_pos >? 0 then
              match Py.setitem seq write_pos (-2) with
              | Some seq' => Ok (Some (Py.slice_to seq' (write_pos + 1)))
              | None => Raise SequenceIndexError
              end
            else Ok None
          else
            prune_single_loop map_item_to_sids minsupp_abs n' (j + 1) seq write_pos
      end
  end.

(** The same loop in [_prefixspan_with_multiple_items]. *)
Fixpoint prune_multi_loop (map_item_to_sids : Py.dict (list Z)) (minsupp_abs : Z)
    (n : nat) (j : Z) (seq : list Z) (write_pos count_in_itemset : Z)
  : result Sequence :=
  match n with
  | O => Ok (Some seq)
  | S n' =>
      match Py.getitem seq j with
      | None => Ok (Some seq)
      | Some tok =>
          if tok >? 0 then
            if is_frequent map_item_to_sids minsupp_abs tok then
              match Py.setitem seq write_pos tok with
              | Some seq' =>
                  prune_multi_loop map_item_to_sids minsupp_abs n' (j + 1) seq'
                    (write_pos + 1) (count_in_itemset + 1)
              | None => Raise SequenceIndexError
              end
            else
              prune_multi_loop map_item_to_sids minsupp_abs n' (j + 1) seq
                write_pos count_in_itemset
          else if tok =? -1 then
            if count_in_itemset >? 0 then
              match Py.setitem seq write_pos (-1) with
              | Some seq' =>
                  prune_multi_loop map_item_to_sids minsupp_abs n' (j + 1) seq'
                    (write_pos + 1) 0
              | None => Raise SequenceIndexError
              end
            else
              prune_multi_loop map_item_to_sids minsupp_abs n' (j + 1) seq
                write_pos count_in_itemset
          else if tok =? -2 then
            if write_pos >? 0 then
              match Py.setitem seq write_pos (-2) with
              | Some seq' => Ok (Some (Py.slice_to seq' (write_pos + 1)))
              | None => Raise SequenceIndexError
              end
            else Ok None
          else
            prune_multi_loop map_item_to_sids minsupp_abs n' (j + 1) seq
              write_pos count_in_itemset
      end
  end.

(** One slot of the pruning pass: [if seq is None: continue]. *)
Definition prune_single_entry (map_item_to_sids : Py.dict (list Z)) (minsupp_abs : Z)
    (e : Sequence) : result Sequence :=
  match e with
  | None => Ok None
  | Some seq => prune_single_loop map_item_to_sids minsupp_abs (length seq) 0 seq 0
  end.

Definition prune_multi_entry (map_item_to_sids : Py.dict (list Z)) (minsupp_abs : Z)
    (e : Sequence) : result Sequence :=
  match e with
  | None => Ok None
  | Some seq => prune_multi_loop map_item_to_sids minsupp_abs (length seq) 0 seq 0 0
  end.

(** The loop [for i in range(self._db.size())], slot by slot. *)
Fixpoint prune_db (prune_entry : Sequence -> result Sequence) (db : SequenceDatabase)
  : result SequenceDatabase :=
  match db with
  | [] => Ok []
  | e :: rest =>
      match prune_entry e with
      | Raise err => Raise err
      | Ok e' =>
          match prune_db prune_entry rest with
          | Raise err => Raise err
          | Ok rest' => Ok (e' :: rest')
          end
      end
  end.

(** ** Step 2, first projections *)

(** The loop [while seq[j] != -2] of [_build_projected_single_items]
    over the tokens from position [j] on; the value is the offset of the
    pseudo-sequence to append, if any. *)
Fixpoint first_projection_single (item : Z) (toks : list Z) (j : Z)
  : result (option Z) :=
  match toks with
  | [] => Raise SequenceIndexError
  | tok :: rest =>
      if tok =? -2 then Ok None
      else if tok =? item then
        match rest with
        | [] => Raise SequenceIndexError
        | next :: _ => if negb (next =? -2) then Ok (Some (j + 1)) else Ok None
        end
      else first_projection_single item rest (j + 1)
  end.

(** The same loop in [_build_projected_first_time_multi]. *)
Fixpoint first_projection_multi (item : Z) (toks : list Z) (j : Z)
  : result (option Z) :=
  match toks with
  | [] => Raise SequenceIndexError
  | tok :: rest =>
      if tok =? -2 then Ok None
      else if tok =? item then
        match rest with
        | [] => Raise SequenceIndexError
        | next :: rest' =>
            if next =? -2 then Ok None
            else if next =? -1 then
              match rest' with
              | [] => Raise SequenceIndexError
              | next2 :: _ => if next2 =? -2 then Ok None else Ok (Some (j + 1))
              end
            else Ok (Some (j + 1))
        end
      else first_projection_multi item rest (j + 1)
  end.

(** [for sid in sids] of both builders; [first_projection] is one of
    the two loops above. *)
Fixpoint build_projected (first_projection : list Z -> Z -> result (option Z))
    (db : SequenceDatabase) (sids : list Z) (proj : list PseudoSequence)
  : result (list PseudoSequence) :=
  match sids with
  | [] => Ok proj
  | sid :: rest =>
      match get db sid with
      | None => Raise SequenceIndexError
      | Some None => build_projected first_projection db rest proj
      | Some (Some seq) =>
          match first_projection seq 0 with
          | Raise e => Raise e
          | Ok None => build_projected first_projection db rest proj
          | Ok (Some idx) =>
              build_projected first_projection db rest
                (proj ++ [mkPseudoSequence sid idx])
          end
      end
  end.

Definition _build_projected_single_items (item : Z) (sids : list Z)
  : M (list PseudoSequence) :=
  db <- the_db ;;
  lift (build_projected (first_projection_single item) db sids []).

Definition _build_projected_first_time_multi (item : Z) (sids : list Z)
  : M (list PseudoSequence) :=
  db <- the_db ;;
  lift (build_projected (first_projection_multi item) db sids []).

(** ** The scans of the two growth procedures *)

(** [not lst or lst[-1].sequence_id != sid] *)
Definition last_id_differs (lst : list PseudoSequence) (sid : Z) : bool :=
  match lst with
  | [] => true
  | _ :: _ =>
      match Py.getitem lst (-1) with
      | Some p => negb (sequence_id p =? sid)
      | None => true
      end
  end.

(** The set-membership reading of the same test: no entry of [lst] has
    sequence id [sid]. *)
Definition id_not_member (lst : list PseudoSequence) (sid : Z) : bool :=
  negb (Py.mem sid (map sequence_id lst)).

(** Scan state of [_recursion_multi] while one pseudo-sequence is read. *)
Record scan_state : Type := mkScanState {
  map_postfix : Py.dict (list PseudoSequence);
  map_normal : Py.dict (list PseudoSequence);
  current_itemset_is_postfix : bool;
  is_first_itemset : bool;
  position_to_match : Z
}.

Section Scans.

  (** The test that guards [lst.append(PseudoSequence(sid, i + 1))]; the
      code uses [last_id_differs]. *)
Variable fresh : list PseudoSequence -> Z -> bool.

  (** [lst = m.setdefault(tok, [])] followed by the guarded append. *)
Definition record_pseq (m : Py.dict (list PseudoSequence)) (tok sid idx : Z)
    : Py.dict (list PseudoSequence) :=
    let '(m', lst) := Py.setdefault m tok [] in
    if fresh lst sid then Py.set m' tok (lst ++ [mkPseudoSequence sid idx]) else m'.

  (** [while seq[i] != -2] of [_recursion_single_items], over the tokens
      from position [i] on. *)
Fixpoint scan_single_tokens (sid : Z) (toks : list Z) (i : Z)
      (items_to_pseqs : Py.dict (list PseudoSequence))
    : result (Py.dict (list PseudoSequence)) :=
    match toks with
    | [] => Raise SequenceIndexError
    | tok :: rest =>
        if tok =? -2 then Ok items_to_pseqs
        else
          scan_single_tokens sid rest (i + 1)
            (if tok >? 0 then record_pseq items_to_pseqs tok sid (i + 1)
             else items_to_pseqs)
    end.

  (** [for pseq in database] of [_recursion_single_items] *)
Fixpoint scan_single (db : SequenceDatabase) (database : list PseudoSequence)
      (items_to_pseqs : Py.dict (list PseudoSequence))
    : result (Py.dict (list PseudoSequence)) :=
    match database with
    | [] => Ok items_to_pseqs
    | pseq :: rest =>
        let sid := sequence_id pseq in
        match get_sequence db sid with
        | Raise e => Raise e
        | Ok seq =>
            let i := index_first_item pseq in
            match scan_single_tokens sid (Py.tokens_from seq i) i items_to_pseqs with
            | Raise e => Raise e
            | Ok m => scan_single db rest m
            end
        end
    end.

  (** The body of [while seq[i] != -2] in [_recursion_multi] for the
      token [tok = seq[i]]. *)
Definition multi_token_step (first_pos_last_itemset last_buf_pos sid i tok : Z)
      (s : scan_state) : M scan_state :=
    if tok >? 0 then
      let s1 :=
        if current_itemset_is_postfix s
        then mkScanState (record_pseq (map_postfix s) tok sid (i + 1)) (map_normal s)
               (current_itemset_is_postfix s) (is_first_itemset s) (position_to_match s)
        else mkScanState (map_postfix s) (record_pseq (map_normal s) tok sid (i + 1))
               (current_itemset_is_postfix s) (is_first_itemset s) (position_to_match s) in
      let s2 :=
        if current_itemset_is_postfix s1 && negb (is_first_itemset s1)
        then mkScanState (map_postfix s1) (record_pseq (map_normal s1) tok sid (i + 1))
               (current_itemset_is_postfix s1) (is_first_itemset s1) (position_to_match s1)
        else s1 in
      if negb (current_itemset_is_postfix s2) then
        b <- buf_read (position_to_match s2) ;;
        if b =? tok then
          let position_to_match' := position_to_match s2 + 1 in
          ret (mkScanState (map_postfix s2) (map_normal s2)
                 (if position_to_match' >? last_buf_pos then true
                  else current_itemset_is_postfix s2)
                 (is_first_itemset s2) position_to_match')
        else ret s2
      else ret s2
    else if tok =? -1 then
      ret (mkScanState (map_postfix s) (map_normal s) false false first_pos_last_itemset)
    else ret s.

Fixpoint scan_multi_tokens (first_pos_last_itemset last_buf_pos sid : Z)
      (toks : list Z) (i : Z) (s : scan_state) : M scan_state :=
    match toks with
    | [] => raise SequenceIndexError
    | tok :: rest =>
        if tok =? -2 then ret s
        else
          s' <- multi_token_step first_pos_last_itemset last_buf_pos sid i tok s ;;
          scan_multi_tokens first_pos_last_itemset last_buf_pos sid rest (i + 1) s'
    end.

  (** One iteration of [for pseq in database] in [_recursion_multi]; the
      two dictionaries are the accumulator. *)
Definition scan_multi_pseq (first_pos_last_itemset last_buf_pos : Z)
      (pseq : PseudoSequence)
      (maps : Py.dict (list PseudoSequence) * Py.dict (list PseudoSequence))
    : M (Py.dict (list PseudoSequence) * Py.dict (list PseudoSequence)) :=
    let sid := sequence_id pseq in
    db <- the_db ;;
    seq <- lift (get_sequence db sid) ;;
    prev_tok <- lift (match Py.getitem seq (index_first_item pseq - 1) with
                      | Some t => Ok t
                      | None => Raise SequenceIndexError
                      end) ;;
    let i := index_first_item pseq in
    s <- scan_multi_tokens first_pos_last_itemset last_buf_pos sid
           (Py.tokens_from seq i) i
           (mkScanState (fst maps) (snd maps) (negb (prev_tok =? -1)) true
              first_pos_last_itemset) ;;
    ret (map_postfix s, map_normal s).

Definition scan_multi (first_pos_last_itemset last_buf_pos : Z)
      (database : list PseudoSequence)
    : M (Py.dict (list PseudoSequence) * Py.dict (list PseudoSequence)) :=
    for_each database (scan_multi_pseq first_pos_last_itemset last_buf_pos) ([], []).

End Scans.

(** The loop that finds [first_pos_last_itemset]; the position goes down
    by one per iteration, so [n = last_buf_pos] iterations are enough. *)
Fixpoint find_first_pos (n : nat) (first_pos_last_itemset : Z) : M Z :=
  match n with
  | O => ret first_pos_last_itemset
  | S n' =>
      if first_pos_last_itemset >? 0 then
        b <- buf_read (first_pos_last_itemset - 1) ;;
        if negb (b =? -1) then find_first_pos n' (first_pos_last_itemset - 1)
        else ret first_pos_last_itemset
      else ret first_pos_last_itemset
  end.

(** ** The two growth procedures *)

(** [_recursion_single_items].  [fuel] bounds the nesting of calls. *)
Fixpoint _recursion_single_items (fuel : nat) (database : list PseudoSequence)
    (k last_buf_pos : Z) : M unit :=
  match fuel with
  | O => raise OutOfFuel
  | S fuel' =>
      db <- the_db ;;
      items_to_pseqs <- lift (scan_single last_id_differs db database []) ;;
      for_each items_to_pseqs
        (fun '(item, pseqs) _ =>
           minsupp_abs <- gets _minsupp_abs ;;
           if Py.len pseqs >=? minsupp_abs then
             buf_write (last_buf_pos + 1) (-1) ;;;
             buf_write (last_buf_pos + 2) item ;;;
             _write_pattern_tokens (last_buf_pos + 2) pseqs ;;;
             maxlen <- gets max_len ;;
             if k <? maxlen
             then _recursion_single_items fuel' pseqs (k + 1) (last_buf_pos + 2)
             else ret tt
           else ret tt)
        tt
  end.

(** [_recursion_multi] *)
Fixpoint _recursion_multi (fuel : nat) (database : list PseudoSequence)
    (k last_buf_pos : Z) : M unit :=
  match fuel with
  | O => raise OutOfFuel
  | S fuel' =>
      first_pos_last_itemset <- find_first_pos (Z.to_nat last_buf_pos) last_buf_pos ;;
      maps <- scan_multi last_id_differs first_pos_last_itemset last_buf_pos database ;;
      for_each (fst maps)
        (fun '(item, pseqs) _ =>
           minsupp_abs <- gets _minsupp_abs ;;
           if Py.len pseqs >=? minsupp_abs then
             let new_pos := last_buf_pos + 1 in
             buf_write new_pos item ;;;
             _write_pattern_tokens new_pos pseqs ;;;
             maxlen <- gets max_len ;;
             if k <? maxlen
             then _recursion_multi fuel' pseqs (k + 1) new_pos
             else ret tt
           else ret tt)
        tt ;;;
      for_each (snd maps)
        (fun '(item, pseqs) _ =>
           minsupp_abs <- gets _minsupp_abs ;;
           if Py.len pseqs >=? minsupp_abs then
             let new_pos := last_buf_pos + 1 in
             buf_write new_pos (-1) ;;;
             buf_write (new_pos + 1) item ;;;
             _write_pattern_tokens (new_pos + 1) pseqs ;;;
             maxlen <- gets max_len ;;
             if k <? maxlen
             then _recursion_multi fuel' pseqs (k + 1) (new_pos + 1)
             else ret tt
           else ret tt)
        tt
  end.

(** The loop [for item, sids in map_item_to_sids.items()] shared by the
    two drivers; [build] and [recursion] are those of the path. *)
Definition grow_frequent_items
    (build : Z -> list Z -> M (list PseudoSequence))
    (recursion : list PseudoSequence -> Z -> Z -> M unit)
    (map_item_to_sids : Py.dict (list Z)) : M unit :=
  for_each map_item_to_sids
    (fun '(item, sids) _ =>
       let sup := Py.len sids in
       minsupp_abs <- gets _minsupp_abs ;;
       if sup >=? minsupp_abs then
         _write_single item sup ;;;
         maxlen <- gets max_len ;;
         if maxlen >? 1 then
           buf_write 0 item ;;;
           projected <- build item sids ;;
           recursion projected 2 0
         else ret tt
       else ret tt)
    tt.

(** [_prefixspan_with_single_items] *)
Definition _prefixspan_with_single_items (fuel : nat)
    (map_item_to_sids : Py.dict (list Z)) : M unit :=
  db <- the_db ;;
  minsupp_abs <- gets _minsupp_abs ;;
  db' <- lift (prune_db (prune_single_entry map_item_to_sids minsupp_abs) db) ;;
  set_db (Some db') ;;;
  grow_frequent_items _build_projected_single_items (_recursion_single_items fuel)
    map_item_to_sids.

(** [_prefixspan_with_multiple_items] *)
Definition _prefixspan_with_multiple_items (fuel : nat)
    (map_item_to_sids : Py.dict (list Z)) : M unit :=
  db <- the_db ;;
  minsupp_abs <- gets _minsupp_abs ;;
  db' <- lift (prune_db (prune_multi_entry map_item_to_sids minsupp_abs) db) ;;
  set_db (Some db') ;;;
  grow_frequent_items _build_projected_first_time_multi (_recursion_multi fuel)
    map_item_to_sids.

(** ** Core driver and public API *)

(** [self._writer = open(output_file, "w")]: the file starts empty. *)
Definition open_writer : M unit :=
  fun self => Ok (tt, with_writer [] self).

(** [_prefixspan] *)
Definition _prefixspan (fuel : nat) (output_file : string) : M unit :=
  open_writer ;;;
  map_item_to_sids <- _find_sequences_containing_items ;;
  flag <- gets _contains_itemsets_with_multiple_items ;;
  if flag then _prefixspan_with_multiple_items fuel map_item_to_sids
  else _prefixspan_with_single_items fuel map_item_to_sids.

(** [int(ceil(minsup_relative * self._sequence_count))], raised to 1
    when it is not positive: the count is converted to a float, the
    product is a float, and [ceil] fails on an infinity or NaN. *)
Definition minsupp_abs_of (minsup_relative : float) (sequence_count : Z) : result Z :=
  match float_of_int sequence_count with
  | Raise e => Raise e
  | Ok n =>
      match ceil (float_mul minsup_relative n) with
      | Raise e => Raise e
      | Ok v => Ok (if v <=? 0 then 1 else v)
      end
  end.

(** The object after the assignments at the start of [run], with the
    threshold [minsupp_abs]. *)
Definition started (db : SequenceDatabase) (minsupp_abs : Z) (self : PrefixSpan)
  : PrefixSpan :=
  {| pattern_count := 0; max_len := max_len self;
     min_len := min_len self;
     _minsupp_abs := minsupp_abs;
     _db := Some db; _sequence_count := size db;
     _contains_itemsets_with_multiple_items :=
       _contains_itemsets_with_multiple_items self;
     _buffer := _buffer self; _writer := _writer self;
     trace := trace self |}.

Definition start_run (db : SequenceDatabase) (minsup_relative : float) : M unit :=
  fun self =>
    match minsupp_abs_of minsup_relative (size db) with
    | Ok minsupp_abs => Ok (tt, started db minsupp_abs self)
    | Raise e => Raise e
    end.

(** [run], on the token lists parsed from the input lines, with the
    nesting of recursive calls bounded by [fuel]. *)
Definition run_with_fuel (fuel : nat) (input_csv : list (list Z))
    (minsup_relative : float) (output_file : string) : M unit :=
  match output_file with
  | EmptyString => raise ValueError
  | String _ _ =>
      start_run (load_csv_tokens input_csv) minsup_relative ;;;
      _prefixspan fuel output_file ;;;
      set_db None
  end.

(** [run]: [max_len] nested calls are always enough (see
    [run_fuel_enough]). *)
Definition run (input_csv : list (list Z)) (minsup_relative : float)
    (output_file : string) : M unit :=
  fun self =>
    run_with_fuel (Z.to_nat (max_len self)) input_csv minsup_relative output_file self.

(** What the caller reads after a run: the lines written and the
    pattern count. *)
Definition written (r : result (unit * PrefixSpan)) : option (list pattern_record * Z) :=
  match r with
  | Ok (_, self) => Some (_writer self, pattern_count self)
  | Raise _ => None
  end.


(** ** Predicates used in the statements *)

(** An itemset with two items, or more, before the terminator: two
    positive tokens with neither a separator nor a terminator between
    them, and no terminator before them. *)
Definition has_multi_item_itemset (seq : list Z) : Prop :=
  exists pre x mid y post,
    seq = pre ++ x :: mid ++ y :: post /\
    x > 0 /\ y > 0 /\
    ~ In (-2) pre /\ ~ In (-2) mid /\ ~ In (-1) mid.

(** An item that joins the itemset left open by earlier tokens. *)
Definition continues_itemset (seq : list Z) : Prop :=
  exists mid y post,
    seq = mid ++ y :: post /\ y > 0 /\ ~ In (-2) mid /\ ~ In (-1) mid.

(** The tokens that the itemset-preserving pruning loop keeps, read
    from [toks] with [count_in_itemset] items already kept in the open
    itemset. *)
Fixpoint kept_multi (map_item_to_sids : Py.dict (list Z)) (minsupp_abs : Z)
    (toks : list Z) (count_in_itemset : Z) : list Z :=
  match toks with
  | [] => []
  | tok :: rest =>
      if tok >? 0 then
        if is_frequent map_item_to_sids minsupp_abs tok
        then tok :: kept_multi map_item_to_sids minsupp_abs rest (count_in_itemset + 1)
        else kept_multi map_item_to_sids minsupp_abs rest count_in_itemset
      else if tok =? -1 then
        if count_in_itemset >? 0
        then -1 :: kept_multi map_item_to_sids minsupp_abs rest 0
        else kept_multi map_item_to_sids minsupp_abs rest count_in_itemset
      else if tok =? -2 then []
      else kept_multi map_item_to_sids minsupp_abs rest count_in_itemset
  end.

(** The tokens of a sequence before its first terminator. *)
Fixpoint before_terminator (toks : list Z) : list Z :=
  match toks with
  | [] => []
  | tok :: rest => if tok =? -2 then [] else tok :: before_terminator rest
  end.

(** The items of a sequence that survive pruning: positive tokens
    before the terminator whose support meets the threshold. *)
Definition surviving_items (map_item_to_sids : Py.dict (list Z)) (minsupp_abs : Z)
    (seq : list Z) : list Z :=
  filter (fun t => (t >? 0) && is_frequent map_item_to_sids minsupp_abs t)
    (before_terminator seq).

(** Every separator comes immediately after an item. *)
Definition separators_close_itemsets (l : list Z) : Prop :=
  forall pre post, l = pre ++ -1 :: post -> exists pre' x, pre = pre' ++ [x] /\ x > 0.

(** Checker for the same property; [prev_is_item] tells whether the
    token before [l] is an item. *)
Fixpoint separators_ok (prev_is_item : bool) (l : list Z) : bool :=
  match l with
  | [] => true
  | t :: rest =>
      if t =? -1 then prev_is_item && separators_ok false rest
      else separators_ok (t >? 0) rest
  end.

(** What the pruning pass leaves in a slot that held the tokens [seq],
    the first of which are read up to a terminator: nothing when no
    item survives, or else the kept tokens [body] and the terminator. *)
Definition pruned_multi_tokens (map_item_to_sids : Py.dict (list Z)) (minsupp_abs : Z)
    (seq : list Z) (after : Sequence) : Prop :=
  (surviving_items map_item_to_sids minsupp_abs seq = [] /\ after = None) \/
  (surviving_items map_item_to_sids minsupp_abs seq <> [] /\
   exists body,
     after = Some (body ++ [-2]) /\
     ~ In (-2) body /\
     (forall t, In t body ->
        t = -1 \/ (t > 0 /\ is_frequent map_item_to_sids minsupp_abs t = true)) /\
     filter (fun t => t >? 0) body = surviving_items map_item_to_sids minsupp_abs seq /\
     separators_close_itemsets (body ++ [-2]) /\
     hd_error body <> Some (-1) /\
     (forall pre post, body <> pre ++ -1 :: -1 :: post)).

(** What the pruning pass leaves in a slot: a removed slot stays
    removed, a sequence without tokens stays as it is (the loop has
    nothing to read and replaces nothing), and a sequence with tokens
    is replaced as [pruned_multi_tokens] tells. *)
Definition pruned_multi_slot (map_item_to_sids : Py.dict (list Z)) (minsupp_abs : Z)
    (before after : Sequence) : Prop :=
  match before with
  | None => after = None
  | Some [] => after = Some []
  | Some (tok :: rest) =>
      pruned_multi_tokens map_item_to_sids minsupp_abs (tok :: rest) after
  end.

(** A slot that the pruning passes can read: removed, without tokens,
    or holding a terminator. *)
Definition readable_slot (e : Sequence) : Prop :=
  match e with
  | None => True
  | Some seq => seq = [] \/ In (-2) seq
  end.

(** The slot written for the kept tokens [body]. *)
Definition slot_of (body : list Z) : Sequence :=
  match body with
  | [] => None
  | _ :: _ => Some (body ++ [-2])
  end.

(** Every key of a candidate dictionary is an item and every list is in
    [P]. *)
Definition entries (P : list PseudoSequence -> Prop)
  : Py.dict (list PseudoSequence) -> Prop :=
  Forall (fun kv => fst kv > 0 /\ P (snd kv)).

(** While the pseudo-sequence of sequence [sid] is scanned after [n]
    others: a list has at most [n] entries, or one more, and then its
    last entry is the one of [sid]. *)
Definition at_most_during (n : nat) (sid : Z) (l : list PseudoSequence) : Prop :=
  (length l <= n)%nat \/ ((length l <= S n)%nat /\ last_id_differs l sid = false).

(** At most [n] entries. *)
Definition at_most (n : nat) (l : list PseudoSequence) : Prop := (length l <= n)%nat.

(** After the pseudo-sequences of the sequences [done]: *)
Definition distinct_after (done : list Z) (l : list PseudoSequence) : Prop :=
  NoDup (map sequence_id l) /\ incl (map sequence_id l) done.

(** While the pseudo-sequence of [sid] is scanned: the last-id test and
    set membership agree on every list. *)
Definition distinct_during (done : list Z) (sid : Z) (l : list PseudoSequence) : Prop :=
  NoDup (map sequence_id l) /\ incl (map sequence_id l) (sid :: done) /\
  last_id_differs l sid = id_not_member l sid.

(** ** Specifications of computations *)

(** [triple P c Q E]: from a state in [P], the computation [c] either
    returns a value and a state in [Q], or raises an error in [E]. *)
Definition triple {A : Type} (P : PrefixSpan -> Prop) (c : M A)
    (Q : A -> PrefixSpan -> Prop) (E : error -> Prop) : Prop :=
  forall self, P self ->
    match c self with
    | Ok (a, self') => Q a self'
    | Raise e => E e
    end.

(** The fields that the search only reads. *)
Definition same_config (s0 s : PrefixSpan) : Prop :=
  max_len s = max_len s0 /\ min_len s = min_len s0 /\
  _minsupp_abs s = _minsupp_abs s0 /\ _db s = _db s0 /\
  _sequence_count s = _sequence_count s0 /\
  _contains_itemsets_with_multiple_items s = _contains_itemsets_with_multiple_items s0.

(** Since [s0], records in [ok] were written, each one counted. *)
Definition grows (s0 : PrefixSpan) (ok : pattern_record -> Prop) (s : PrefixSpan)
  : Prop :=
  same_config s0 s /\
  exists new,
    _writer s = _writer s0 ++ new /\
    pattern_count s = pattern_count s0 + Z.of_nat (length new) /\
    Forall ok new.

(** Shorthands: no constraint on errors or on records; predicates
    that ignore the ghost trace. *)
Definition any_error (e : error) : Prop := True.

Definition log_invariant (P : PrefixSpan -> Prop) : Prop :=
  forall a s, P s -> P (log a s).

Definition any_record (r : pattern_record) : Prop := True.

(** ** The scratch buffer discipline *)

(** The number of items among tokens, and in a written record. *)
Definition count_items (toks : list Z) : Z :=
  Py.len (filter (fun t => t >? 0) toks).

Definition item_count (r : pattern_record) : Z := Py.len (concat (fst r)).

(** A buffer access within bounds: a read in [0, hi], a write in
    [lo, hi]. *)
Definition access_ok (lo hi : Z) (a : access) : Prop :=
  match a with
  | Rd i => 0 <= i <= hi
  | Wr i => lo <= i <= hi
  end.

(** The invariant of a growth procedure whose pattern is [pre]: the
    buffer starts with [pre]; since the writer held [w0] and the trace
    [t0], the records written are in [rec_ok] and the accesses in
    [acc_ok]. *)
Definition binv (ml L : Z) (w0 : list pattern_record) (t0 : list access)
    (rec_ok : pattern_record -> Prop) (acc_ok : access -> Prop)
    (pre : list Z) (self : PrefixSpan) : Prop :=
  max_len self = ml /\
  Py.len (_buffer self) = L /\
  firstn (length pre) (_buffer self) = pre /\
  (exists new, _writer self = w0 ++ new /\ Forall rec_ok new) /\
  (exists accs, trace self = accs ++ t0 /\ Forall acc_ok accs).

(** The errors allowed to a call: no IndexError on the buffer when the
    highest index [hi] fits, no exhausted fuel when [need] levels fit. *)
Definition berr (L hi need : Z) (fuel : nat) (e : error) : Prop :=
  (hi < L -> e <> BufferIndexError) /\ (need < Z.of_nat fuel -> e <> OutOfFuel).

(** The locals of the decoding loop hold this many items. *)
Definition decoded_items (acc : list (list Z) * list Z) : Z :=
  Py.len (concat (fst acc)) + Py.len (snd acc).

(** No constraint on a candidate list. *)
Definition any_list (l : list PseudoSequence) : Prop := True.

(** The cursor of the scan: it reads the buffer only inside the last
    itemset of the pattern. *)
Definition cursor_ok (fp p : Z) (s : scan_state) : Prop :=
  fp <= position_to_match s /\
  (current_itemset_is_postfix s = false -> position_to_match s <= p).

(** A record of a run: a single item, or between 2 and [ml] items. *)
Definition top_record_ok (ml : Z) (r : pattern_record) : Prop :=
  (exists item, item > 0 /\ fst r = [[item]]) \/ (1 < ml /\ 2 <= item_count r <= ml).

(** A buffer access of a run: none unless [1 < ml], and then at an
    index of at most [2 * ml - 2]. *)
Definition top_access_ok (ml : Z) (a : access) : Prop :=
  1 < ml /\ access_ok 0 (2 * ml - 2) a.

(** What a call at depth [k] whose pattern ends at [last_buf_pos] does
    to the buffer, the trace and the writer. *)
Definition level_outcome (self : PrefixSpan) (k last_buf_pos : Z) (fuel : nat)
    (r : result (unit * PrefixSpan)) : Prop :=
  let ml := max_len self in
  let pre := firstn (Z.to_nat (last_buf_pos + 1)) (_buffer self) in
  match r with
  | Ok (_, self') =>
      firstn (Z.to_nat (last_buf_pos + 1)) (_buffer self') = pre /\
      (exists new,
          _writer self' = _writer self ++ new /\
          Forall (fun r => count_items pre + 1 <= item_count r
                           <= count_items pre + 1 + (ml - k)) new) /\
      (exists accs,
          trace self' = accs ++ trace self /\
          Forall (access_ok (last_buf_pos + 1) (last_buf_pos + 2 * (ml - k + 1))) accs)
  | Raise e =>
      (last_buf_pos + 2 * (ml - k + 1) < Py.len (_buffer self) -> e <> BufferIndexError) /\
      (ml - k < Z.of_nat fuel -> e <> OutOfFuel)
  end.

(** ** The minimum-length filter *)

(** The tokens at the indices [l] of the buffer [b], when all can be
    read. *)
Fixpoint read_all (b : list Z) (l : list Z) : option (list Z) :=
  match l with
  | [] => Some []
  | i :: t =>
      match Py.getitem b i with
      | Some v =>
          match read_all b t with
          | Some vs => Some (v :: vs)
          | None => None
          end
      | None => None
      end
  end.

(** The state after the reads at the indices [l]. *)
Definition logged_reads (l : list Z) (self : PrefixSpan) : PrefixSpan :=
  fold_left (fun s i => log (Rd i) s) l self.

(** A record with at least [m] items. *)
Definition long_enough (m : Z) (r : pattern_record) : bool := m <=? item_count r.

(** Two objects that differ in the minimum length only: the second one
    has the larger minimum length and its file holds the records of the
    first file that are long enough. *)
Definition filtered_view (s1 s2 : PrefixSpan) : Prop :=
  max_len s1 = max_len s2 /\
  _minsupp_abs s1 = _minsupp_abs s2 /\
  _db s1 = _db s2 /\
  _buffer s1 = _buffer s2 /\
  _contains_itemsets_with_multiple_items s1 = _contains_itemsets_with_multiple_items s2 /\
  _sequence_count s1 = _sequence_count s2 /\
  min_len s1 <= min_len s2 /\
  _writer s2 = filter (long_enough (min_len s2)) (_writer s1).

(** The outcomes of one computation from two such objects: the same
    value or the same error. *)
Definition same_outcome {A : Type} (r1 r2 : result (A * PrefixSpan)) : Prop :=
  match r1, r2 with
  | Ok (a1, s1'), Ok (a2, s2') => a1 = a2 /\ filtered_view s1' s2'
  | Raise e1, Raise e2 => e1 = e2
  | _, _ => False
  end.

Definition agree {A : Type} (c : M A) : Prop :=
  forall s1 s2, filtered_view s1 s2 -> same_outcome (c s1) (c s2).

(** What the flat pruning pass leaves in a slot that held [seq]: the
    surviving items and the terminator, or nothing. *)
Definition pruned_single_slot (map_item_to_sids : Py.dict (list Z)) (minsupp_abs : Z)
    (before after : Sequence) : Prop :=
  exists seq, before = Some seq /\
              after = slot_of (surviving_items map_item_to_sids minsupp_abs seq).

(** The items of a sequence: the positive tokens before its terminator. *)
Definition items_of (seq : list Z) : list Z :=
  filter (fun t => t >? 0) (before_terminator seq).

(** The ids, counted from [sid], of the sequences that hold [item]. *)
Fixpoint containing (seqs : list (list Z)) (sid item : Z) : list Z :=
  match seqs with
  | [] => []
  | seq :: rest =>
      if Py.mem item (items_of seq) then sid :: containing rest (sid + 1) item
      else containing rest (sid + 1) item
  end.

(** Strictly increasing integers, all at least [lo]. *)
Fixpoint ascending_from (lo : Z) (l : list Z) : Prop :=
  match l with
  | [] => True
  | x :: t => lo <= x /\ ascending_from (x + 1) t
  end.

(** The steps of a run after the frequent item pass returned
    [map_item_to_sids] and the flag: pruning with the pass of the path,
    then growth from every frequent item, then [self._db = None]. *)
Definition prune_entry_of (flag : bool) (map_item_to_sids : Py.dict (list Z))
    (minsupp_abs : Z) : Sequence -> result Sequence :=
  if flag then prune_multi_entry map_item_to_sids minsupp_abs
  else prune_single_entry map_item_to_sids minsupp_abs.

Definition grow_of (flag : bool) (fuel : nat) (map_item_to_sids : Py.dict (list Z))
  : M unit :=
  if flag
  then grow_frequent_items _build_projected_first_time_multi (_recursion_multi fuel)
         map_item_to_sids
  else grow_frequent_items _build_projected_single_items (_recursion_single_items fuel)
         map_item_to_sids.

(** The object when growth starts. *)
Definition searching (lines : list (list Z)) (minsupp_abs : Z) (flag : bool)
    (db' : SequenceDatabase) (self : PrefixSpan) : PrefixSpan :=
  with_db (Some db')
    (with_flag flag
       (with_flag false
          (with_writer [] (started (load_csv_tokens lines) minsupp_abs self)))).

(** A support between the threshold [lo] and [hi]. *)
Definition support_between (lo hi : Z) (r : pattern_record) : Prop :=
  lo <= snd r <= hi.


(** A pseudo-sequence of the database [db]: it points into a present,
    terminated sequence, after the first token and not beyond the
    terminator. *)
Definition valid_pseq (db : SequenceDatabase) (p : PseudoSequence) : Prop :=
  exists body,
    get db (sequence_id p) = Some (Some (body ++ [-2])) /\ ~ In (-2) body /\
    1 <= index_first_item p <= Py.len body.



(** The object holds the database [db]. *)
Definition searching_in (db : SequenceDatabase) (self : PrefixSpan) : Prop :=
  _db self = Some db.


(** ** Sequential patterns of single items *)

(** [pattern] can be read in [seq] from left to right, with gaps. *)
Inductive Subsequence : list Z -> list Z -> Prop :=
| Subsequence_nil : forall seq, Subsequence [] seq
| Subsequence_take : forall a pattern seq,
    Subsequence pattern seq -> Subsequence (a :: pattern) (a :: seq)
| Subsequence_skip : forall t pattern seq,
    Subsequence pattern seq -> Subsequence pattern (t :: seq).

(** The same as a test: every item of the pattern is matched with its
    first occurrence after the match of the item before. *)
Fixpoint is_subsequence (pattern seq : list Z) {struct seq} : bool :=
  match pattern with
  | [] => true
  | a :: rest =>
      match seq with
      | [] => false
      | t :: seq' =>
          if t =? a then is_subsequence rest seq' else is_subsequence pattern seq'
      end
  end.

(** The support of a pattern: the number of sequences whose items hold
    it. *)
Definition support (pattern : list Z) (seqs : list (list Z)) : Z :=
  Py.len (filter (fun seq => is_subsequence pattern (items_of seq)) seqs).

(** The index just after the first [x] among [toks], which start at
    index [i]. *)
Fixpoint after_first (x : Z) (toks : list Z) (i : Z) : option Z :=
  match toks with
  | [] => None
  | t :: rest => if t =? x then Some (i + 1) else after_first x rest (i + 1)
  end.

(** The index just after the leftmost match of [pattern] in [body]
    from index [i] on. *)
Fixpoint embed_end (pattern body : list Z) (i : Z) : option Z :=
  match pattern with
  | [] => Some i
  | a :: rest =>
      match after_first a (skipn (Z.to_nat i) body) i with
      | Some j => embed_end rest body j
      | None => None
      end
  end.

(** A list with the positions of its elements, counted from [off]. *)
Fixpoint indexed_from {A : Type} (off : nat) (l : list A) : list (nat * A) :=
  match l with
  | [] => []
  | x :: t => (off, x) :: indexed_from (S off) t
  end.

(** The pseudo-sequences [G n body] of all sequences, in the order of
    the database. *)
Definition project_with (G : nat -> list Z -> list PseudoSequence)
    (bodies : list (list Z)) : list PseudoSequence :=
  flat_map (fun nb => G (fst nb) (snd nb)) (indexed_from 0 bodies).

(** The pseudo-sequence of sequence [n] for [pattern]: it starts just
    after the leftmost match. *)
Definition leftmost (pattern : list Z) (n : nat) (body : list Z) : list PseudoSequence :=
  match embed_end pattern body 0 with
  | Some j => [mkPseudoSequence (Z.of_nat n) j]
  | None => []
  end.

(** The projected database of [pattern]. *)
Definition project (pattern : list Z) (bodies : list (list Z)) : list PseudoSequence :=
  project_with (leftmost pattern) bodies.

(** * Frequent item discovery and dispatch *)

Lemma has_multi_nil : ~ has_multi_item_itemset [].
Proof. intros (pre & x & mid & y & post & H & _). destruct pre; discriminate. Qed.

Lemma continues_nil : ~ continues_itemset [].
Proof. intros (mid & y & post & H & _). destruct mid; discriminate. Qed.

Lemma has_multi_cons_item tok rest :
  tok > 0 ->
  has_multi_item_itemset (tok :: rest) <->
  continues_itemset rest \/ has_multi_item_itemset rest.
Proof.
  intros Htok. split.
  - intros (pre & x & mid & y & post & H & Hx & Hy & Hp & Hm & Hs).
    destruct pre as [|a pre]; simpl in H; inversion H; subst.
    + left. exists mid, y, post. auto.
    + right. exists pre, x, mid, y, post. repeat split; auto.
      intro; apply Hp; right; assumption.
  - intros [(mid & y & post & H & Hy & Hm & Hs) | (pre & x & mid & y & post & H & Hx & Hy & Hp & Hm & Hs)].
    + exists [], tok, mid, y, post. subst. repeat split; auto.
    + exists (tok :: pre), x, mid, y, post. subst. repeat split; auto.
      intros [E | E]; [lia | auto].
Qed.

Lemma has_multi_cons_skip tok rest :
  tok <= 0 -> tok <> -2 ->
  has_multi_item_itemset (tok :: rest) <-> has_multi_item_itemset rest.
Proof.
  intros Htok H2. split.
  - intros (pre & x & mid & y & post & H & Hx & Hy & Hp & Hm & Hs).
    destruct pre as [|a pre]; simpl in H; inversion H; subst; [lia|].
    exists pre, x, mid, y, post. repeat split; auto.
    intro; apply Hp; right; assumption.
  - intros (pre & x & mid & y & post & H & Hx & Hy & Hp & Hm & Hs).
    exists (tok :: pre), x, mid, y, post. subst. repeat split; auto.
    intros [E | E]; [lia | auto].
Qed.

Lemma has_multi_cons_terminator rest : ~ has_multi_item_itemset (-2 :: rest).
Proof.
  intros (pre & x & mid & y & post & H & Hx & Hy & Hp & Hm & Hs).
  destruct pre as [|a pre]; simpl in H; inversion H; subst; [lia|].
  apply Hp; left; reflexivity.
Qed.

Lemma continues_cons_item tok rest : tok > 0 -> continues_itemset (tok :: rest).
Proof. intros. exists [], tok, rest. repeat split; auto. Qed.

Lemma continues_cons_stop tok rest :
  tok = -1 \/ tok = -2 -> ~ continues_itemset (tok :: rest).
Proof.
  intros Ht (mid & y & post & H & Hy & Hm & Hs).
  destruct mid as [|a mid]; simpl in H; inversion H; subst; [lia|].
  destruct Ht; subst; [apply Hs | apply Hm]; left; reflexivity.
Qed.

Lemma continues_cons_skip tok rest :
  tok <= 0 -> tok <> -1 -> tok <> -2 ->
  continues_itemset (tok :: rest) <-> continues_itemset rest.
Proof.
  intros Htok H1 H2. split.
  - intros (mid & y & post & H & Hy & Hm & Hs).
    destruct mid as [|a mid]; simpl in H; inversion H; subst; [lia|].
    exists mid, y, post. repeat split; auto.
    + intro; apply Hm; right; assumption.
    + intro; apply Hs; right; assumption.
  - intros (mid & y & post & H & Hy & Hm & Hs).
    exists (tok :: mid), y, post. subst. repeat split; auto.
    + intros [E | E]; [lia | auto].
    + intros [E | E]; [lia | auto].
Qed.

(** The flag after one sequence. *)
Lemma find_in_sequence_flag sid seq : forall count seen m flag,
  0 <= count ->
  snd (find_in_sequence sid seq count seen (m, flag)) = true <->
  flag = true \/ (count >= 1 /\ continues_itemset seq) \/ has_multi_item_itemset seq.
Proof.
  induction seq as [|tok rest IH]; intros count seen m flag Hc.
  - simpl. pose proof has_multi_nil. pose proof continues_nil. tauto.
  - cbn [find_in_sequence].
    destruct (Z.gtb_spec tok 0) as [Hpos | Hnpos].
    + destruct (negb (Py.mem tok seen)).
      all: rewrite IH by lia.
      all: rewrite (has_multi_cons_item tok rest) by lia.
      all: pose proof (continues_cons_item tok rest ltac:(lia)).
      all: destruct (Z.gtb_spec (count + 1) 1); intuition (try lia; auto).
    + destruct (Z.eqb_spec tok (-1)) as [E1 | N1].
      * rewrite IH by lia. subst tok.
        rewrite (has_multi_cons_skip (-1) rest) by lia.
        pose proof (continues_cons_stop (-1) rest (or_introl eq_refl)).
        intuition lia.
      * destruct (Z.eqb_spec tok (-2)) as [E2 | N2].
        -- subst tok. simpl.
           pose proof (has_multi_cons_terminator rest).
           pose proof (continues_cons_stop (-2) rest (or_intror eq_refl)).
           tauto.
        -- rewrite IH by lia.
           rewrite (has_multi_cons_skip tok rest) by lia.
           rewrite (continues_cons_skip tok rest) by lia.
           tauto.
Qed.

Lemma find_loop_flag seqs : forall sid m flag,
  exists m' flag',
    find_loop (map Some seqs) sid (m, flag) = Ok (m', flag') /\
    (flag' = true <-> flag = true \/ Exists has_multi_item_itemset seqs).
Proof.
  induction seqs as [|seq rest IH]; intros sid m flag.
  - exists m, flag. split; [reflexivity|]. rewrite Exists_nil. tauto.
  - cbn [map find_loop].
    destruct (find_in_sequence sid seq 0 [] (m, flag)) as [m1 flag1] eqn:E.
    destruct (IH (sid + 1) m1 flag1) as (m' & flag' & Hrun & Hflag).
    exists m', flag'. split; [exact Hrun|].
    rewrite Hflag, Exists_cons.
    pose proof (find_in_sequence_flag sid seq 0 [] m flag ltac:(lia)) as Hf.
    rewrite E in Hf. simpl in Hf. rewrite Hf. intuition lia.
Qed.

(** C9. The multi-item flag computed by the frequent item pass is set
    exactly when some sequence holds, before its terminator, two items
    of one itemset; [_prefixspan] then runs the general itemset path when
    the flag is set and the flat path otherwise. *)
Theorem dispatch_by_multi_item_flag :
  forall (fuel : nat) (output_file : string) (self : PrefixSpan) (seqs : list (list Z)),
    _db self = Some (map Some seqs) ->
    exists map_item_to_sids self1,
      (open_writer ;;; _find_sequences_containing_items) self
        = Ok (map_item_to_sids, self1) /\
      (_contains_itemsets_with_multiple_items self1 = true
         <-> Exists has_multi_item_itemset seqs) /\
      _prefixspan fuel output_file self =
        if _contains_itemsets_with_multiple_items self1
        then _prefixspan_with_multiple_items fuel map_item_to_sids self1
        else _prefixspan_with_single_items fuel map_item_to_sids self1.
Proof.
  intros fuel output_file self seqs Hdb.
  destruct (find_loop_flag seqs 0 [] false) as (m & flag & Hrun & Hflag).
  unfold _prefixspan, _find_sequences_containing_items, bind, open_writer,
    set_flag, the_db, lift, gets, ret.
  cbn -[find_loop map]. rewrite Hdb. cbn -[find_loop map].
  unfold Py.dict in *. rewrite Hrun.
  cbn -[find_loop map _prefixspan_with_multiple_items _prefixspan_with_single_items].
  eexists; eexists. split; [reflexivity|]. cbn.
  split; [|destruct flag; reflexivity].
  rewrite Hflag. intuition discriminate.
Qed.

Lemma dispatch_by_multi_item_flag_witness :
  exists map_item_to_sids self1,
    (open_writer ;;; _find_sequences_containing_items)
      (started (load_csv_tokens [[1; -1; 2; -1; -2]; [3; 4; -1; -2]]) 2 (init 10 1))
      = Ok (map_item_to_sids, self1) /\
    (_contains_itemsets_with_multiple_items self1 = true
       <-> Exists has_multi_item_itemset [[1; -1; 2; -1; -2]; [3; 4; -1; -2]]) /\
    _prefixspan 10 "out.txt"
      (started (load_csv_tokens [[1; -1; 2; -1; -2]; [3; 4; -1; -2]]) 2 (init 10 1)) =
      if _contains_itemsets_with_multiple_items self1
      then _prefixspan_with_multiple_items 10 map_item_to_sids self1
      else _prefixspan_with_single_items 10 map_item_to_sids self1.
Proof.
  apply (dispatch_by_multi_item_flag 10 "out.txt" _ [[1; -1; 2; -1; -2]; [3; 4; -1; -2]]).
  reflexivity.
Defined.

(** * Binary64 arithmetic *)

(** ** Rounding to an integer *)

Lemma Qround_half_even_cases y :
  Qround_half_even y = Qfloor y \/
  (Qround_half_even y = Qfloor y + 1 /\ (inject_Z (Qfloor y) < y)%Q).
Proof.
  unfold Qround_half_even.
  destruct (y - inject_Z (Qfloor y) ?= 1 # 2)%Q eqn:E.
  - apply Qeq_alt in E. destruct (Z.even (Qfloor y)); [now left|].
    right. split; [reflexivity | lra].
  - now left.
  - apply Qgt_alt in E. right. split; [reflexivity | lra].
Qed.

Lemma Qround_half_even_le y (A : Z) : (y <= inject_Z A)%Q -> Qround_half_even y <= A.
Proof.
  intros H. pose proof (Qfloor_le y) as Hf.
  destruct (Qround_half_even_cases y) as [-> | [-> Hlt]].
  - rewrite Zle_Qle. lra.
  - assert (G : (inject_Z (Qfloor y) < inject_Z A)%Q) by lra.
    rewrite <- Zlt_Qlt in G. lia.
Qed.

Lemma Qround_half_even_ge y (A : Z) : (inject_Z A <= y)%Q -> A <= Qround_half_even y.
Proof.
  intros H. apply Qfloor_resp_le in H. rewrite Qfloor_Z in H.
  destruct (Qround_half_even_cases y) as [-> | [-> _]]; lia.
Qed.

Lemma Qround_half_even_Z (A : Z) : Qround_half_even (inject_Z A) = A.
Proof.
  apply Z.le_antisymm.
  - apply Qround_half_even_le. lra.
  - apply Qround_half_even_ge. lra.
Qed.

(** ** Powers of two *)

Lemma Qpow2_pos k : (0 < 2 ^ k)%Q.
Proof. apply Qpower_0_lt. reflexivity. Qed.

Lemma Qpow2_plus a b : (2 ^ (a + b) == 2 ^ a * 2 ^ b)%Q.
Proof. apply Qpower_plus. discriminate. Qed.

Lemma Qpow2_inject k : 0 <= k -> (2 ^ k == inject_Z (2 ^ k))%Q.
Proof. intros H. now rewrite Zpower_Qpower. Qed.

Lemma Qpow2_le a b : a <= b -> (2 ^ a <= 2 ^ b)%Q.
Proof. intros H. apply Qpower_le_compat_l; [exact H | discriminate]. Qed.

Lemma Qpow2_le_inv a b : (2 ^ a <= 2 ^ b)%Q -> a <= b.
Proof. intros H. apply (Qpower_le_compat_l_inv 2); [exact H | reflexivity]. Qed.

(** ** The binary logarithm of a positive rational *)

Lemma Qlog2_bounds_aux (x : Q) :
  (0 < x)%Q ->
  let k := Z.log2 (Qnum x) - Z.log2 (Zpos (Qden x)) in
  (2 ^ (k - 1) <= x /\ x < 2 ^ (k + 1))%Q.
Proof.
  intros Hx k. destruct x as [n d]. cbn [Qnum Qden] in k.
  assert (Hn : 0 < n) by (unfold Qlt in Hx; cbn in Hx; lia).
  set (a := Z.log2 n) in *. set (b := Z.log2 (Zpos d)) in *.
  pose proof (Z.log2_spec n Hn) as [Ha1 Ha2]. fold a in Ha1, Ha2.
  pose proof (Z.log2_spec (Zpos d) eq_refl) as [Hb1 Hb2]. fold b in Hb1, Hb2.
  pose proof (Z.log2_nonneg n) as Ha0. fold a in Ha0.
  pose proof (Z.log2_nonneg (Zpos d)) as Hb0. fold b in Hb0.
  assert (Hxd : (n # d) * inject_Z (Zpos d) == inject_Z n).
  { unfold Qeq, Qmult, inject_Z. cbn. lia. }
  assert (Hd : (0 < inject_Z (Zpos d))%Q) by (unfold Qlt; cbn; lia).
  rewrite Zle_Qle, <- Qpow2_inject in Ha1, Hb1 by assumption.
  rewrite Zlt_Qlt in Ha2, Hb2.
  replace (Z.succ a) with (a + 1) in Ha2 by lia.
  replace (Z.succ b) with (b + 1) in Hb2 by lia.
  rewrite <- Qpow2_inject in Ha2, Hb2 by lia.
  split.
  - apply (Qmult_le_r _ _ (inject_Z (Zpos d))); [exact Hd|]. rewrite Hxd.
    apply Qle_trans with (2 ^ (k - 1) * 2 ^ (b + 1))%Q.
    + apply Qmult_le_l; [apply Qpow2_pos | lra].
    + rewrite <- Qpow2_plus. replace (k - 1 + (b + 1)) with a by (unfold k; lia).
      exact Ha1.
  - apply (Qmult_lt_r _ _ (inject_Z (Zpos d))); [exact Hd|]. rewrite Hxd.
    apply Qlt_le_trans with (2 ^ (k + 1) * 2 ^ b)%Q.
    + rewrite <- Qpow2_plus. replace (k + 1 + b) with (a + 1) by (unfold k; lia).
      exact Ha2.
    + apply Qmult_le_l; [apply Qpow2_pos | exact Hb1].
Qed.

(** [Qlog2 x] is the integer part of the binary logarithm. *)
Lemma Qlog2_spec (x : Q) :
  (0 < x)%Q -> (2 ^ Qlog2 x <= x /\ x < 2 ^ (Qlog2 x + 1))%Q.
Proof.
  intros Hx. destruct (Qlog2_bounds_aux x Hx) as [Hlo Hhi]. unfold Qlog2.
  set (k := Z.log2 (Qnum x) - Z.log2 (Zpos (Qden x))) in *.
  destruct (Qle_bool (2 ^ k) x) eqn:E.
  - apply Qle_bool_iff in E. now split.
  - split; [exact Hlo|]. replace (k - 1 + 1) with k by lia.
    apply Qnot_le_lt. intros H. apply Qle_bool_iff in H. congruence.
Qed.

(** The rounded integer is at most one half away. *)
Lemma Qround_half_even_near y :
  (Qabs (inject_Z (Qround_half_even y) - y) <= 1 # 2)%Q.
Proof.
  pose proof (Qfloor_le y) as Hf. pose proof (Qlt_floor y) as Hc.
  rewrite inject_Z_plus in Hc. change (inject_Z 1) with 1%Q in Hc.
  apply Qabs_Qle_condition. unfold Qround_half_even.
  destruct (y - inject_Z (Qfloor y) ?= 1 # 2)%Q eqn:E.
  - apply Qeq_alt in E. destruct (Z.even (Qfloor y)).
    + lra.
    + rewrite inject_Z_plus. change (inject_Z 1) with 1%Q. lra.
  - apply Qlt_alt in E. lra.
  - apply Qgt_alt in E. rewrite inject_Z_plus. change (inject_Z 1) with 1%Q. lra.
Qed.

(** ** Rounding to binary64 *)

(** Scaling by a power of two and rounding keeps a value between two
    integers that are multiples of that power. *)
Lemma scaled_round_between (x : Q) (e lo hi : Z) :
  e <= 0 ->
  (inject_Z lo <= x <= inject_Z hi)%Q ->
  (inject_Z lo <= inject_Z (Qround_half_even (x / 2 ^ e)) * 2 ^ e <= inject_Z hi)%Q.
Proof.
  intros He [Hlo Hhi].
  set (P := 2 ^ (- e)).
  assert (HP : (2 ^ e * inject_Z P == 1)%Q).
  { unfold P. rewrite <- Qpow2_inject by lia. rewrite <- Qpow2_plus.
    replace (e + - e) with 0 by lia. reflexivity. }
  pose proof (Qpow2_pos e) as Ht.
  assert (HP0 : (0 < inject_Z P)%Q).
  { unfold P. rewrite <- Qpow2_inject by lia. apply Qpow2_pos. }
  assert (Hy : (x / 2 ^ e == x * inject_Z P)%Q).
  { apply (Qmult_inj_r _ _ (2 ^ e)); [lra|].
    rewrite Qmult_comm, Qmult_div_r by lra. rewrite <- Qmult_assoc, (Qmult_comm (inject_Z P)), HP.
    lra. }
  assert (Hback : forall A : Z, (inject_Z (A * P) * 2 ^ e == inject_Z A)%Q).
  { intros A. rewrite inject_Z_mult, <- Qmult_assoc, (Qmult_comm (inject_Z P)), HP. lra. }
  split.
  - rewrite <- (Hback lo). apply Qmult_le_compat_r; [|lra].
    rewrite <- Zle_Qle. apply Qround_half_even_ge.
    rewrite Hy, inject_Z_mult. apply Qmult_le_compat_r; lra.
  - rewrite <- (Hback hi). apply Qmult_le_compat_r; [|lra].
    rewrite <- Zle_Qle. apply Qround_half_even_le.
    rewrite Hy, inject_Z_mult. apply Qmult_le_compat_r; lra.
Qed.

Lemma Qred_Qred q : Qred (Qred q) = Qred q.
Proof. apply Qred_complete, Qred_correct. Qed.

Lemma Qred_inject_Z n : Qred (inject_Z n) = inject_Z n.
Proof. apply Qcanon.Qred_identity. cbn. apply Z.gcd_1_r. Qed.

Lemma ulp_exponent_small (x : Q) :
  ~ x == 0 -> (Qabs x <= inject_Z (2 ^ 53))%Q ->
  ulp_exponent x <= 0 \/ (ulp_exponent x = 1 /\ (Qabs x == inject_Z (2 ^ 53))%Q).
Proof.
  intros Hx Hle. unfold ulp_exponent.
  assert (Hpos : (0 < Qabs x)%Q).
  { pose proof (Qabs_nonneg x) as H0. apply Qle_lteq in H0 as [H0 | H0]; [exact H0|].
    exfalso. apply Hx. symmetry in H0.
    pose proof (proj1 (Qabs_Qle_condition x 0)) as G.
    destruct G as [G1 G2]; [rewrite H0; lra|]. lra. }
  destruct (Qlog2_spec (Qabs x) Hpos) as [Hlo _].
  set (k := Qlog2 (Qabs x)) in *.
  assert (Hk : k <= 53).
  { apply Qpow2_le_inv. rewrite (Qpow2_inject 53) by lia. lra. }
  destruct (Z.eq_dec k 53) as [E | N]; [right | left; lia].
  split; [lia|]. rewrite E, (Qpow2_inject 53) in Hlo by lia. lra.
Qed.

(** A value between two integers of at most 53 bits is rounded to a
    finite number between them. *)
Lemma round64_between (x : Q) (lo hi : Z) :
  - 2 ^ 53 <= lo -> hi <= 2 ^ 53 ->
  (inject_Z lo <= x <= inject_Z hi)%Q ->
  exists r, round64 x = Finite r /\ Qred r = r /\ (inject_Z lo <= r <= inject_Z hi)%Q.
Proof.
  intros Hlo Hhi [Hl Hh]. unfold round64.
  destruct (Qeq_bool x 0) eqn:E0.
  - apply Qeq_bool_iff in E0. exists 0%Q. repeat split; lra.
  - assert (Hx : ~ x == 0).
    { intros H. apply Qeq_bool_iff in H. congruence. }
    rewrite Zle_Qle in Hlo, Hhi. rewrite inject_Z_opp in Hlo.
    assert (Habs : (Qabs x <= inject_Z (2 ^ 53))%Q).
    { apply Qabs_Qle_condition. lra. }
    set (e := ulp_exponent x).
    set (r := (inject_Z (Qround_half_even (x / 2 ^ e)) * 2 ^ e)%Q).
    assert (Hr : (inject_Z lo <= r <= inject_Z hi)%Q).
    { destruct (ulp_exponent_small x Hx Habs) as [He | [He Hmax]]; fold e in He.
      - now apply scaled_round_between.
      - unfold r. rewrite He. change (2 ^ 1)%Q with 2%Q.
        assert (H53 : (inject_Z (2 ^ 53) == 2 * inject_Z (2 ^ 52))%Q) by reflexivity.
        assert (Hm : forall A : Z, (x == 2 * inject_Z A)%Q ->
                       (inject_Z (Qround_half_even (x / 2)) * 2 == x)%Q).
        { intros A HA.
          assert (G : Qround_half_even (x / 2) = A).
          { assert (Hy : (x / 2 == inject_Z A)%Q) by (rewrite HA; field).
            apply Z.le_antisymm;
              [apply Qround_half_even_le | apply Qround_half_even_ge]; rewrite Hy; lra. }
          rewrite G. lra. }
        destruct (Qlt_le_dec x 0) as [Hneg | Hpos].
        + rewrite Qabs_neg in Hmax by lra.
          rewrite (Hm (- 2 ^ 52)); [lra|]. rewrite inject_Z_opp.
          remember (inject_Z (2 ^ 52)) as c. remember (inject_Z (2 ^ 53)) as d. lra.
        + rewrite Qabs_pos in Hmax by lra.
          rewrite (Hm (2 ^ 52)); [lra|].
          remember (inject_Z (2 ^ 52)) as c. remember (inject_Z (2 ^ 53)) as d. lra. }
    cbv zeta. fold e. fold r.
    pose proof (Qred_correct r) as Hred.
    assert (Hfin : Qle_bool (2 ^ 1024) (Qabs (Qred r)) = false).
    { destruct (Qle_bool (2 ^ 1024) (Qabs (Qred r))) eqn:E; [|reflexivity].
      apply Qle_bool_iff in E. rewrite Hred in E.
      assert (G : (Qabs r <= inject_Z (2 ^ 53))%Q) by (apply Qabs_Qle_condition; lra).
      assert (G' : (2 ^ 53 < 2 ^ 1024)%Q).
      { apply Qpower_lt_compat_l; [lia | reflexivity]. }
      rewrite (Qpow2_inject 53) in G' by lia. lra. }
    rewrite Hfin. exists (Qred r). split; [reflexivity|]. split; [apply Qred_Qred|].
    rewrite Hred. exact Hr.
Qed.

(** Integers of at most 53 bits are binary64 numbers. *)
Lemma round64_Z (n : Z) :
  - 2 ^ 53 <= n <= 2 ^ 53 -> round64 (inject_Z n) = Finite (inject_Z n).
Proof.
  intros [H1 H2].
  destruct (round64_between (inject_Z n) n n H1 H2) as (r & -> & Hred & Hr); [lra|].
  f_equal. rewrite <- Hred, <- Qred_inject_Z. apply Qred_complete. lra.
Qed.

(** A finite result is a multiple of the unit in the last place of [x],
    at most half a unit away from [x]. *)
Lemma round64_error (x r : Q) :
  round64 x = Finite r ->
  (r == inject_Z (Qround_half_even (x / 2 ^ ulp_exponent x)) * 2 ^ ulp_exponent x)%Q /\
  (Qabs (r - x) <= 2 ^ ulp_exponent x * (1 # 2))%Q.
Proof.
  unfold round64. destruct (Qeq_bool x 0) eqn:E0.
  - apply Qeq_bool_iff in E0. change (x == 0)%Q in E0. intros H. injection H as <-.
    set (e := ulp_exponent x).
    pose proof (Qpow2_pos e) as Ht.
    assert (Hy : (x / 2 ^ e == inject_Z 0)%Q).
    { rewrite E0. unfold Qdiv. rewrite Qmult_0_l. reflexivity. }
    assert (Hm : Qround_half_even (x / 2 ^ e) = 0).
    { apply Z.le_antisymm;
        [apply Qround_half_even_le | apply Qround_half_even_ge]; rewrite Hy; lra. }
    rewrite Hm. split; [change (inject_Z 0) with 0%Q; lra|].
    apply Qabs_Qle_condition. lra.
  - set (e := ulp_exponent x).
    set (m := Qround_half_even (x / 2 ^ e)).
    cbv zeta. fold e. fold m.
    pose proof (Qred_correct (inject_Z m * 2 ^ e)) as Hred.
    revert Hred. generalize (Qred (inject_Z m * 2 ^ e)). intros r0 Hred.
    destruct (Qle_bool (2 ^ 1024) (Qabs r0)); [discriminate|].
    intros H. injection H as <-. split; [exact Hred|].
    pose proof (Qpow2_pos e) as Ht.
    pose proof (Qround_half_even_near (x / 2 ^ e)) as Hn. fold m in Hn.
    apply Qabs_Qle_condition in Hn as [Hn1 Hn2].
    assert (Hx : (x == x / 2 ^ e * 2 ^ e)%Q).
    { rewrite Qmult_comm, Qmult_div_r; [reflexivity | lra]. }
    assert (H1 : ((inject_Z m - x / 2 ^ e) * 2 ^ e <= (1 # 2) * 2 ^ e)%Q)
      by (apply Qmult_le_compat_r; lra).
    assert (H2 : (- (1 # 2) * 2 ^ e <= (inject_Z m - x / 2 ^ e) * 2 ^ e)%Q)
      by (apply Qmult_le_compat_r; lra).
    assert (Hring : ((inject_Z m - x / 2 ^ e) * 2 ^ e
                     == inject_Z m * 2 ^ e - x / 2 ^ e * 2 ^ e)%Q) by ring.
    rewrite Hring in H1, H2. rewrite <- Hx in H1, H2. rewrite <- Hred in H1, H2.
    remember (2 ^ e)%Q as t.
    apply Qabs_Qle_condition. clear - H1 H2. lra.
Qed.

(** Values of the IEEE 754 binary64 format: a tie goes to the even
    neighbour, the smallest positive number is [2 ^ -1074], and the
    largest finite one is [2 ^ 1024 - 2 ^ 971]. *)
Example round64_ties :
  round64 (inject_Z (2 ^ 53 + 1)) = Finite (inject_Z (2 ^ 53)) /\
  round64 (inject_Z (2 ^ 53 + 3)) = Finite (inject_Z (2 ^ 53 + 4)) /\
  round64 (inject_Z (2 ^ 53 + 2)) = Finite (inject_Z (2 ^ 53 + 2)).
Proof. repeat split; vm_compute; reflexivity. Qed.

Example round64_underflow :
  round64 (2 ^ (-1074)) = Finite (Qred (2 ^ (-1074))) /\
  round64 (2 ^ (-1075)) = Finite 0 /\
  round64 (3 * 2 ^ (-1075)) = Finite (Qred (2 ^ (-1073))).
Proof. repeat split; vm_compute; reflexivity. Qed.

Example round64_overflow :
  round64 (inject_Z (2 ^ 1024 - 2 ^ 971)) = Finite (inject_Z (2 ^ 1024 - 2 ^ 971)) /\
  round64 (inject_Z (2 ^ 1024 - 2 ^ 970 - 1)) = Finite (inject_Z (2 ^ 1024 - 2 ^ 971)) /\
  round64 (inject_Z (2 ^ 1024 - 2 ^ 970)) = Infinity false /\
  float_of_int (2 ^ 1024) = Raise OverflowError.
Proof. repeat split; vm_compute; reflexivity. Qed.

(** * The absolute threshold *)

Lemma minsupp_abs_of_Ok (minsup_relative : float) (N t : Z) :
  minsupp_abs_of minsup_relative N = Ok t ->
  exists n v,
    float_of_int N = Ok n /\ ceil (float_mul minsup_relative n) = Ok v /\
    t = Z.max 1 v.
Proof.
  unfold minsupp_abs_of. destruct (float_of_int N) as [n|e] eqn:En; [|discriminate].
  destruct (ceil (float_mul minsup_relative n)) as [v|e] eqn:Ev; [|discriminate].
  intros H. injection H as <-. exists n, v.
  split; [reflexivity|]. split; [exact Ev|].
  destruct (Z.leb_spec v 0); lia.
Qed.

Lemma minsupp_abs_of_positive (minsup_relative : float) (N t : Z) :
  minsupp_abs_of minsup_relative N = Ok t -> 1 <= t.
Proof. intros H. apply minsupp_abs_of_Ok in H as (n & v & _ & _ & ->). lia. Qed.

Lemma Qceiling_between (p : Q) (lo hi : Z) :
  (inject_Z lo <= p <= inject_Z hi)%Q -> lo <= Qceiling p <= hi.
Proof.
  intros [H1 H2]. apply Qceiling_resp_le in H1, H2. rewrite Qceiling_Z in H1, H2. lia.
Qed.

(** The threshold for a relative support between 0 and 1 and a count
    of at most 53 bits: the count is a float, the product [p] of the
    floats is finite and lies between the integers around the exact
    product and below the count. *)
Lemma minsupp_abs_of_unit (s : Q) (N : Z) :
  (0 <= s <= 1)%Q -> 0 <= N <= 2 ^ 53 ->
  exists p,
    float_of_int N = Ok (Finite (inject_Z N)) /\
    float_mul (Finite s) (Finite (inject_Z N)) = Finite p /\
    minsupp_abs_of (Finite s) N = Ok (Z.max 1 (Qceiling p)) /\
    (inject_Z (Qceiling (s * inject_Z N) - 1) <= p)%Q /\
    (p <= inject_Z (Qceiling (s * inject_Z N)))%Q /\
    (p <= inject_Z N)%Q.
Proof.
  intros [Hs0 Hs1] [HN0 HN].
  assert (Hconv : float_of_int N = Ok (Finite (inject_Z N))).
  { unfold float_of_int. rewrite round64_Z by lia. reflexivity. }
  set (x := (s * inject_Z N)%Q).
  assert (HN0' : (0 <= inject_Z N)%Q) by (rewrite Zle_Qle in HN0; exact HN0).
  assert (Hx0 : (0 <= x)%Q) by (apply Qmult_le_0_compat; assumption).
  assert (HxN : (x <= inject_Z N)%Q).
  { unfold x. rewrite <- (Qmult_1_l (inject_Z N)) at 2.
    apply Qmult_le_compat_r; assumption. }
  pose proof (Qle_ceiling x) as Hc. pose proof (Qceiling_lt x) as Hc'.
  assert (Hc0 : 0 <= Qceiling x).
  { apply Qceiling_resp_le in Hx0. exact Hx0. }
  destruct (round64_between x (Qceiling x - 1) (Z.min (Qceiling x) N))
    as (p & Hp & _ & Hlo & Hhi); [lia | lia | |].
  { split; [lra|]. destruct (Z.min_spec (Qceiling x) N) as [[_ ->] | [_ ->]]; assumption. }
  exists p. unfold minsupp_abs_of. rewrite Hconv. cbn [float_mul]. fold x. rewrite Hp.
  cbn [ceil].
  assert (Hmin1 : (inject_Z (Z.min (Qceiling x) N) <= inject_Z (Qceiling x))%Q)
    by (rewrite <- Zle_Qle; lia).
  assert (Hmin2 : (inject_Z (Z.min (Qceiling x) N) <= inject_Z N)%Q)
    by (rewrite <- Zle_Qle; lia).
  repeat split; try lra.
  f_equal. destruct (Z.leb_spec (Qceiling p) 0); lia.
Qed.

(** The threshold computation fails only in the conversion of the
    count or in [ceil]. *)
Lemma minsupp_abs_of_errors (minsup_relative : float) (N : Z) (e : error) :
  minsupp_abs_of minsup_relative N = Raise e -> e = ValueError \/ e = OverflowError.
Proof.
  unfold minsupp_abs_of, float_of_int.
  destruct (round64 (inject_Z N)) as [v|b|];
    try (intros H; injection H as <-; now right);
    (match goal with |- context [ceil ?x] => destruct x as [w|b'|] end);
    cbn [ceil]; intros H; try discriminate; injection H as <-; auto.
Qed.
(** * The loader, line by line *)

Lemma last_map_Some (toks : list Z) :
  last (map Some toks) None = match rev toks with [] => None | t :: _ => Some t end.
Proof.
  induction toks as [|a toks IH]; [reflexivity|].
  cbn [map rev]. destruct toks as [|b toks]; [reflexivity|].
  change (last (Some a :: map Some (b :: toks)) None) with (last (map Some (b :: toks)) None).
  rewrite IH. cbn [rev]. destruct (rev toks ++ [b]) eqn:E; [|reflexivity].
  destruct (rev toks); discriminate.
Qed.

Lemma load_line_cases (toks : list Z) :
  (toks = [] /\ load_line toks = []) \/
  (exists body, toks = body ++ [-2] /\ load_line toks = toks) \/
  (exists body t, toks = body ++ [t] /\ t <> -2 /\ load_line toks = toks ++ [-2]).
Proof.
  unfold load_line. rewrite last_map_Some.
  destruct (rev toks) as [|t r] eqn:E.
  - left. apply (f_equal (@rev Z)) in E. rewrite rev_involutive in E. now subst.
  - right. apply (f_equal (@rev Z)) in E. rewrite rev_involutive in E. cbn [rev] in E.
    destruct (Z.eqb_spec t (-2)) as [-> | N]; cbn [negb].
    + left. now exists (rev r).
    + right. now exists (rev r), t.
Qed.

Lemma load_line_terminated toks : load_line toks = [] \/ In (-2) (load_line toks).
Proof.
  destruct (load_line_cases toks) as [[_ ->] | [(body & E & ->) | (body & t & E & Ht & ->)]].
  - now left.
  - right. rewrite E. apply in_or_app. right. now left.
  - right. apply in_or_app. right. now left.
Qed.



(** * Python list primitives *)

Lemma getitem_of_nat {A : Type} (l : list A) (n : nat) :
  Py.getitem l (Z.of_nat n) = nth_error l n.
Proof.
  unfold Py.getitem. destruct (Z.leb_spec 0 (Z.of_nat n)); [|lia].
  now rewrite Nat2Z.id.
Qed.

Lemma set_nth_app {A : Type} (out : list A) x tl v :
  Py.set_nth (out ++ x :: tl) (length out) v = out ++ v :: tl.
Proof. induction out as [|a out IH]; simpl; [reflexivity | now rewrite IH]. Qed.

Lemma set_nth_length {A : Type} (l : list A) n v :
  length (Py.set_nth l n v) = length l.
Proof.
  revert n; induction l as [|a l IH]; intros [|n]; simpl; auto.
Qed.

Lemma setitem_app {A : Type} (out : list A) x tl v :
  Py.setitem (out ++ x :: tl) (Z.of_nat (length out)) v = Some (out ++ v :: tl).
Proof.
  unfold Py.setitem. destruct (Z.leb_spec 0 (Z.of_nat (length out))); [|lia].
  rewrite length_app. cbn [length].
  destruct (Z.ltb_spec (Z.of_nat (length out)) (Z.of_nat (length out + S (length tl)))); [|lia].
  now rewrite Nat2Z.id, set_nth_app.
Qed.

Lemma nth_error_app_head {A : Type} (out : list A) x tl :
  nth_error (out ++ x :: tl) (length out) = Some x.
Proof. induction out; simpl; auto. Qed.

(** * The itemset-preserving pruning pass *)

Section PruneMulti.

Variable map_item_to_sids : Py.dict (list Z).
Variable minsupp_abs : Z.

Let kept := kept_multi map_item_to_sids minsupp_abs.
Let loop := prune_multi_loop map_item_to_sids minsupp_abs.

  (** The in-place loop computes [kept_multi]: the list is [out], the
      tokens written so far, then dead tokens [junk], then the tokens
      [rest] still to read. *)
Lemma prune_multi_loop_kept : forall rest out junk count,
    In (-2) rest ->
    loop (length rest) (Z.of_nat (length (out ++ junk))) (out ++ junk ++ rest)
         (Z.of_nat (length out)) count
    = Ok (slot_of (out ++ kept rest count)).
  Proof.
    induction rest as [|tok rest IH]; intros out junk count Hin; [destruct Hin|].
    assert (Hget : Py.getitem (out ++ junk ++ tok :: rest)
                     (Z.of_nat (length (out ++ junk))) = Some tok).
    { rewrite getitem_of_nat, app_assoc. apply nth_error_app_head. }
    assert (Hset : forall v, exists junk',
               Py.setitem (out ++ junk ++ tok :: rest) (Z.of_nat (length out)) v
               = Some ((out ++ [v]) ++ junk' ++ rest) /\
               length ((out ++ [v]) ++ junk') = S (length (out ++ junk))).
    { intros v. destruct junk as [|a junk].
      - exists []. cbn [app]. rewrite setitem_app. split.
        + now rewrite <- app_assoc.
        + rewrite !app_nil_r, length_app. cbn. lia.
      - exists (junk ++ [tok]). cbn [app]. rewrite setitem_app. split.
        + now rewrite <- !app_assoc.
        + rewrite !length_app. cbn. rewrite ?length_app. cbn. lia. }
    assert (Hskip : out ++ junk ++ tok :: rest = out ++ (junk ++ [tok]) ++ rest
                    /\ length (out ++ junk ++ [tok]) = S (length (out ++ junk))).
    { split; [now rewrite <- !app_assoc|]. rewrite !length_app. cbn. lia. }
    unfold loop. cbn [length prune_multi_loop]. fold loop. rewrite Hget.
    replace (Z.of_nat (length (out ++ junk)) + 1)
      with (Z.of_nat (S (length (out ++ junk)))) by lia.
    unfold kept. cbn [kept_multi]. fold kept.
    destruct (Z.gtb_spec tok 0) as [Hpos | Hnpos].
    - assert (Hin' : In (-2) rest) by (destruct Hin; [lia | assumption]).
      destruct (is_frequent map_item_to_sids minsupp_abs tok).
      + destruct (Hset tok) as (junk' & -> & Hlen).
        rewrite <- Hlen.
        replace (Z.of_nat (length out) + 1) with (Z.of_nat (length (out ++ [tok])))
          by (rewrite length_app; cbn; lia).
        rewrite IH by assumption. now rewrite <- app_assoc.
      + destruct Hskip as [-> Hlen]. rewrite <- Hlen.
        rewrite IH by assumption. reflexivity.
    - destruct (Z.eqb_spec tok (-1)) as [E1 | N1].
      + assert (Hin' : In (-2) rest) by (destruct Hin; [lia | assumption]).
        destruct (count >? 0).
        * destruct (Hset (-1)) as (junk' & -> & Hlen).
          rewrite <- Hlen.
          replace (Z.of_nat (length out) + 1) with (Z.of_nat (length (out ++ [-1])))
            by (rewrite length_app; cbn; lia).
          rewrite IH by assumption. now rewrite <- app_assoc.
        * destruct Hskip as [-> Hlen]. rewrite <- Hlen.
          rewrite IH by assumption. reflexivity.
      + destruct (Z.eqb_spec tok (-2)) as [E2 | N2].
        * rewrite app_nil_r.
          destruct out as [|a out].
          -- reflexivity.
          -- destruct (Z.gtb_spec (Z.of_nat (length (a :: out))) 0); [|cbn in *; lia].
             destruct (Hset (-2)) as (junk' & -> & Hlen).
             unfold Py.slice_to.
             replace (Z.to_nat (Z.of_nat (length (a :: out)) + 1))
               with (length ((a :: out) ++ [(-2)%Z]) + 0)%nat
               by (rewrite length_app; cbn; lia).
             rewrite firstn_app_2. cbn [firstn]. rewrite app_nil_r. reflexivity.
        * assert (Hin' : In (-2) rest) by (destruct Hin; [lia | assumption]).
          destruct Hskip as [-> Hlen]. rewrite <- Hlen.
          rewrite IH by assumption. reflexivity.
  Qed.

Lemma kept_multi_kind : forall toks count t,
    In t (kept toks count) ->
    t = -1 \/ (t > 0 /\ is_frequent map_item_to_sids minsupp_abs t = true).
  Proof.
    unfold kept.
    induction toks as [|tok rest IH]; intros count t; cbn [kept_multi]; [intros []|].
    destruct (Z.gtb_spec tok 0).
    - destruct (is_frequent map_item_to_sids minsupp_abs tok) eqn:F; [|apply IH].
      intros [<- | Hin]; [right; split; [lia | assumption] | eapply IH; eassumption].
    - destruct (Z.eqb_spec tok (-1)).
      + destruct (count >? 0); [|apply IH].
        intros [<- | Hin]; [now left | eapply IH; eassumption].
      + destruct (Z.eqb_spec tok (-2)); [intros [] | apply IH].
  Qed.

Lemma kept_multi_items : forall toks count,
    filter (fun t => t >? 0) (kept toks count)
    = surviving_items map_item_to_sids minsupp_abs toks.
  Proof.
    unfold kept, surviving_items.
    induction toks as [|tok rest IH]; intros count;
      cbn [kept_multi before_terminator filter]; [reflexivity|].
    destruct (Z.gtb_spec tok 0) as [Hpos | Hnpos].
    - destruct (Z.eqb_spec tok (-2)); [lia|]. cbn [filter].
      destruct (Z.gtb_spec tok 0); [|lia]. cbn [andb].
      destruct (is_frequent map_item_to_sids minsupp_abs tok).
      + cbn [filter]. destruct (Z.gtb_spec tok 0); [|lia]. now rewrite IH.
      + apply IH.
    - destruct (Z.eqb_spec tok (-1)) as [-> | N1].
      + cbn [Z.eqb filter Z.gtb Z.compare andb].
        destruct (count >? 0); [cbn [filter Z.gtb Z.compare]|]; apply IH.
      + destruct (Z.eqb_spec tok (-2)); [reflexivity|].
        cbn [filter]. destruct (Z.gtb_spec tok 0); [lia|]. cbn [andb]. apply IH.
  Qed.

Lemma kept_multi_separators : forall toks count,
    0 <= count -> separators_ok (count >? 0) (kept toks count) = true.
  Proof.
    unfold kept.
    induction toks as [|tok rest IH]; intros count Hc; cbn [kept_multi]; [reflexivity|].
    destruct (Z.gtb_spec tok 0) as [Hpos | Hnpos].
    - destruct (is_frequent map_item_to_sids minsupp_abs tok); [|now apply IH].
      cbn [separators_ok]. destruct (Z.eqb_spec tok (-1)); [lia|].
      specialize (IH (count + 1) ltac:(lia)).
      destruct (Z.gtb_spec tok 0); [|lia].
      destruct (Z.gtb_spec (count + 1) 0); [assumption | lia].
    - destruct (Z.eqb_spec tok (-1)).
      + pose proof (IH count Hc) as IHc.
        destruct (Z.gtb_spec count 0); [|exact IHc].
        cbn [separators_ok Z.eqb andb]. apply (IH 0). lia.
      + destruct (Z.eqb_spec tok (-2)); [reflexivity | now apply IH].
  Qed.

End PruneMulti.

Lemma separators_ok_terminated : forall l b,
  separators_ok b (l ++ [-2]) = separators_ok b l.
Proof.
  induction l as [|t l IH]; intros b; cbn [app separators_ok]; [reflexivity|].
  destruct (t =? -1); now rewrite IH.
Qed.

Lemma separators_ok_sound : forall l b,
  separators_ok b l = true ->
  forall pre post, l = pre ++ -1 :: post ->
    (pre = [] /\ b = true) \/ exists pre' x, pre = pre' ++ [x] /\ x > 0.
Proof.
  induction l as [|t l IH]; intros b Hok pre post E.
  - destruct pre; discriminate.
  - cbn [separators_ok] in Hok. destruct pre as [|a pre]; cbn [app] in E; inversion E; subst.
    + left. cbn [Z.eqb] in Hok. apply andb_prop in Hok. tauto.
    + right. destruct (Z.eqb_spec a (-1)) as [-> | Na].
      * apply andb_prop in Hok. destruct Hok as [_ Hok].
        destruct (IH _ Hok _ _ eq_refl) as [[_ F] | (pre' & x & -> & Hx)]; [discriminate|].
        exists (-1 :: pre'), x. split; [reflexivity | assumption].
      * destruct (IH _ Hok _ _ eq_refl) as [[-> Hb] | (pre' & x & -> & Hx)].
        -- exists [], a. split; [reflexivity | lia].
        -- exists (a :: pre'), x. split; [reflexivity | assumption].
Qed.

Lemma separators_close_no_leading l :
  separators_close_itemsets l -> hd_error l <> Some (-1).
Proof.
  intros H E. destruct l as [|t l]; [discriminate|]. inversion E; subst.
  destruct (H [] l eq_refl) as (pre' & x & Hp & _). destruct pre'; discriminate.
Qed.

Lemma separators_close_no_adjacent l :
  separators_close_itemsets l -> forall pre post, l <> pre ++ -1 :: -1 :: post.
Proof.
  intros H pre post E.
  destruct (H (pre ++ [-1]) post) as (pre' & x & Hp & Hx).
  - now rewrite <- app_assoc.
  - apply app_inj_tail in Hp. lia.
Qed.

(** One slot of the itemset-preserving pruning pass. *)
Lemma prune_multi_entry_postcondition map_item_to_sids minsupp_abs seq :
  In (-2) seq ->
  exists after,
    prune_multi_entry map_item_to_sids minsupp_abs (Some seq) = Ok after /\
    pruned_multi_tokens map_item_to_sids minsupp_abs seq after.
Proof.
  intros Hin.
  pose proof (prune_multi_loop_kept map_item_to_sids minsupp_abs seq [] [] 0 Hin) as Hrun.
  cbn [app length] in Hrun. change (Z.of_nat 0) with 0 in Hrun.
  set (body := kept_multi map_item_to_sids minsupp_abs seq 0) in *.
  pose proof (kept_multi_kind map_item_to_sids minsupp_abs seq 0) as Hkind.
  pose proof (kept_multi_items map_item_to_sids minsupp_abs seq 0) as Hitems.
  pose proof (kept_multi_separators map_item_to_sids minsupp_abs seq 0 ltac:(lia)) as Hsep.
  fold body in Hkind, Hitems, Hsep. change (0 >? 0) with false in Hsep.
  assert (Hclose : separators_close_itemsets (body ++ [-2])).
  { intros pre post E.
    rewrite <- (separators_ok_terminated body false) in Hsep.
    destruct (separators_ok_sound _ _ Hsep _ _ E) as [[_ F] | H]; [discriminate | exact H]. }
  assert (Hclose' : separators_close_itemsets body).
  { intros pre post E. apply (Hclose pre (post ++ [-2])).
    rewrite E, <- app_assoc. reflexivity. }
  exists (slot_of body). split; [exact Hrun|].
  destruct body as [|t body'] eqn:Eb.
  - left. split; [now rewrite <- Hitems | reflexivity].
  - right. split.
    + rewrite <- Hitems. cbn [filter].
      destruct (Z.gtb_spec t 0); [discriminate|].
      destruct (Hkind t (or_introl eq_refl)) as [-> | [Ht _]]; [|lia].
      exfalso. now apply (separators_close_no_leading _ Hclose').
    + exists (t :: body'). repeat split.
      * intros H2. destruct (Hkind _ H2) as [? | [? _]]; lia.
      * exact Hkind.
      * exact Hitems.
      * exact Hclose.
      * now apply separators_close_no_leading.
      * now apply separators_close_no_adjacent.
Qed.

Lemma prune_multi_slot_postcondition map_item_to_sids minsupp_abs e :
  readable_slot e ->
  exists after,
    prune_multi_entry map_item_to_sids minsupp_abs e = Ok after /\
    pruned_multi_slot map_item_to_sids minsupp_abs e after.
Proof.
  destruct e as [[|tok rest]|]; intros He.
  - exists (Some []). split; reflexivity.
  - destruct He as [He | He]; [discriminate|].
    apply (prune_multi_entry_postcondition map_item_to_sids minsupp_abs _ He).
  - exists None. split; reflexivity.
Qed.

Lemma prune_multi_db_postcondition map_item_to_sids minsupp_abs db :
  Forall readable_slot db ->
  exists db',
    prune_db (prune_multi_entry map_item_to_sids minsupp_abs) db = Ok db' /\
    Forall2 (pruned_multi_slot map_item_to_sids minsupp_abs) db db'.
Proof.
  intros Hdb. induction Hdb as [|e db He _ (db' & Hrun & Hall)].
  - exists []. split; [reflexivity | constructor].
  - destruct (prune_multi_slot_postcondition map_item_to_sids minsupp_abs e He)
      as (after & Hent & Hpost).
    exists (after :: db'). split.
    + cbn [prune_db]. now rewrite Hent, Hrun.
    + now constructor.
Qed.

Lemma load_csv_tokens_readable lines : Forall readable_slot (load_csv_tokens lines).
Proof.
  unfold load_csv_tokens. apply Forall_forall. intros e Hin.
  apply in_map_iff in Hin as (toks & <- & _). apply load_line_terminated.
Qed.

(** C5, as stated, fails: an input line that holds commas only is
    loaded as a sequence without tokens, and the pruning pass leaves
    that entry as it is.  After the pass the entry is not [None],
    although no item of it survives, and it is not a token list that
    ends with the terminator.  The run of such an input takes the
    itemset-preserving path and completes. *)
Theorem prune_multi_empty_sequence :
  let lines := [[]; [1; 2; -1; -2]] in
  exists m db',
    load_csv_tokens lines = [Some []; Some [1; 2; -1; -2]] /\
    find_loop (load_csv_tokens lines) 0 ([], false) = Ok (m, true) /\
    prune_db (prune_multi_entry m 1) (load_csv_tokens lines) = Ok db' /\
    get db' 0 = Some (Some []) /\
    surviving_items m 1 [] = [] /\
    Some (@nil Z) <> None /\
    (forall body, @nil Z <> body ++ [-2]) /\
    written (run lines (Finite (1 # 2)) "out.txt" (init 1000 1))
    = Some ([([[1]], 1); ([[1; 2]], 1); ([[2]], 1)], 3).
Proof.
  cbv zeta. eexists. eexists.
  split; [reflexivity|]. split; [reflexivity|]. split; [reflexivity|].
  split; [reflexivity|]. split; [reflexivity|]. split; [discriminate|].
  split; [intros [|t body]; discriminate|]. vm_compute. reflexivity.
Qed.

(** C5, amended.  The pruning pass of
    [_prefixspan_with_multiple_items] never fails on a database whose
    sequences are empty or hold a terminator, as every loaded database
    is.  After it, an entry that held at least one token is either
    [None], exactly when no item of the sequence meets the threshold,
    or a token list made of the kept tokens followed at once by the
    terminator: it holds no item below the threshold, its items are the
    surviving items in order, and every separator comes right after an
    item, so that no separator starts the list, no two separators are
    adjacent and no separator closes an itemset without items.  An
    entry without tokens is left as the empty list, and a removed entry
    stays removed. *)
Theorem prune_multi_postcondition :
  (forall (map_item_to_sids : Py.dict (list Z)) (minsupp_abs : Z) (db : SequenceDatabase),
      Forall readable_slot db ->
      exists db',
        prune_db (prune_multi_entry map_item_to_sids minsupp_abs) db = Ok db' /\
        Forall2 (pruned_multi_slot map_item_to_sids minsupp_abs) db db') /\
  (forall (map_item_to_sids : Py.dict (list Z)) (minsupp_abs : Z) (lines : list (list Z)),
      exists db',
        prune_db (prune_multi_entry map_item_to_sids minsupp_abs) (load_csv_tokens lines)
        = Ok db' /\
        Forall2 (pruned_multi_slot map_item_to_sids minsupp_abs)
          (load_csv_tokens lines) db').
Proof.
  split.
  - intros m ms db Hdb. now apply prune_multi_db_postcondition.
  - intros m ms lines. apply prune_multi_db_postcondition, load_csv_tokens_readable.
Qed.

Lemma prune_multi_postcondition_witness :
  Forall readable_slot
    [Some [1; 2; -1; 1; -1; 2; -2]; Some []; Some [3; -1; 2; 3; -2]; Some [4; -2]; None] /\
  exists db',
    prune_db (prune_multi_entry [(1, [0]); (2, [0; 2]); (3, [2]); (4, [3])] 2)
      [Some [1; 2; -1; 1; -1; 2; -2]; Some []; Some [3; -1; 2; 3; -2]; Some [4; -2]; None]
    = Ok db' /\
    Forall2 (pruned_multi_slot [(1, [0]); (2, [0; 2]); (3, [2]); (4, [3])] 2)
      [Some [1; 2; -1; 1; -1; 2; -2]; Some []; Some [3; -1; 2; 3; -2]; Some [4; -2]; None]
      db'.
Proof.
  assert (H : Forall readable_slot
                [Some [1; 2; -1; 1; -1; 2; -2]; Some []; Some [3; -1; 2; 3; -2];
                 Some [4; -2]; None]).
  { repeat constructor; simpl; tauto. }
  split; [exact H|].
  exact (proj1 prune_multi_postcondition [(1, [0]); (2, [0; 2]); (3, [2]); (4, [3])] 2 _ H).
Defined.

Example prune_multi_example :
  prune_db (prune_multi_entry [(1, [0]); (2, [0; 2]); (3, [2]); (4, [3])] 2)
    [Some [1; 2; -1; 1; -1; 2; -2]; Some []; Some [3; -1; 2; 3; -2]; Some [4; -2]; None]
  = Ok [Some [2; -1; 2; -2]; Some []; Some [2; -2]; None; None].
Proof. reflexivity. Qed.

(** * Reasoning about computations in [M] *)

Lemma bind_Ok {A B : Type} (c : M A) (k : A -> M B) self b self' :
  bind c k self = Ok (b, self') ->
  exists a s1, c self = Ok (a, s1) /\ k a s1 = Ok (b, self').
Proof.
  unfold bind. destruct (c self) as [[a s1]|e]; [|discriminate].
  intros H. now exists a, s1.
Qed.

Lemma bind_Raise {A B : Type} (c : M A) (k : A -> M B) self e :
  bind c k self = Raise e ->
  c self = Raise e \/ exists a s1, c self = Ok (a, s1) /\ k a s1 = Raise e.
Proof.
  unfold bind. destruct (c self) as [[a s1]|e']; [|intros [= ->]; now left].
  intros H. right. now exists a, s1.
Qed.

Lemma lift_Ok {A : Type} (r : result A) self a self' :
  lift r self = Ok (a, self') -> r = Ok a /\ self' = self.
Proof. unfold lift. destruct r; [intros [= -> ->]; auto | discriminate]. Qed.

Lemma gets_Ok {A : Type} (f : PrefixSpan -> A) self a self' :
  gets f self = Ok (a, self') -> a = f self /\ self' = self.
Proof. unfold gets. intros [= <- <-]. auto. Qed.

Lemma ret_Ok {A : Type} (x : A) self a self' :
  ret x self = Ok (a, self') -> a = x /\ self' = self.
Proof. unfold ret. intros [= <- <-]. auto. Qed.

Lemma the_db_Ok self db self' :
  the_db self = Ok (db, self') -> _db self = Some db /\ self' = self.
Proof. unfold the_db. destruct (_db self); [intros [= -> ->]; auto | discriminate]. Qed.

(** Loop invariant rule: [I done acc self] holds after the elements
    [done] have been processed. *)
Lemma for_each_invariant {A S : Type} (I : list A -> S -> PrefixSpan -> Prop)
    (body : A -> S -> M S) :
  forall l done acc self acc' self',
    (forall d x a s a' s',
        I d a s -> body x a s = Ok (a', s') -> I (d ++ [x]) a' s') ->
    I done acc self ->
    for_each l body acc self = Ok (acc', self') ->
    I (done ++ l) acc' self'.
Proof.
  induction l as [|x l IH]; intros done acc self acc' self' Hstep Hinit Hrun.
  - apply ret_Ok in Hrun as [-> ->]. now rewrite app_nil_r.
  - cbn [for_each] in Hrun. apply bind_Ok in Hrun as (a1 & s1 & Hx & Hrest).
    replace (done ++ x :: l) with ((done ++ [x]) ++ l) by now rewrite <- app_assoc.
    eapply IH; eauto.
Qed.

(** * Dictionaries *)

Lemma dict_get_In {V : Type} (m : Py.dict V) k v :
  Py.get m k = Some v -> In (k, v) m.
Proof.
  induction m as [|[k' v'] m IH]; cbn [Py.get]; [discriminate|].
  destruct (Z.eqb_spec k' k) as [-> | N].
  - intros [= ->]. now left.
  - intros H. right. auto.
Qed.

Lemma dict_set_Forall {V : Type} (Q : Z * V -> Prop) (m : Py.dict V) k v :
  Forall Q m -> Q (k, v) -> Forall Q (Py.set m k v).
Proof.
  intros Hm Hq. induction Hm as [|[k' v'] m Hkv Hm IH]; cbn [Py.set].
  - now constructor.
  - destruct (Z.eqb_spec k' k) as [-> | N]; constructor; auto.
Qed.

Lemma dict_get_Forall {V : Type} (Q : Z * V -> Prop) (m : Py.dict V) k v :
  Forall Q m -> Py.get m k = Some v -> Q (k, v).
Proof.
  intros Hm Hg. rewrite Forall_forall in Hm. apply Hm. now apply dict_get_In.
Qed.

(** * The guarded append *)

Section GuardedAppend.

Variable fresh : list PseudoSequence -> Z -> bool.
Variable P : list PseudoSequence -> Prop.
Variable sid : Z.

Hypothesis P_empty : P [].
Hypothesis P_append :
    forall l idx, P l -> fresh l sid = true -> P (l ++ [mkPseudoSequence sid idx]).

Lemma record_pseq_entries m tok idx :
    tok > 0 -> entries P m -> entries P (record_pseq fresh m tok sid idx).
  Proof.
    intros Htok Hm. unfold record_pseq, Py.setdefault.
    destruct (Py.get m tok) as [l|] eqn:G.
    - pose proof (dict_get_Forall _ _ _ _ Hm G) as [_ Hl]. cbn [snd] in Hl.
      destruct (fresh l sid) eqn:F; [|assumption].
      apply dict_set_Forall; [assumption|]. split; [assumption|]. cbn [snd]. auto.
    - assert (Hm' : entries P (Py.set m tok [])).
      { apply dict_set_Forall; [assumption|]. split; assumption. }
      destruct (fresh [] sid) eqn:F; [|assumption].
      apply dict_set_Forall; [assumption|]. split; [assumption|].
      cbn [snd]. apply (P_append [] idx); assumption.
  Qed.

Lemma scan_single_tokens_entries : forall toks i m m',
    entries P m ->
    scan_single_tokens fresh sid toks i m = Ok m' ->
    entries P m'.
  Proof.
    induction toks as [|tok rest IH]; intros i m m' Hm; cbn [scan_single_tokens];
      [discriminate|].
    destruct (tok =? -2); [intros [= <-]; assumption|].
    apply IH. destruct (Z.gtb_spec tok 0); [|assumption].
    apply record_pseq_entries; [lia | assumption].
  Qed.

Lemma multi_token_step_entries fp lbp i tok s self s' self' :
    entries P (map_postfix s) -> entries P (map_normal s) ->
    multi_token_step fresh fp lbp sid i tok s self = Ok (s', self') ->
    entries P (map_postfix s') /\ entries P (map_normal s').
  Proof.
    intros Hp Hn. unfold multi_token_step.
    destruct (Z.gtb_spec tok 0) as [Hpos | Hnpos].
    - assert (Hr : forall m, entries P m -> entries P (record_pseq fresh m tok sid (i + 1)))
        by (intros; apply record_pseq_entries; [lia | assumption]).
      destruct (current_itemset_is_postfix s) eqn:Epost; cbn [current_itemset_is_postfix
        is_first_itemset map_postfix map_normal position_to_match andb negb].
      + destruct (is_first_itemset s); cbn [negb current_itemset_is_postfix map_postfix map_normal];
          intros H; apply ret_Ok in H as [-> _]; cbn [map_postfix map_normal]; auto.
      + intros H. apply bind_Ok in H as (b & s1 & _ & H).
        destruct (b =? tok); apply ret_Ok in H as [-> _]; cbn [map_postfix map_normal]; auto.
    - destruct (tok =? -1); intros H; apply ret_Ok in H as [-> _]; auto.
  Qed.

Lemma scan_multi_tokens_entries fp lbp : forall toks i s self s' self',
    entries P (map_postfix s) -> entries P (map_normal s) ->
    scan_multi_tokens fresh fp lbp sid toks i s self = Ok (s', self') ->
    entries P (map_postfix s') /\ entries P (map_normal s').
  Proof.
    induction toks as [|tok rest IH]; intros i s self s' self' Hp Hn;
      cbn [scan_multi_tokens]; [discriminate|].
    destruct (tok =? -2); [intros H; apply ret_Ok in H as [-> _]; auto|].
    intros H. apply bind_Ok in H as (s1 & self1 & Hstep & Hrest).
    destruct (multi_token_step_entries _ _ _ _ _ _ _ _ Hp Hn Hstep).
    eapply IH; eauto.
  Qed.

End GuardedAppend.

Lemma entries_weaken (P Q : list PseudoSequence -> Prop) m :
  (forall l, P l -> Q l) -> entries P m -> entries Q m.
Proof.
  intros HPQ Hm. eapply Forall_impl; [|exact Hm].
  intros kv [H1 H2]. split; auto.
Qed.

Lemma entries_nil P : entries P [].
Proof. constructor. Qed.

Lemma entries_In P m item pseqs :
  entries P m -> In (item, pseqs) m -> item > 0 /\ P pseqs.
Proof. intros Hm Hin. unfold entries in Hm. rewrite Forall_forall in Hm. apply (Hm _ Hin). Qed.

(** * The last-recorded-id test *)

Lemma getitem_last {A : Type} (l : list A) (p : A) :
  Py.getitem (l ++ [p]) (-1) = Some p.
Proof.
  unfold Py.getitem. cbn [Z.leb Z.compare].
  rewrite length_app. cbn [length].
  destruct (Z.leb_spec (- Z.of_nat (length l + 1)) (-1)); [|lia].
  replace (Z.to_nat (Z.of_nat (length l + 1) + -1)) with (length l) by lia.
  apply nth_error_app_head.
Qed.

Lemma last_id_differs_app l p sid :
  last_id_differs (l ++ [p]) sid = negb (sequence_id p =? sid).
Proof.
  unfold last_id_differs. rewrite getitem_last.
  destruct l; reflexivity.
Qed.

Lemma last_id_differs_false_In l sid :
  last_id_differs l sid = false -> In sid (map sequence_id l).
Proof.
  destruct (rev l) as [|p r] eqn:E.
  - apply (f_equal (@rev _)) in E. rewrite rev_involutive in E. subst. discriminate.
  - apply (f_equal (@rev _)) in E. rewrite rev_involutive in E. cbn [rev] in E. subst l.
    rewrite last_id_differs_app. intros H. apply negb_false_iff, Z.eqb_eq in H.
    rewrite map_app, in_app_iff. right. left. assumption.
Qed.

Lemma mem_In x s : Py.mem x s = true <-> In x s.
Proof.
  unfold Py.mem. rewrite existsb_exists. split.
  - intros (y & Hy & E). apply Z.eqb_eq in E. now subst.
  - intros H. exists x. split; [assumption | apply Z.eqb_refl].
Qed.

Lemma id_not_member_true l sid :
  id_not_member l sid = true <-> ~ In sid (map sequence_id l).
Proof.
  unfold id_not_member. rewrite negb_true_iff, <- mem_In.
  destruct (Py.mem sid (map sequence_id l)); intuition congruence.
Qed.

(** * Candidate lists are no longer than the projected database *)

Lemma at_most_during_append n sid l idx :
  at_most_during n sid l -> last_id_differs l sid = true ->
  at_most_during n sid (l ++ [mkPseudoSequence sid idx]).
Proof.
  intros [H | [_ H]] F; [|congruence].
  right. rewrite length_app, last_id_differs_app. cbn. rewrite Z.eqb_refl.
  split; [lia | reflexivity].
Qed.

Lemma at_most_during_empty n sid : at_most_during n sid [].
Proof. left. cbn. lia. Qed.

Lemma scan_single_at_most db : forall database n m m',
  entries (at_most n) m ->
  scan_single last_id_differs db database m = Ok m' ->
  entries (at_most (n + length database)) m'.
Proof.
  induction database as [|pseq rest IH]; intros n m m' Hm; cbn [scan_single].
  - intros [= <-]. now rewrite Nat.add_0_r.
  - destruct (get_sequence db (sequence_id pseq)) as [seq|]; [|discriminate].
    destruct (scan_single_tokens _ _ _ _ _) as [m1|] eqn:E; [|discriminate].
    intros H. cbn [length]. rewrite <- Nat.add_succ_comm.
    eapply IH; [|exact H].
    eapply entries_weaken;
      [|eapply (scan_single_tokens_entries last_id_differs
                  (at_most_during n (sequence_id pseq))); [| | |exact E]].
    + intros l [Hl | [Hl _]]; unfold at_most; lia.
    + apply at_most_during_empty.
    + intros. now apply at_most_during_append.
    + eapply entries_weaken; [|exact Hm]. intros l Hl. now left.
Qed.

Lemma scan_multi_pseq_at_most fp lbp pseq n maps self maps' self' :
  entries (at_most n) (fst maps) -> entries (at_most n) (snd maps) ->
  scan_multi_pseq last_id_differs fp lbp pseq maps self = Ok (maps', self') ->
  entries (at_most (S n)) (fst maps') /\ entries (at_most (S n)) (snd maps').
Proof.
  intros Hp Hn H. unfold scan_multi_pseq in H.
  apply bind_Ok in H as (db & s1 & _ & H).
  apply bind_Ok in H as (seq & s2 & _ & H).
  apply bind_Ok in H as (prev_tok & s3 & _ & H).
  apply bind_Ok in H as (s & s4 & Hscan & H).
  apply ret_Ok in H as [-> _]. cbn [fst snd].
  apply (scan_multi_tokens_entries last_id_differs
           (at_most_during n (sequence_id pseq))) in Hscan.
  - destruct Hscan as [H1 H2]. split.
    all: eapply entries_weaken; [|eassumption].
    all: intros l [Hl | [Hl _]]; unfold at_most; lia.
  - apply at_most_during_empty.
  - intros. now apply at_most_during_append.
  - cbn [map_postfix]. eapply entries_weaken; [|exact Hp]. intros l Hl. now left.
  - cbn [map_normal]. eapply entries_weaken; [|exact Hn]. intros l Hl. now left.
Qed.

Lemma scan_multi_at_most fp lbp database self maps self' :
  scan_multi last_id_differs fp lbp database self = Ok (maps, self') ->
  entries (at_most (length database)) (fst maps) /\
  entries (at_most (length database)) (snd maps).
Proof.
  intros H. unfold scan_multi in H.
  apply (for_each_invariant
           (fun done acc _ => entries (at_most (length done)) (fst acc) /\
                              entries (at_most (length done)) (snd acc))
           _ database [] _ _ _ _) in H.
  - exact H.
  - intros d x a s a' s' [H1 H2] Hx. rewrite length_app, Nat.add_comm. cbn [length Nat.add].
    eapply scan_multi_pseq_at_most; eauto.
  - cbn. split; apply entries_nil.
Qed.

(** * Candidate lists hold pairwise-distinct sequence ids *)

Lemma distinct_during_empty done sid : distinct_during done sid [].
Proof. repeat split; [constructor | intros x []]. Qed.

Lemma distinct_during_append done sid l idx :
  distinct_during done sid l -> last_id_differs l sid = true ->
  distinct_during done sid (l ++ [mkPseudoSequence sid idx]).
Proof.
  intros (Hnd & Hinc & Hag) F. rewrite Hag in F. apply id_not_member_true in F.
  repeat split.
  - rewrite map_app. cbn [map sequence_id].
    apply NoDup_app; [assumption | repeat constructor; intros [] |].
    intros x Hx [<- | []]. contradiction.
  - rewrite map_app. intros x Hx. apply in_app_iff in Hx as [Hx | [<- | []]];
      [now apply Hinc | now left].
  - rewrite last_id_differs_app. cbn [sequence_id]. rewrite Z.eqb_refl. cbn [negb].
    symmetry. apply not_true_is_false. rewrite id_not_member_true.
    intros H. apply H. rewrite map_app, in_app_iff. right. now left.
Qed.

Lemma distinct_after_during done sid l :
  ~ In sid done -> distinct_after done l -> distinct_during done sid l.
Proof.
  intros Hsid (Hnd & Hinc).
  assert (Hnot : ~ In sid (map sequence_id l)) by (intros H; apply Hsid, Hinc, H).
  repeat split; [assumption | intros x Hx; right; now apply Hinc |].
  apply id_not_member_true in Hnot as ->.
  destruct (last_id_differs l sid) eqn:E; [reflexivity|].
  apply last_id_differs_false_In in E. exfalso. apply Hsid, Hinc, E.
Qed.

Lemma distinct_during_after done sid l :
  distinct_during done sid l -> distinct_after (done ++ [sid]) l.
Proof.
  intros (Hnd & Hinc & _). split; [assumption|].
  intros x Hx. apply Hinc in Hx as [<- | Hx]; apply in_app_iff; [right; now left | now left].
Qed.

(** Under that invariant the two tests guard the same appends. *)
Lemma record_pseq_member done sid m tok idx :
  entries (distinct_during done sid) m ->
  record_pseq last_id_differs m tok sid idx = record_pseq id_not_member m tok sid idx.
Proof.
  intros Hm. unfold record_pseq, Py.setdefault.
  destruct (Py.get m tok) as [l|] eqn:G; [|reflexivity].
  pose proof (dict_get_Forall _ _ _ _ Hm G) as [_ (_ & _ & E)]. cbn [snd] in E.
  now rewrite E.
Qed.

Lemma scan_single_tokens_member done sid : forall toks i m,
  entries (distinct_during done sid) m ->
  scan_single_tokens last_id_differs sid toks i m
  = scan_single_tokens id_not_member sid toks i m.
Proof.
  induction toks as [|tok rest IH]; intros i m Hm; cbn [scan_single_tokens];
    [reflexivity|].
  destruct (tok =? -2); [reflexivity|].
  destruct (Z.gtb_spec tok 0); [|now apply IH].
  rewrite <- (record_pseq_member done sid m tok (i + 1) Hm).
  apply IH. apply record_pseq_entries; [apply distinct_during_empty | | lia | assumption].
  intros. now apply distinct_during_append.
Qed.

Lemma scan_single_distinct db : forall database done m,
  NoDup (done ++ map sequence_id database) ->
  entries (distinct_after done) m ->
  scan_single last_id_differs db database m = scan_single id_not_member db database m /\
  forall m', scan_single last_id_differs db database m = Ok m' ->
             entries (distinct_after (done ++ map sequence_id database)) m'.
Proof.
  induction database as [|pseq rest IH]; intros done m Hnd Hm; cbn [scan_single map].
  - split; [reflexivity|]. intros m' [= <-]. now rewrite app_nil_r.
  - destruct (get_sequence db (sequence_id pseq)) as [seq|]; [|split; [reflexivity | discriminate]].
    cbn [map] in Hnd.
    assert (Hsid : ~ In (sequence_id pseq) done).
    { apply NoDup_remove_2 in Hnd. intros H. apply Hnd, in_app_iff. now left. }
    assert (Hm1 : entries (distinct_during done (sequence_id pseq)) m).
    { eapply entries_weaken; [|exact Hm]. intros l. now apply distinct_after_during. }
    rewrite <- (scan_single_tokens_member done _ _ _ _ Hm1).
    destruct (scan_single_tokens last_id_differs _ _ _ _) as [m1|] eqn:E;
      [|split; [reflexivity | discriminate]].
    replace (done ++ sequence_id pseq :: map sequence_id rest)
      with ((done ++ [sequence_id pseq]) ++ map sequence_id rest) in *
      by now rewrite <- app_assoc.
    apply IH; [assumption|].
    eapply entries_weaken; [intros l; apply distinct_during_after|].
    eapply scan_single_tokens_entries; [| | |exact E]; [apply distinct_during_empty | | exact Hm1].
    intros. now apply distinct_during_append.
Qed.

Lemma multi_token_step_member done sid fp lbp i tok s self :
  entries (distinct_during done sid) (map_postfix s) ->
  entries (distinct_during done sid) (map_normal s) ->
  multi_token_step last_id_differs fp lbp sid i tok s self
  = multi_token_step id_not_member fp lbp sid i tok s self.
Proof.
  intros Hp Hn. unfold multi_token_step.
  destruct (tok >? 0); [|reflexivity].
  destruct (current_itemset_is_postfix s);
    cbn [map_postfix map_normal current_itemset_is_postfix is_first_itemset
         position_to_match];
    rewrite ?(record_pseq_member done sid _ tok (i + 1) Hp),
            ?(record_pseq_member done sid _ tok (i + 1) Hn);
    reflexivity.
Qed.

Lemma scan_multi_tokens_member done sid fp lbp : forall toks i s self,
  entries (distinct_during done sid) (map_postfix s) ->
  entries (distinct_during done sid) (map_normal s) ->
  scan_multi_tokens last_id_differs fp lbp sid toks i s self
  = scan_multi_tokens id_not_member fp lbp sid toks i s self.
Proof.
  induction toks as [|tok rest IH]; intros i s self Hp Hn; cbn [scan_multi_tokens];
    [reflexivity|].
  destruct (tok =? -2); [reflexivity|].
  unfold bind. rewrite <- (multi_token_step_member done sid fp lbp i tok s self Hp Hn).
  destruct (multi_token_step last_id_differs fp lbp sid i tok s self) as [[s1 self1]|] eqn:E;
    [|reflexivity].
  destruct (multi_token_step_entries last_id_differs (distinct_during done sid) sid
              (distinct_during_empty done sid)
              (fun l idx H F => distinct_during_append done sid l idx H F)
              _ _ _ _ _ _ _ _ Hp Hn E).
  now apply IH.
Qed.

Lemma scan_multi_pseq_distinct fp lbp pseq done maps self :
  ~ In (sequence_id pseq) done ->
  entries (distinct_after done) (fst maps) -> entries (distinct_after done) (snd maps) ->
  scan_multi_pseq last_id_differs fp lbp pseq maps self
  = scan_multi_pseq id_not_member fp lbp pseq maps self /\
  forall maps' self',
    scan_multi_pseq last_id_differs fp lbp pseq maps self = Ok (maps', self') ->
    entries (distinct_after (done ++ [sequence_id pseq])) (fst maps') /\
    entries (distinct_after (done ++ [sequence_id pseq])) (snd maps').
Proof.
  intros Hsid Hp Hn.
  assert (Hp1 : entries (distinct_during done (sequence_id pseq)) (fst maps)).
  { eapply entries_weaken; [|exact Hp]. intros l. now apply distinct_after_during. }
  assert (Hn1 : entries (distinct_during done (sequence_id pseq)) (snd maps)).
  { eapply entries_weaken; [|exact Hn]. intros l. now apply distinct_after_during. }
  split.
  - unfold scan_multi_pseq, bind.
    destruct (the_db self) as [[db s1]|]; [|reflexivity].
    destruct (lift (get_sequence db (sequence_id pseq)) s1) as [[seq s2]|]; [|reflexivity].
    destruct (lift _ s2) as [[prev_tok s3]|]; [|reflexivity].
    rewrite (scan_multi_tokens_member done); [reflexivity | exact Hp1 | exact Hn1].
  - intros maps' self' H. unfold scan_multi_pseq in H.
    apply bind_Ok in H as (db & s1 & _ & H).
    apply bind_Ok in H as (seq & s2 & _ & H).
    apply bind_Ok in H as (prev_tok & s3 & _ & H).
    apply bind_Ok in H as (s & s4 & Hscan & H).
    apply ret_Ok in H as [-> _]. cbn [fst snd].
    apply (scan_multi_tokens_entries last_id_differs
             (distinct_during done (sequence_id pseq))) in Hscan.
    + destruct Hscan as [H1 H2].
      split; (eapply entries_weaken; [intros l; apply distinct_during_after | eassumption]).
    + apply distinct_during_empty.
    + intros. now apply distinct_during_append.
    + exact Hp1.
    + exact Hn1.
Qed.

Lemma for_each_scan_multi_distinct fp lbp : forall database done maps self,
  NoDup (done ++ map sequence_id database) ->
  entries (distinct_after done) (fst maps) -> entries (distinct_after done) (snd maps) ->
  for_each database (scan_multi_pseq last_id_differs fp lbp) maps self
  = for_each database (scan_multi_pseq id_not_member fp lbp) maps self /\
  forall maps' self',
    for_each database (scan_multi_pseq last_id_differs fp lbp) maps self = Ok (maps', self') ->
    entries (distinct_after (done ++ map sequence_id database)) (fst maps') /\
    entries (distinct_after (done ++ map sequence_id database)) (snd maps').
Proof.
  induction database as [|pseq rest IH]; intros done maps self Hnd Hp Hn;
    cbn [for_each map].
  - split; [reflexivity|]. intros maps' self' H. apply ret_Ok in H as [-> _].
    now rewrite app_nil_r.
  - cbn [map] in Hnd.
    assert (Hsid : ~ In (sequence_id pseq) done).
    { apply NoDup_remove_2 in Hnd. intros H. apply Hnd, in_app_iff. now left. }
    destruct (scan_multi_pseq_distinct fp lbp pseq done maps self Hsid Hp Hn) as [Heq Hinv].
    unfold bind. rewrite <- Heq.
    destruct (scan_multi_pseq last_id_differs fp lbp pseq maps self) as [[maps1 self1]|] eqn:E;
      [|split; [reflexivity | discriminate]].
    destruct (Hinv _ _ eq_refl) as [H1 H2].
    replace (done ++ sequence_id pseq :: map sequence_id rest)
      with ((done ++ [sequence_id pseq]) ++ map sequence_id rest) in *
      by now rewrite <- app_assoc.
    now apply IH.
Qed.

(** C4. When the projected database passed to [_recursion_single_items]
    or [_recursion_multi] holds pairwise-distinct sequence ids, the
    last-recorded-id test guards exactly the appends that a
    set-membership test would guard, and every candidate list built by
    the scan holds pairwise-distinct sequence ids, all taken from the
    projected database: a sequence counts at most once in a support. *)
Theorem candidate_lists_distinct_ids :
  forall database : list PseudoSequence,
    NoDup (map sequence_id database) ->
    (forall db,
        scan_single last_id_differs db database []
        = scan_single id_not_member db database [] /\
        forall items_to_pseqs item pseqs,
          scan_single last_id_differs db database [] = Ok items_to_pseqs ->
          In (item, pseqs) items_to_pseqs ->
          NoDup (map sequence_id pseqs) /\
          incl (map sequence_id pseqs) (map sequence_id database) /\
          forall sid, (count_occ Z.eq_dec (map sequence_id pseqs) sid <= 1)%nat) /\
    (forall first_pos_last_itemset last_buf_pos self,
        scan_multi last_id_differs first_pos_last_itemset last_buf_pos database self
        = scan_multi id_not_member first_pos_last_itemset last_buf_pos database self /\
        forall maps self' item pseqs,
          scan_multi last_id_differs first_pos_last_itemset last_buf_pos database self
          = Ok (maps, self') ->
          In (item, pseqs) (fst maps) \/ In (item, pseqs) (snd maps) ->
          NoDup (map sequence_id pseqs) /\
          incl (map sequence_id pseqs) (map sequence_id database) /\
          forall sid, (count_occ Z.eq_dec (map sequence_id pseqs) sid <= 1)%nat).
Proof.
  intros database Hnd. split.
  - intros db.
    destruct (scan_single_distinct db database [] [] Hnd (entries_nil _)) as [Heq Hinv].
    split; [exact Heq|].
    intros m item pseqs Hrun Hin.
    destruct (entries_In _ _ _ _ (Hinv _ Hrun) Hin) as [_ [H1 H2]].
    repeat split; [assumption | assumption |].
    now apply NoDup_count_occ.
  - intros fp lbp self.
    destruct (for_each_scan_multi_distinct fp lbp database [] ([], []) self Hnd
                (entries_nil _) (entries_nil _)) as [Heq Hinv].
    split; [exact Heq|].
    intros maps self' item pseqs Hrun Hin.
    destruct (Hinv _ _ Hrun) as [Hp Hn].
    assert (H : distinct_after (map sequence_id database) pseqs).
    { destruct Hin as [Hin | Hin]; eapply entries_In in Hin; eauto; tauto. }
    destruct H as [H1 H2]. repeat split; [assumption | assumption |].
    now apply NoDup_count_occ.
Qed.

Lemma candidate_lists_distinct_ids_witness :
  (forall db,
      scan_single last_id_differs db [mkPseudoSequence 0 1; mkPseudoSequence 1 1] []
      = scan_single id_not_member db [mkPseudoSequence 0 1; mkPseudoSequence 1 1] [] /\
      forall items_to_pseqs item pseqs,
        scan_single last_id_differs db [mkPseudoSequence 0 1; mkPseudoSequence 1 1] []
        = Ok items_to_pseqs ->
        In (item, pseqs) items_to_pseqs ->
        NoDup (map sequence_id pseqs) /\
        incl (map sequence_id pseqs) [0; 1] /\
        forall sid, (count_occ Z.eq_dec (map sequence_id pseqs) sid <= 1)%nat) /\
  (forall first_pos_last_itemset last_buf_pos self,
      scan_multi last_id_differs first_pos_last_itemset last_buf_pos
        [mkPseudoSequence 0 1; mkPseudoSequence 1 1] self
      = scan_multi id_not_member first_pos_last_itemset last_buf_pos
          [mkPseudoSequence 0 1; mkPseudoSequence 1 1] self /\
      forall maps self' item pseqs,
        scan_multi last_id_differs first_pos_last_itemset last_buf_pos
          [mkPseudoSequence 0 1; mkPseudoSequence 1 1] self
        = Ok (maps, self') ->
        In (item, pseqs) (fst maps) \/ In (item, pseqs) (snd maps) ->
        NoDup (map sequence_id pseqs) /\
        incl (map sequence_id pseqs) [0; 1] /\
        forall sid, (count_occ Z.eq_dec (map sequence_id pseqs) sid <= 1)%nat).
Proof.
  apply (candidate_lists_distinct_ids [mkPseudoSequence 0 1; mkPseudoSequence 1 1]).
  simpl. repeat constructor; simpl; intuition lia.
Defined.

(** The scan of a sequence that repeats an item: one entry per sequence. *)
Example scan_single_repeated_item :
  scan_single last_id_differs [Some [1; 2; 2; 2; -2]; Some [1; 2; 3; 2; -2]]
    [mkPseudoSequence 0 1; mkPseudoSequence 1 1] []
  = Ok [(2, [mkPseudoSequence 0 2; mkPseudoSequence 1 2]); (3, [mkPseudoSequence 1 3])].
Proof. reflexivity. Qed.


(** * Rules for [triple] *)


Lemma triple_ret {A : Type} (P : PrefixSpan -> Prop) (a : A) Q E :
  (forall s, P s -> Q a s) -> triple P (ret a) Q E.
Proof. intros H self HP. cbn. auto. Qed.

Lemma triple_bind {A B : Type} (R : A -> PrefixSpan -> Prop) P (c : M A) (k : A -> M B) Q E :
  triple P c R E -> (forall a, triple (R a) (k a) Q E) -> triple P (bind c k) Q E.
Proof.
  intros Hc Hk self HP. unfold bind. specialize (Hc self HP).
  destruct (c self) as [[a s1]|e]; [apply (Hk a s1 Hc) | exact Hc].
Qed.

Lemma triple_weaken {A : Type} (P P' : PrefixSpan -> Prop) (c : M A)
    (Q Q' : A -> PrefixSpan -> Prop) (E E' : error -> Prop) :
  triple P c Q E ->
  (forall s, P' s -> P s) -> (forall a s, Q a s -> Q' a s) -> (forall e, E e -> E' e) ->
  triple P' c Q' E'.
Proof.
  intros H HP HQ HE self HP'. specialize (H self (HP _ HP')).
  destruct (c self) as [[a s1]|e]; auto.
Qed.

Lemma triple_pre {A : Type} (P P' : PrefixSpan -> Prop) (c : M A) Q E :
  (forall s, P' s -> P s) -> triple P c Q E -> triple P' c Q E.
Proof. intros HP H. eapply triple_weaken; eauto. Qed.

Lemma triple_pure {A : Type} (F : Prop) (P : PrefixSpan -> Prop) (c : M A) Q E :
  (F -> triple P c Q E) -> triple (fun s => F /\ P s) c Q E.
Proof. intros H self [HF HP]. now apply H. Qed.

Lemma triple_gets {A : Type} (f : PrefixSpan -> A) P E :
  triple P (gets f) (fun a s => a = f s /\ P s) E.
Proof. intros self HP. cbn. auto. Qed.

Lemma triple_lift {A : Type} (r : result A) P (E : error -> Prop) :
  (forall e, r = Raise e -> E e) ->
  triple P (lift r) (fun a s => r = Ok a /\ P s) E.
Proof. intros HE self HP. unfold lift. destruct r; auto. Qed.

Lemma triple_the_db P (E : error -> Prop) :
  E TypeError ->
  triple P the_db (fun db s => _db s = Some db /\ P s) E.
Proof. intros HE self HP. unfold the_db. destruct (_db self) eqn:D; cbn; auto. Qed.

Lemma triple_for_each {A S : Type} (I : list A -> S -> PrefixSpan -> Prop)
    (body : A -> S -> M S) (E : error -> Prop) (l : list A) :
  (forall done x rest acc, l = done ++ x :: rest ->
     triple (I done acc) (body x acc) (fun acc' => I (done ++ [x]) acc') E) ->
  forall acc, triple (I [] acc) (for_each l body acc) (fun acc' => I l acc') E.
Proof.
  intros Hbody.
  assert (G : forall l2 done acc, l = done ++ l2 ->
              triple (I done acc) (for_each l2 body acc) (fun acc' => I l acc') E).
  { induction l2 as [|x l2 IH]; intros done acc El.
    - rewrite app_nil_r in El. subst done. apply triple_ret. auto.
    - cbn [for_each]. eapply triple_bind; [apply (Hbody done x l2 acc El)|].
      intros acc'. apply IH. now rewrite <- app_assoc. }
  intros acc. now apply G.
Qed.

(** * Records written by the search *)

Lemma same_config_refl s : same_config s s.
Proof. repeat split. Qed.

Lemma same_config_trans s0 s1 s2 :
  same_config s0 s1 -> same_config s1 s2 -> same_config s0 s2.
Proof. unfold same_config. intuition congruence. Qed.

Lemma grows_refl s ok : grows s ok s.
Proof.
  split; [apply same_config_refl|]. exists []. rewrite app_nil_r. cbn.
  repeat split; [lia | constructor].
Qed.

Lemma grows_log s0 ok a s : grows s0 ok s -> grows s0 ok (log a s).
Proof. intros H. exact H. Qed.

Lemma grows_store s0 ok b s : grows s0 ok s -> grows s0 ok (store b s).
Proof. intros H. exact H. Qed.

Lemma grows_record s0 (ok : pattern_record -> Prop) r s :
  ok r -> grows s0 ok s -> grows s0 ok (with_record r s).
Proof.
  intros Hr (Hc & new & Hw & Hn & Hok). split; [exact Hc|].
  exists (new ++ [r]). cbn [with_record _writer pattern_count].
  rewrite Hw, Hn, length_app, <- app_assoc. cbn [length].
  repeat split; [lia|]. apply Forall_app. split; [assumption | now constructor].
Qed.

Lemma grows_weaken s0 (ok ok' : pattern_record -> Prop) s :
  (forall r, ok r -> ok' r) -> grows s0 ok s -> grows s0 ok' s.
Proof.
  intros H (Hc & new & Hw & Hn & Hok). split; [exact Hc|].
  exists new. repeat split; auto. eapply Forall_impl; eauto.
Qed.

Lemma triple_buf_read_grows s0 ok i :
  triple (grows s0 ok) (buf_read i) (fun _ => grows s0 ok) any_error.
Proof.
  intros self HP. unfold buf_read. destruct (Py.getitem _ _); [exact HP | exact I].
Qed.

Lemma triple_buf_write_grows s0 ok i v :
  triple (grows s0 ok) (buf_write i v) (fun _ => grows s0 ok) any_error.
Proof.
  intros self HP. unfold buf_write. destruct (Py.setitem _ _ _); [exact HP | exact I].
Qed.

Lemma triple_read_loop_grows {S : Type} s0 ok n (f : Z -> S -> S) acc :
  triple (grows s0 ok) (read_loop n f acc) (fun _ => grows s0 ok) any_error.
Proof.
  apply (triple_for_each (fun _ _ => grows s0 ok)).
  intros done x rest a _. eapply triple_bind; [apply triple_buf_read_grows|].
  intros tok. apply triple_ret. auto.
Qed.

Lemma triple_write_pattern_tokens_grows s0 (ok : pattern_record -> Prop) e pseqs :
  (forall pattern, ok (pattern, Py.len pseqs)) ->
  triple (grows s0 ok) (_write_pattern_tokens e pseqs) (fun _ => grows s0 ok) any_error.
Proof.
  intros Hok. unfold _write_pattern_tokens.
  eapply triple_bind; [apply triple_read_loop_grows|]. intros length.
  eapply triple_bind; [apply triple_gets|]. intros minlen.
  destruct (length <? minlen).
  - apply triple_ret. tauto.
  - eapply triple_bind.
    + eapply triple_pre; [|apply (triple_read_loop_grows s0 ok)]. cbn. tauto.
    + intros acc self HP. cbn. apply grows_record; auto.
Qed.

Lemma triple_write_single_grows s0 (ok : pattern_record -> Prop) item sup :
  ok ([[item]], sup) ->
  triple (grows s0 ok) (_write_single item sup) (fun _ => grows s0 ok) any_error.
Proof.
  intros Hok. unfold _write_single.
  eapply triple_bind; [apply triple_gets|]. intros minlen.
  destruct (minlen >? 1).
  - apply triple_ret. tauto.
  - intros self [_ HP]. cbn. apply grows_record; auto.
Qed.

(** Every record written by a call of [_recursion_single_items] has a
    support that is at most the length of the projected database. *)
Lemma recursion_single_grows (ok : pattern_record -> Prop) s0 :
  forall fuel database k last_buf_pos,
    (forall pattern sup, sup <= Py.len database -> ok (pattern, sup)) ->
    triple (grows s0 ok) (_recursion_single_items fuel database k last_buf_pos)
      (fun _ => grows s0 ok) any_error.
Proof.
  induction fuel as [|fuel IH]; intros database k p Hok; cbn [_recursion_single_items].
  - intros self _. exact I.
  - eapply triple_bind; [apply triple_the_db; exact I|]. intros db.
    eapply triple_bind; [apply triple_lift; intros; exact I|]. intros m.
    apply triple_pure. intros Hscan.
    apply (scan_single_at_most db database 0 [] m (entries_nil _)) in Hscan.
    cbn [Nat.add] in Hscan.
    eapply triple_pre; [|apply (triple_for_each (fun _ _ => grows s0 ok))]; [cbn; tauto|].
    intros done [item pseqs] rest [] Hm.
    assert (Hlen : Py.len pseqs <= Py.len database).
    { assert (Hin : In (item, pseqs) m) by (rewrite Hm; apply in_elt).
      destruct (entries_In _ _ _ _ Hscan Hin) as [_ H]. unfold at_most, Py.len in *. lia. }
    eapply triple_bind; [apply triple_gets|]. intros minsupp.
    destruct (Py.len pseqs >=? minsupp); [|apply triple_ret; tauto].
    eapply triple_bind.
    { eapply triple_pre; [|apply (triple_buf_write_grows s0 ok)]. cbn. tauto. }
    intros []. eapply triple_bind; [apply triple_buf_write_grows|]. intros [].
    eapply triple_bind; [apply triple_write_pattern_tokens_grows; auto|]. intros [].
    eapply triple_bind; [apply triple_gets|]. intros maxlen.
    destruct (k <? maxlen).
    + eapply triple_pre; [|apply IH]; [cbn; tauto|].
      intros. apply Hok. lia.
    + apply triple_ret. tauto.
Qed.

(** * Computations that only read the buffer *)


Lemma triple_conj {A : Type} P (c : M A) Q1 Q2 (E1 E2 : error -> Prop) :
  triple P c Q1 E1 -> triple P c Q2 E2 ->
  triple P c (fun a s => Q1 a s /\ Q2 a s) (fun e => E1 e /\ E2 e).
Proof.
  intros H1 H2 self HP. specialize (H1 self HP). specialize (H2 self HP).
  destruct (c self) as [[a s1]|e]; auto.
Qed.

Lemma triple_of_Ok {A : Type} (c : M A) (Q : A -> PrefixSpan -> Prop) :
  (forall self a self', c self = Ok (a, self') -> Q a self') ->
  triple (fun _ => True) c Q any_error.
Proof. intros H self _. destruct (c self) as [[a s1]|e] eqn:E; [eauto | exact I]. Qed.

Section ReadOnly.

Variable P : PrefixSpan -> Prop.
Hypothesis P_log : log_invariant P.

Lemma triple_buf_read_inv i : triple P (buf_read i) (fun _ => P) any_error.
  Proof.
    intros self HP. unfold buf_read. destruct (Py.getitem _ _); [now apply P_log | exact I].
  Qed.

Lemma triple_find_first_pos_inv : forall n pos,
    triple P (find_first_pos n pos) (fun _ => P) any_error.
  Proof.
    induction n as [|n IH]; intros pos; cbn [find_first_pos].
    - apply triple_ret. auto.
    - destruct (pos >? 0); [|apply triple_ret; auto].
      eapply triple_bind; [apply triple_buf_read_inv|]. intros b.
      destruct (negb (b =? -1)); [apply IH | apply triple_ret; auto].
  Qed.

Lemma triple_multi_token_step_inv fresh fp lbp sid i tok s :
    triple P (multi_token_step fresh fp lbp sid i tok s) (fun _ => P) any_error.
  Proof.
    unfold multi_token_step.
    destruct (tok >? 0).
    - match goal with |- context [if negb ?b then _ else _] => destruct (negb b) end.
      + eapply triple_bind; [apply triple_buf_read_inv|]. intros b.
        destruct (b =? tok); apply triple_ret; auto.
      + apply triple_ret; auto.
    - destruct (tok =? -1); apply triple_ret; auto.
  Qed.

Lemma triple_scan_multi_tokens_inv fresh fp lbp sid : forall toks i s,
    triple P (scan_multi_tokens fresh fp lbp sid toks i s) (fun _ => P) any_error.
  Proof.
    induction toks as [|tok rest IH]; intros i s; cbn [scan_multi_tokens].
    - intros self _. exact I.
    - destruct (tok =? -2); [apply triple_ret; auto|].
      eapply triple_bind; [apply triple_multi_token_step_inv|]. intros s'. apply IH.
  Qed.

Lemma triple_scan_multi_inv fresh fp lbp database :
    triple P (scan_multi fresh fp lbp database) (fun _ => P) any_error.
  Proof.
    unfold scan_multi.
    apply (triple_for_each (fun _ _ => P)).
    intros done pseq rest maps _. unfold scan_multi_pseq.
    eapply triple_bind; [apply triple_the_db; exact I|]. intros db.
    eapply triple_bind; [apply triple_lift; intros; exact I|]. intros seq.
    eapply triple_bind; [apply triple_lift; intros; exact I|]. intros prev_tok.
    eapply triple_bind.
    - eapply triple_pre; [|apply triple_scan_multi_tokens_inv]. cbn. tauto.
    - intros s. apply triple_ret. auto.
  Qed.

End ReadOnly.

Lemma grows_log_invariant s0 ok : log_invariant (grows s0 ok).
Proof. intros a s H. exact H. Qed.

Lemma triple_scan_multi_grows s0 ok fp lbp database :
  triple (grows s0 ok) (scan_multi last_id_differs fp lbp database)
    (fun maps s => grows s0 ok s /\
                   entries (at_most (length database)) (fst maps) /\
                   entries (at_most (length database)) (snd maps))
    any_error.
Proof.
  intros self HP.
  pose proof (triple_scan_multi_inv _ (grows_log_invariant s0 ok) last_id_differs
                fp lbp database self HP) as H.
  destruct (scan_multi last_id_differs fp lbp database self) as [[maps s1]|] eqn:E;
    [|exact I].
  split; [assumption|]. eapply scan_multi_at_most; eauto.
Qed.

(** The same for [_recursion_multi], for both kinds of extension. *)
Lemma recursion_multi_grows (ok : pattern_record -> Prop) s0 :
  forall fuel database k last_buf_pos,
    (forall pattern sup, sup <= Py.len database -> ok (pattern, sup)) ->
    triple (grows s0 ok) (_recursion_multi fuel database k last_buf_pos)
      (fun _ => grows s0 ok) any_error.
Proof.
  induction fuel as [|fuel IH]; intros database k p Hok; cbn [_recursion_multi].
  - intros self _. exact I.
  - eapply triple_bind;
      [apply triple_find_first_pos_inv, grows_log_invariant|]. intros fp.
    eapply triple_bind; [apply triple_scan_multi_grows|]. intros maps.
    eapply triple_pre with (P := fun s => (entries (at_most (length database)) (fst maps) /\
                                 entries (at_most (length database)) (snd maps)) /\
                                grows s0 ok s); [cbn; tauto|].
    apply triple_pure. intros [Hp Hn].
    assert (Hlen : forall m done item pseqs rest,
               entries (at_most (length database)) m ->
               m = done ++ (item, pseqs) :: rest -> Py.len pseqs <= Py.len database).
    { intros m done item pseqs rest Hm Em.
      assert (Hin : In (item, pseqs) m) by (rewrite Em; apply in_elt).
      destruct (entries_In _ _ _ _ Hm Hin) as [_ H]. unfold at_most, Py.len in *. lia. }
    eapply triple_bind.
    + apply (triple_for_each (fun _ _ => grows s0 ok)).
      intros done [item pseqs] rest [] Em.
      pose proof (Hlen _ _ _ _ _ Hp Em).
      eapply triple_bind; [apply triple_gets|]. intros minsupp.
      destruct (Py.len pseqs >=? minsupp); [|apply triple_ret; tauto].
      cbv zeta.
      eapply triple_bind.
      { eapply triple_pre; [|apply (triple_buf_write_grows s0 ok)]. cbn. tauto. }
      intros []. eapply triple_bind; [apply triple_write_pattern_tokens_grows; auto|].
      intros []. eapply triple_bind; [apply triple_gets|]. intros maxlen.
      destruct (k <? maxlen).
      * eapply triple_pre; [|apply IH]; [cbn; tauto|].
        intros. apply Hok. lia.
      * apply triple_ret. tauto.
    + intros [].
      apply (triple_for_each (fun _ _ => grows s0 ok)).
      intros done [item pseqs] rest [] Em.
      pose proof (Hlen _ _ _ _ _ Hn Em).
      eapply triple_bind; [apply triple_gets|]. intros minsupp.
      destruct (Py.len pseqs >=? minsupp); [|apply triple_ret; tauto].
      cbv zeta.
      eapply triple_bind.
      { eapply triple_pre; [|apply (triple_buf_write_grows s0 ok)]. cbn. tauto. }
      intros []. eapply triple_bind; [apply triple_buf_write_grows|].
      intros []. eapply triple_bind; [apply triple_write_pattern_tokens_grows; auto|].
      intros []. eapply triple_bind; [apply triple_gets|]. intros maxlen.
      destruct (k <? maxlen).
      * eapply triple_pre; [|apply IH]; [cbn; tauto|].
        intros. apply Hok. lia.
      * apply triple_ret. tauto.
Qed.

(** * The drivers *)

Lemma build_projected_length first_projection db : forall sids proj proj',
  build_projected first_projection db sids proj = Ok proj' ->
  (length proj' <= length proj + length sids)%nat.
Proof.
  induction sids as [|sid rest IH]; intros proj proj'; cbn [build_projected length].
  - intros [= <-]. lia.
  - destruct (get db sid) as [[seq|]|]; [| |discriminate].
    + destruct (first_projection seq 0) as [[idx|]|]; [| |discriminate]; intros H;
        apply IH in H; rewrite ?length_app in H; cbn [length] in H; lia.
    + intros H. apply IH in H. lia.
Qed.

Lemma triple_state_unchanged {A : Type} (c : M A) (P : PrefixSpan -> Prop) :
  (forall self a self', c self = Ok (a, self') -> self' = self) ->
  triple P c (fun _ => P) any_error.
Proof.
  intros H self HP. destruct (c self) as [[a s1]|] eqn:E; [|exact I].
  now rewrite (H _ _ _ E).
Qed.

Lemma build_projected_state sids first_projection self proj self' :
  (db <- the_db ;; lift (build_projected first_projection db sids [])) self
  = Ok (proj, self') ->
  self' = self /\
  exists db, _db self = Some db /\ build_projected first_projection db sids [] = Ok proj.
Proof.
  intros H. apply bind_Ok in H as (db & s1 & Hdb & H).
  apply the_db_Ok in Hdb as [Hdb ->]. apply lift_Ok in H as [H ->].
  split; [reflexivity|]. now exists db.
Qed.

Section GrowFrequentItems.

Variable build : Z -> list Z -> M (list PseudoSequence).
Variable recursion : list PseudoSequence -> Z -> Z -> M unit.
Variable s0 : PrefixSpan.
Variable ok : pattern_record -> Prop.

Hypothesis ok_all : forall r, ok r.
Hypothesis build_unchanged :
    forall item sids self proj self', build item sids self = Ok (proj, self') -> self' = self.
Hypothesis recursion_grows :
    forall database k p,
      triple (grows s0 ok) (recursion database k p) (fun _ => grows s0 ok) any_error.

Lemma grow_frequent_items_grows map_item_to_sids :
    triple (grows s0 ok) (grow_frequent_items build recursion map_item_to_sids)
      (fun _ => grows s0 ok) any_error.
  Proof.
    unfold grow_frequent_items.
    apply (triple_for_each (fun _ _ => grows s0 ok)).
    intros done [item sids] rest [] _.
    eapply triple_bind; [apply triple_gets|]. intros minsupp.
    destruct (Py.len sids >=? minsupp); [|apply triple_ret; tauto].
    eapply triple_bind.
    { eapply triple_pre; [|apply (triple_write_single_grows s0 ok)]; [cbn; tauto | auto]. }
    intros []. eapply triple_bind; [apply triple_gets|]. intros maxlen.
    destruct (maxlen >? 1); [|apply triple_ret; tauto].
    eapply triple_bind.
    { eapply triple_pre; [|apply (triple_buf_write_grows s0 ok)]. cbn. tauto. }
    intros []. eapply triple_bind.
    { apply triple_state_unchanged. apply build_unchanged. }
    intros projected. apply recursion_grows.
  Qed.

End GrowFrequentItems.

Lemma build_single_unchanged item sids self proj self' :
  _build_projected_single_items item sids self = Ok (proj, self') -> self' = self.
Proof. intros H. now apply build_projected_state in H as [-> _]. Qed.

Lemma build_multi_unchanged item sids self proj self' :
  _build_projected_first_time_multi item sids self = Ok (proj, self') -> self' = self.
Proof. intros H. now apply build_projected_state in H as [-> _]. Qed.


(** What a completed run leaves in the object. *)
Lemma run_with_fuel_Ok fuel lines minsup_relative output_file self self' :
  run_with_fuel fuel lines minsup_relative output_file self = Ok (tt, self') ->
  max_len self' = max_len self /\
  min_len self' = min_len self /\
  minsupp_abs_of minsup_relative (size (load_csv_tokens lines))
  = Ok (_minsupp_abs self') /\
  pattern_count self' = Py.len (_writer self') /\
  _db self' = None.
Proof.
  unfold run_with_fuel. destruct output_file as [|c output_file]; [discriminate|].
  intros H. apply bind_Ok in H as ([] & s1 & Hstart & H).
  apply bind_Ok in H as ([] & s2 & Hrun & H).
  injection H as <-. unfold start_run in Hstart.
  destruct (minsupp_abs_of minsup_relative (size (load_csv_tokens lines)))
    as [ms0|] eqn:Ems; [|discriminate].
  injection Hstart as <-.
  unfold _prefixspan in Hrun.
  apply bind_Ok in Hrun as ([] & s3 & Hopen & Hrun). injection Hopen as <-.
  apply bind_Ok in Hrun as (m & s4 & Hfind & Hrun).
  unfold _find_sequences_containing_items in Hfind.
  apply bind_Ok in Hfind as ([] & s5 & Hf1 & Hfind). injection Hf1 as <-.
  apply bind_Ok in Hfind as (db & s6 & Hdb & Hfind). apply the_db_Ok in Hdb as [Hdb ->].
  apply bind_Ok in Hfind as (r & s7 & Hloop & Hfind). apply lift_Ok in Hloop as [Hloop ->].
  apply bind_Ok in Hfind as ([] & s8 & Hf2 & Hfind). injection Hf2 as <-.
  apply ret_Ok in Hfind as [-> ->].
  apply bind_Ok in Hrun as (flag & s9 & Hflag & Hrun). apply gets_Ok in Hflag as [-> ->].
  set (sA := with_flag (snd r) _) in *.
  assert (G : exists db', grows (with_db (Some db') sA) any_record s2).
  { destruct (_contains_itemsets_with_multiple_items sA).
    - unfold _prefixspan_with_multiple_items in Hrun.
      apply bind_Ok in Hrun as (db0 & t1 & Hd & Hrun). apply the_db_Ok in Hd as [_ ->].
      apply bind_Ok in Hrun as (ms & t2 & Hg & Hrun). apply gets_Ok in Hg as [-> ->].
      apply bind_Ok in Hrun as (db' & t3 & Hp & Hrun). apply lift_Ok in Hp as [_ ->].
      apply bind_Ok in Hrun as ([] & t4 & Hs & Hrun). injection Hs as <-.
      exists db'.
      pose proof (grow_frequent_items_grows _build_projected_first_time_multi
                    (_recursion_multi fuel) (with_db (Some db') sA) any_record
                    (fun _ => I) build_multi_unchanged
                    (fun database k p =>
                       recursion_multi_grows any_record _ fuel database k p (fun _ _ _ => I))
                    (fst r) _ (grows_refl _ _)) as G.
      now rewrite Hrun in G.
    - unfold _prefixspan_with_single_items in Hrun.
      apply bind_Ok in Hrun as (db0 & t1 & Hd & Hrun). apply the_db_Ok in Hd as [_ ->].
      apply bind_Ok in Hrun as (ms & t2 & Hg & Hrun). apply gets_Ok in Hg as [-> ->].
      apply bind_Ok in Hrun as (db' & t3 & Hp & Hrun). apply lift_Ok in Hp as [_ ->].
      apply bind_Ok in Hrun as ([] & t4 & Hs & Hrun). injection Hs as <-.
      exists db'.
      pose proof (grow_frequent_items_grows _build_projected_single_items
                    (_recursion_single_items fuel) (with_db (Some db') sA) any_record
                    (fun _ => I) build_single_unchanged
                    (fun database k p =>
                       recursion_single_grows any_record _ fuel database k p (fun _ _ _ => I))
                    (fst r) _ (grows_refl _ _)) as G.
      now rewrite Hrun in G. }
  destruct G as (db' & (Hml & Hmin & Hms & _) & new & Hw & Hn & _).
  cbn in *. rewrite Hml, Hmin, Hms, Hn, Hw. unfold Py.len. repeat split.
Qed.

Lemma grows_new_records s0 ok s :
  grows s0 ok s -> exists new, _writer s = _writer s0 ++ new /\ Forall ok new.
Proof. intros (_ & new & Hw & _ & Hok). now exists new. Qed.

(** C3. Anti-monotonicity.  Every candidate list built by the scan of
    [_recursion_single_items] or of [_recursion_multi] is at most as
    long as the projected database; hence every record written during a
    call on the projected database of a pattern, for an extension of that
    pattern in either growth path, has a support that is at most the
    length of that database, which is the support recorded for the
    pattern; and the first projected database of a frequent item is at
    most as long as the item's list of sequence ids. *)
Theorem support_anti_monotone :
  (forall db database items_to_pseqs item pseqs,
      scan_single last_id_differs db database [] = Ok items_to_pseqs ->
      In (item, pseqs) items_to_pseqs ->
      Py.len pseqs <= Py.len database) /\
  (forall first_pos_last_itemset last_buf_pos database self maps self' item pseqs,
      scan_multi last_id_differs first_pos_last_itemset last_buf_pos database self
      = Ok (maps, self') ->
      In (item, pseqs) (fst maps) \/ In (item, pseqs) (snd maps) ->
      Py.len pseqs <= Py.len database) /\
  (forall fuel database k last_buf_pos self self',
      _recursion_single_items fuel database k last_buf_pos self = Ok (tt, self') ->
      exists new,
        _writer self' = _writer self ++ new /\
        Forall (fun r => snd r <= Py.len database) new) /\
  (forall fuel database k last_buf_pos self self',
      _recursion_multi fuel database k last_buf_pos self = Ok (tt, self') ->
      exists new,
        _writer self' = _writer self ++ new /\
        Forall (fun r => snd r <= Py.len database) new) /\
  (forall first_projection db sids projected,
      build_projected first_projection db sids [] = Ok projected ->
      Py.len projected <= Py.len sids).
Proof.
  repeat split.
  - intros db database m item pseqs Hscan Hin.
    apply (scan_single_at_most db database 0 [] m (entries_nil _)) in Hscan.
    destruct (entries_In _ _ _ _ Hscan Hin) as [_ H].
    unfold at_most, Py.len in *. cbn in H. lia.
  - intros fp lbp database self maps self' item pseqs Hscan Hin.
    apply scan_multi_at_most in Hscan as [Hp Hn].
    assert (H : at_most (length database) pseqs).
    { destruct Hin as [Hin | Hin]; eapply entries_In in Hin; eauto; tauto. }
    unfold at_most, Py.len in *. lia.
  - intros fuel database k p self self' Hrun.
    pose proof (recursion_single_grows (fun r => snd r <= Py.len database) self
                  fuel database k p (fun _ _ H => H) self (grows_refl _ _)) as G.
    rewrite Hrun in G. now apply grows_new_records in G.
  - intros fuel database k p self self' Hrun.
    pose proof (recursion_multi_grows (fun r => snd r <= Py.len database) self
                  fuel database k p (fun _ _ H => H) self (grows_refl _ _)) as G.
    rewrite Hrun in G. now apply grows_new_records in G.
  - intros fp db sids projected H. apply build_projected_length in H.
    unfold Py.len. cbn in H. lia.
Qed.

Lemma support_anti_monotone_witness :
  (scan_single last_id_differs [Some [1; 2; 2; 3; -2]; Some [1; 3; 2; -2]]
     [mkPseudoSequence 0 1; mkPseudoSequence 1 1] []
   = Ok [(2, [mkPseudoSequence 0 2; mkPseudoSequence 1 3]);
         (3, [mkPseudoSequence 0 4; mkPseudoSequence 1 2])] /\
   In (2, [mkPseudoSequence 0 2; mkPseudoSequence 1 3])
      [(2, [mkPseudoSequence 0 2; mkPseudoSequence 1 3]);
       (3, [mkPseudoSequence 0 4; mkPseudoSequence 1 2])]) /\
  Py.len [mkPseudoSequence 0 2; mkPseudoSequence 1 3]
  <= Py.len [mkPseudoSequence 0 1; mkPseudoSequence 1 1].
Proof.
  assert (H : scan_single last_id_differs [Some [1; 2; 2; 3; -2]; Some [1; 3; 2; -2]]
                [mkPseudoSequence 0 1; mkPseudoSequence 1 1] []
              = Ok [(2, [mkPseudoSequence 0 2; mkPseudoSequence 1 3]);
                    (3, [mkPseudoSequence 0 4; mkPseudoSequence 1 2])] /\
              In (2, [mkPseudoSequence 0 2; mkPseudoSequence 1 3])
                 [(2, [mkPseudoSequence 0 2; mkPseudoSequence 1 3]);
                  (3, [mkPseudoSequence 0 4; mkPseudoSequence 1 2])]).
  { split; [reflexivity | simpl; auto]. }
  split; [exact H|].
  exact (proj1 support_anti_monotone _ _ _ _ _ (proj1 H) (proj2 H)).
Defined.

Lemma size_load_csv_tokens lines : size (load_csv_tokens lines) = Py.len lines.
Proof. unfold size, load_csv_tokens, Py.len. now rewrite length_map. Qed.

(** The float nearest to 0.1 and the float nearest to 0.07. *)
Example round64_tenth :
  round64 (1 # 10) = Finite (3602879701896397 # 36028797018963968).
Proof. vm_compute. reflexivity. Qed.

Example round64_seven_hundredths :
  round64 (7 # 100) = Finite (1261007895663739 # 18014398509481984).
Proof. vm_compute. reflexivity. Qed.

(** C6, as stated, fails, whether [s] is read as the decimal number
    that the caller writes or as the float that the code receives.  For
    0.1, whose float is a little more than 1/10, and ten sequences the
    product of the floats is rounded to 1 and the run uses the
    threshold 1: it writes the ten items of support 1, while
    [max(1, ceil(s * N))] is 2 at the value of the float.  For 0.07 and
    a hundred sequences the product of the floats is
    7.000000000000001 and the run uses the threshold 8: it does not
    write the item of support 7, while [max(1, ceil(0.07 * 100))] is
    7. *)
Theorem absolute_threshold_counterexample :
  (let s := (3602879701896397 # 36028797018963968)%Q in
   let lines := map (fun item => [item + 1; -1; -2]) (Py.range 10) in
   round64 (1 # 10) = Finite s /\ (0 <= s <= 1)%Q /\ Py.len lines = 10 /\
   float_mul (Finite s) (Finite 10) = Finite 1 /\
   (exists self',
       run lines (Finite s) "out.txt" (init 1000 1) = Ok (tt, self') /\
       _minsupp_abs self' = 1 /\ pattern_count self' = 10 /\
       Forall (fun r => snd r = 1) (_writer self')) /\
   Z.max 1 (Qceiling (s * inject_Z (Py.len lines))) = 2) /\
  (let s := (1261007895663739 # 18014398509481984)%Q in
   let lines := repeat [1; -1; -2] 7 ++ repeat [2; -1; -2] 93 in
   round64 (7 # 100) = Finite s /\ (0 <= s <= 1)%Q /\ Py.len lines = 100 /\
   float_mul (Finite s) (Finite 100)
   = Finite (7881299347898369 # 1125899906842624) /\
   (exists self',
       run lines (Finite s) "out.txt" (init 1000 1) = Ok (tt, self') /\
       _minsupp_abs self' = 8 /\ _writer self' = [([[2]], 93)]) /\
   Z.max 1 (Qceiling ((7 # 100) * inject_Z (Py.len lines))) = 7).
Proof.
  split; cbv zeta.
  - split; [vm_compute; reflexivity|]. split; [split; discriminate|].
    split; [reflexivity|]. split; [vm_compute; reflexivity|].
    split; [|vm_compute; reflexivity].
    eexists. split; [vm_compute; reflexivity|].
    split; [reflexivity|]. split; [reflexivity|]. repeat constructor.
  - split; [vm_compute; reflexivity|]. split; [split; discriminate|].
    split; [reflexivity|]. split; [vm_compute; reflexivity|].
    split; [|vm_compute; reflexivity].
    eexists. split; [vm_compute; reflexivity|].
    split; reflexivity.
Qed.

(** C6, amended.  For a relative support [s] between 0 and 1 and [N]
    loaded sequences ([N] at most [2 ^ 53], as for every list that a
    machine holds) the count is converted to a float exactly, the
    product [p] of the two floats is finite, and the absolute minimum
    support is [max(1, ceil(p))]: this is the value that the object
    holds when the search starts and still holds when the run
    completes.  Since [p] is the exact product [s * N] rounded to a
    binary64 number, the threshold is [max(1, ceil(s * N))] or one
    less; it is [max(1, ceil(s * N))] when the product is exact, and it
    is one less only when the product is rounded down to the integer
    [ceil(s * N) - 1]. *)
Theorem absolute_threshold :
  forall (fuel : nat) (lines : list (list Z)) (s : Q) (output_file : string)
         (self self' : PrefixSpan),
    (0 <= s <= 1)%Q -> Py.len lines <= 2 ^ 53 ->
    run_with_fuel fuel lines (Finite s) output_file self = Ok (tt, self') ->
    exists p : Q,
      float_of_int (size (load_csv_tokens lines)) = Ok (Finite (inject_Z (Py.len lines))) /\
      float_mul (Finite s) (Finite (inject_Z (Py.len lines))) = Finite p /\
      minsupp_abs_of (Finite s) (size (load_csv_tokens lines))
      = Ok (Z.max 1 (Qceiling p)) /\
      start_run (load_csv_tokens lines) (Finite s) self
      = Ok (tt, started (load_csv_tokens lines) (Z.max 1 (Qceiling p)) self) /\
      _minsupp_abs self' = Z.max 1 (Qceiling p) /\
      Z.max 1 (Qceiling (s * inject_Z (Py.len lines))) - 1 <= _minsupp_abs self'
      <= Z.max 1 (Qceiling (s * inject_Z (Py.len lines))) /\
      ((p == s * inject_Z (Py.len lines))%Q ->
       _minsupp_abs self' = Z.max 1 (Qceiling (s * inject_Z (Py.len lines)))) /\
      (_minsupp_abs self' <> Z.max 1 (Qceiling (s * inject_Z (Py.len lines))) ->
       (p == inject_Z (Qceiling (s * inject_Z (Py.len lines)) - 1))%Q /\
       (p < s * inject_Z (Py.len lines))%Q).
Proof.
  intros fuel lines s output_file self self' Hs HN Hrun.
  apply run_with_fuel_Ok in Hrun as (_ & _ & Hms & _).
  rewrite size_load_csv_tokens in *.
  assert (HN0 : 0 <= Py.len lines) by (unfold Py.len; lia).
  destruct (minsupp_abs_of_unit s (Py.len lines) Hs (conj HN0 HN))
    as (p & Hconv & Hmul & Hofs & Hlo & Hhi & _).
  rewrite Hofs in Hms. injection Hms as Hms.
  set (x := (s * inject_Z (Py.len lines))%Q) in *.
  pose proof (Qceiling_between p _ _ (conj Hlo Hhi)) as Hc.
  exists p. split; [exact Hconv|]. split; [exact Hmul|]. split; [exact Hofs|].
  split.
  { unfold start_run. rewrite size_load_csv_tokens, Hofs. reflexivity. }
  split; [now symmetry|]. rewrite <- Hms. split; [lia|]. split.
  - intros E. now rewrite E.
  - intros Hne. assert (E : Qceiling p = Qceiling x - 1) by lia.
    pose proof (Qle_ceiling p) as Hp. rewrite E in Hp.
    pose proof (Qceiling_lt x) as Hx. split; lra.
Qed.

Lemma absolute_threshold_witness :
  exists self',
    run_with_fuel 10 [[1; -1; 2; -1; -2]; [1; -1; -2]; [2; -1; -2]] (Finite (1 # 2))
      "out.txt" (init 10 1) = Ok (tt, self') /\
    ((0 <= 1 # 2 <= 1)%Q /\ Py.len [[1; -1; 2; -1; -2]; [1; -1; -2]; [2; -1; -2]] <= 2 ^ 53) /\
    exists p : Q,
      float_mul (Finite (1 # 2)) (Finite (inject_Z 3)) = Finite p /\
      _minsupp_abs self' = Z.max 1 (Qceiling p).
Proof.
  eexists.
  refine ((fun (H : _ = Ok (tt, _)) (G : (0 <= 1 # 2 <= 1)%Q /\ _ <= 2 ^ 53) =>
             conj H (conj G
               match absolute_threshold 10
                       [[1; -1; 2; -1; -2]; [1; -1; -2]; [2; -1; -2]]
                       (1 # 2) "out.txt" (init 10 1) _ (proj1 G) (proj2 G) H with
               | ex_intro _ p (conj _ (conj Hp (conj _ (conj _ (conj Ht _))))) =>
                   ex_intro _ p (conj Hp Ht)
               end)) _ _).
  - vm_compute. reflexivity.
  - split; [split; discriminate | discriminate].
Defined.

(** * End-to-end examples *)

(** C1. Flat path: for the two sequences [1,-1,2,-1,3,-1,-2] and
    [1,-1,3,-1,-2], relative support 1.0, minimum length 1 and a maximum
    length of at least 2, the run writes exactly the records [{1}],
    [{1} {3}] and [{3}], each with support 2, and returns the pattern
    count 3; item 2 is pruned. *)
Theorem flat_example_run :
  forall maximum_pattern_length : Z,
    2 <= maximum_pattern_length ->
    written (run [[1; -1; 2; -1; 3; -1; -2]; [1; -1; 3; -1; -2]] (Finite 1) "out.txt"
               (init maximum_pattern_length 1))
    = Some ([([[1]], 2); ([[1]; [3]], 2); ([[3]], 2)], 3).
Proof.
  intros maxlen H. unfold run.
  change (max_len (init maxlen 1)) with maxlen.
  destruct (Z.to_nat maxlen) as [|[|[|n]]] eqn:E; try lia.
  - assert (maxlen = 2) as -> by lia. vm_compute. reflexivity.
  - destruct maxlen as [|p|p]; try lia.
    destruct p as [[q|q|]|[q|q|]|]; try lia; clear E H; vm_compute; reflexivity.
Qed.

Lemma flat_example_run_witness :
  2 <= 10 /\
  written (run [[1; -1; 2; -1; 3; -1; -2]; [1; -1; 3; -1; -2]] (Finite 1) "out.txt" (init 10 1))
  = Some ([([[1]], 2); ([[1]; [3]], 2); ([[3]], 2)], 3).
Proof. split; [lia | apply (flat_example_run 10); lia]. Defined.

(** The text lines of the three records. *)
Example flat_example_lines :
  map line_of_record [([[1]], 2); ([[1]; [3]], 2); ([[3]], 2)]
  = [("{1}                            #SUP: 2" ++ String (ascii_of_nat 10) EmptyString)%string;
     ("{1} {3}                        #SUP: 2" ++ String (ascii_of_nat 10) EmptyString)%string;
     ("{3}                            #SUP: 2" ++ String (ascii_of_nat 10) EmptyString)%string].
Proof. reflexivity. Qed.




(** A later itemset that matches the last itemset of the pattern again:
    after [{1}] in [1,2,-1,1,2,3,-2], the items 2 and 3 of the second
    itemset are candidates of both kinds. *)
Example scan_multi_rematch :
  exists self',
    scan_multi last_id_differs 0 0 [mkPseudoSequence 0 1]
      (with_db (Some [Some [1; 2; -1; 1; 2; 3; -2]]) (store (1 :: repeat 0 1999) (init 1000 1)))
    = Ok (([(2, [mkPseudoSequence 0 2]); (3, [mkPseudoSequence 0 6])],
           [(1, [mkPseudoSequence 0 4]); (2, [mkPseudoSequence 0 5]);
            (3, [mkPseudoSequence 0 6])]), self').
Proof. eexists. vm_compute. reflexivity. Qed.


(** * Lists with a known prefix *)

Lemma firstn_prefix_length {A : Type} (pre b : list A) :
  firstn (length pre) b = pre -> (length pre <= length b)%nat.
Proof.
  intros H. apply (f_equal (@length A)) in H. rewrite length_firstn in H. lia.
Qed.

Lemma firstn_prefix_app {A : Type} (pre b : list A) :
  firstn (length pre) b = pre -> b = pre ++ skipn (length pre) b.
Proof. intros H. rewrite <- H at 1. symmetry. apply firstn_skipn. Qed.

Lemma firstn_prefix_shorter {A : Type} (pre x b : list A) :
  firstn (length (pre ++ x)) b = pre ++ x -> firstn (length pre) b = pre.
Proof.
  intros H. apply firstn_prefix_app in H. rewrite H, <- app_assoc.
  rewrite firstn_app, Nat.sub_diag, firstn_all. cbn. now rewrite app_nil_r.
Qed.

Lemma getitem_prefix {A : Type} (pre b : list A) (i : Z) :
  firstn (length pre) b = pre -> 0 <= i < Z.of_nat (length pre) ->
  exists x, Py.getitem b i = Some x /\ nth_error pre (Z.to_nat i) = Some x.
Proof.
  intros H Hi. unfold Py.getitem. destruct (Z.leb_spec 0 i); [|lia].
  destruct (nth_error pre (Z.to_nat i)) as [x|] eqn:E.
  - exists x. split; [|reflexivity]. rewrite (firstn_prefix_app _ _ H).
    rewrite nth_error_app1 by lia. exact E.
  - apply nth_error_None in E. lia.
Qed.

Lemma setitem_prefix {A : Type} (pre b : list A) (v : A) :
  firstn (length pre) b = pre -> (length pre < length b)%nat ->
  exists b', Py.setitem b (Z.of_nat (length pre)) v = Some b' /\
             length b' = length b /\
             firstn (length (pre ++ [v])) b' = pre ++ [v].
Proof.
  intros H Hlt. pose proof (firstn_prefix_app _ _ H) as Hb.
  destruct (skipn (length pre) b) as [|x tl] eqn:E.
  - rewrite app_nil_r in Hb. rewrite Hb in Hlt. lia.
  - rewrite Hb, setitem_app. eexists. split; [reflexivity|]. split.
    + rewrite !length_app. reflexivity.
    + replace (pre ++ v :: tl) with ((pre ++ [v]) ++ tl) by now rewrite <- app_assoc.
      rewrite firstn_app, Nat.sub_diag, firstn_all. cbn. now rewrite app_nil_r.
Qed.

Lemma setitem_out_of_range {A : Type} (b : list A) (i : Z) (v : A) :
  0 <= i -> Py.setitem b i v = None -> Z.of_nat (length b) <= i.
Proof.
  intros Hi. unfold Py.setitem. destruct (Z.leb_spec 0 i); [|lia].
  destruct (Z.ltb_spec i (Z.of_nat (length b))); [discriminate | lia].
Qed.

(** * Items of a decoded pattern *)

Lemma count_items_app l1 l2 : count_items (l1 ++ l2) = count_items l1 + count_items l2.
Proof. unfold count_items, Py.len. rewrite filter_app, length_app. lia. Qed.

Lemma count_items_cons t toks :
  count_items (t :: toks) = (if t >? 0 then 1 else 0) + count_items toks.
Proof.
  unfold count_items, Py.len. cbn [filter]. destruct (t >? 0); cbn [length]; lia.
Qed.

Lemma pattern_length_fold : forall toks len,
  fold_left (fun a t => if t >? 0 then a + 1 else a) toks len = len + count_items toks.
Proof.
  induction toks as [|t toks IH]; intros len; cbn [fold_left].
  - unfold count_items, Py.len. cbn. lia.
  - rewrite IH, count_items_cons. destruct (t >? 0); lia.
Qed.

Lemma decode_token_items tok acc :
  decoded_items (decode_token tok acc)
  = decoded_items acc + (if tok >? 0 then 1 else 0).
Proof.
  destruct acc as [pattern current]. unfold decode_token, decoded_items, Py.len.
  destruct (Z.eqb_spec tok (-1)) as [-> | N].
  - cbn [Z.gtb Z.compare]. destruct current as [|x current]; cbn [fst snd]; [lia|].
    rewrite concat_app, length_app. cbn. rewrite app_nil_r. lia.
  - destruct (tok >? 0); cbn [fst snd]; [|lia]. rewrite length_app. cbn. lia.
Qed.

Lemma decode_fold_items : forall toks acc,
  decoded_items (fold_left (fun a t => decode_token t a) toks acc)
  = decoded_items acc + count_items toks.
Proof.
  induction toks as [|t toks IH]; intros acc; cbn [fold_left].
  - unfold count_items, Py.len. cbn. lia.
  - rewrite IH, decode_token_items, count_items_cons. destruct (t >? 0); lia.
Qed.

Lemma close_pattern_items acc :
  Py.len (concat (close_pattern acc)) = decoded_items acc.
Proof.
  destruct acc as [pattern current]. unfold close_pattern, decoded_items, Py.len.
  cbn [fst snd]. destruct current as [|x current]; [cbn; lia|].
  rewrite concat_app, length_app. cbn. rewrite app_nil_r. lia.
Qed.


Lemma scan_single_keys fresh db : forall database m m',
  entries any_list m ->
  scan_single fresh db database m = Ok m' -> entries any_list m'.
Proof.
  induction database as [|pseq rest IH]; intros m m' Hm; cbn [scan_single].
  - now intros [= <-].
  - destruct (get_sequence db (sequence_id pseq)) as [seq|]; [|discriminate].
    destruct (scan_single_tokens _ _ _ _ _) as [m1|] eqn:E; [|discriminate].
    apply IH.
    eapply (scan_single_tokens_entries fresh any_list); [| | |exact E];
      [exact I | intros; exact I | exact Hm].
Qed.

Lemma scan_single_tokens_errors fresh sid : forall toks i m e,
  scan_single_tokens fresh sid toks i m = Raise e -> e = SequenceIndexError.
Proof.
  induction toks as [|tok rest IH]; intros i m e; cbn [scan_single_tokens].
  - now intros [= <-].
  - destruct (tok =? -2); [discriminate | apply IH].
Qed.

Lemma get_sequence_errors db sid e :
  get_sequence db sid = Raise e -> e = SequenceIndexError \/ e = TypeError.
Proof.
  unfold get_sequence. destruct (get db sid) as [[seq|]|]; [discriminate | |];
    intros [= <-]; auto.
Qed.

Lemma scan_single_errors_gen fresh db : forall database m e,
  scan_single fresh db database m = Raise e ->
  e = SequenceIndexError \/ e = TypeError.
Proof.
  induction database as [|pseq rest IH]; intros m e; cbn [scan_single]; [discriminate|].
  destruct (get_sequence db (sequence_id pseq)) as [seq|e1] eqn:G.
  - destruct (scan_single_tokens _ _ _ _ _) as [m1|e2] eqn:E; [apply IH|].
    intros [= <-]. left. eapply scan_single_tokens_errors; eauto.
  - intros [= <-]. eapply get_sequence_errors; eauto.
Qed.

Section Bounds.

Variables ml L : Z.
Variable w0 : list pattern_record.
Variable t0 : list access.
Variable rec_ok : pattern_record -> Prop.
Variable acc_ok : access -> Prop.

Let inv := binv ml L w0 t0 rec_ok acc_ok.

Lemma binv_shorter pre x s : inv (pre ++ x) s -> inv pre s.
  Proof.
    intros (H1 & H2 & H3 & H4 & H5). repeat split; auto.
    eapply firstn_prefix_shorter; eauto.
  Qed.

Lemma binv_log pre a s : acc_ok a -> inv pre s -> inv pre (log a s).
  Proof.
    intros Ha (H1 & H2 & H3 & H4 & accs & Ht & Hacc). repeat split; auto.
    exists (a :: accs). cbn [log trace]. rewrite Ht. split; [reflexivity | now constructor].
  Qed.

Lemma binv_record pre r s : rec_ok r -> inv pre s -> inv pre (with_record r s).
  Proof.
    intros Hr (H1 & H2 & H3 & (new & Hw & Hnew) & H5). repeat split; auto.
    exists (new ++ [r]). cbn [with_record _writer]. rewrite Hw, <- app_assoc.
    split; [reflexivity|]. apply Forall_app. split; [assumption | now constructor].
  Qed.

Lemma binv_prefix_fits pre s : inv pre s -> Z.of_nat (length pre) <= L.
  Proof.
    intros (_ & H2 & H3 & _). apply firstn_prefix_length in H3.
    unfold Py.len in H2. lia.
  Qed.

  (** A read inside the pattern never fails. *)
Lemma triple_buf_read_binv pre i E :
    0 <= i < Z.of_nat (length pre) -> acc_ok (Rd i) ->
    triple (inv pre) (buf_read i)
      (fun v s => nth_error pre (Z.to_nat i) = Some v /\ inv pre s) E.
  Proof.
    intros Hi Ha self Hinv. unfold buf_read.
    destruct Hinv as (H1 & H2 & H3 & H4 & H5).
    destruct (getitem_prefix pre _ i H3 Hi) as (x & -> & Hx).
    split; [assumption|]. apply binv_log; [assumption|]. repeat split; auto.
  Qed.

  (** A write just after the pattern extends it. *)
Lemma triple_buf_write_binv pre i v hi need fuel :
    i = Z.of_nat (length pre) -> i <= hi -> acc_ok (Wr i) ->
    triple (inv pre) (buf_write i v) (fun _ => inv (pre ++ [v])) (berr L hi need fuel).
  Proof.
    intros -> Hhi Ha self Hinv. unfold buf_write.
    destruct Hinv as (H1 & H2 & H3 & H4 & accs & Ht & Hacc).
    destruct (Py.setitem (_buffer self) (Z.of_nat (length pre)) v) as [b'|] eqn:E.
    - pose proof (firstn_prefix_length _ _ H3) as Hle.
      assert (Hlt : (length pre < length (_buffer self))%nat).
      { unfold Py.setitem in E.
        destruct (Z.leb_spec 0 (Z.of_nat (length pre))); [|lia].
        destruct (Z.ltb_spec (Z.of_nat (length pre)) (Z.of_nat (length (_buffer self))));
          [lia | discriminate]. }
      destruct (setitem_prefix pre _ v H3 Hlt) as (b2 & E2 & Hlen & Hpre).
      rewrite E in E2. injection E2 as <-.
      repeat split; cbn [log store max_len _buffer _writer trace]; auto.
      + unfold Py.len in *. now rewrite Hlen.
      + exists (Wr (Z.of_nat (length pre)) :: accs). rewrite Ht.
        split; [reflexivity | now constructor].
    - apply setitem_out_of_range in E; [|lia]. unfold Py.len in H2.
      split; [lia | discriminate].
  Qed.

  (** The loops of the writer read the pattern, token by token. *)
Lemma triple_read_loop_binv {St : Type} pre E (f : Z -> St -> St) :
  (forall i, 0 <= i < Z.of_nat (length pre) -> acc_ok (Rd i)) ->
  forall acc,
    triple (inv pre) (read_loop (Z.of_nat (length pre)) f acc)
      (fun r s => r = fold_left (fun a t => f t a) pre acc /\ inv pre s) E.
Proof.
  intros Ha. unfold read_loop, Py.range. rewrite Nat2Z.id.
  assert (G : forall m a acc, (a + m <= length pre)%nat ->
             triple (inv pre)
               (for_each (map Z.of_nat (seq a m))
                  (fun i acc => tok <- buf_read i ;; ret (f tok acc)) acc)
               (fun r s => r = fold_left (fun a t => f t a) (firstn m (skipn a pre)) acc
                           /\ inv pre s) E).
  { induction m as [|m IH]; intros a acc Hle self Hinv; cbn [seq map for_each].
    - cbn. auto.
    - unfold bind at 1 2.
      pose proof (triple_buf_read_binv pre (Z.of_nat a) E ltac:(lia) ltac:(apply Ha; lia)
                    self Hinv) as Hr.
      destruct (buf_read (Z.of_nat a) self) as [[tok s1]|e]; [|exact Hr].
      destruct Hr as [Htok Hs1]. rewrite Nat2Z.id in Htok. cbn [ret].
      specialize (IH (Datatypes.S a) (f tok acc) ltac:(lia) s1 Hs1).
      destruct (for_each _ _ _ s1) as [[r s2]|e]; [|exact IH].
      destruct IH as [-> Hs2]. split; [|exact Hs2].
      destruct (skipn a pre) as [|x tl] eqn:Es.
      + apply (f_equal (@length Z)) in Es. rewrite length_skipn in Es. cbn in Es. lia.
      + assert (Hx : nth_error pre a = Some x).
        { rewrite <- (firstn_skipn a pre), nth_error_app2, Es;
            rewrite length_firstn; [|lia].
          replace (a - Nat.min a (length pre))%nat with 0%nat by lia. reflexivity. }
        assert (Htl : skipn (Datatypes.S a) pre = tl).
        { replace (Datatypes.S a) with (1 + a)%nat by lia.
          rewrite <- skipn_skipn, Es. reflexivity. }
        rewrite Htl. cbn [firstn fold_left]. congruence. }
  intros acc. eapply triple_weaken; [apply (G (length pre) 0%nat acc); lia | auto | | auto].
  intros r s [-> Hs]. cbn [skipn]. rewrite firstn_all. auto.
Qed.

(** The writer reads the pattern and writes at most one record, which
    holds as many items as the pattern. *)
Lemma triple_write_pattern_tokens_binv pre e pseqs E :
  e + 1 = Z.of_nat (length pre) ->
  (forall i, 0 <= i < Z.of_nat (length pre) -> acc_ok (Rd i)) ->
  (forall r, item_count r = count_items pre -> rec_ok r) ->
  triple (inv pre) (_write_pattern_tokens e pseqs) (fun _ => inv pre) E.
Proof.
  intros He Ha Hr. unfold _write_pattern_tokens, _pattern_length_in_buffer. rewrite He.
  eapply triple_bind; [apply triple_read_loop_binv; exact Ha|]. intros len.
  apply triple_pure. intros _.
  eapply triple_bind; [apply triple_gets|]. intros minlen.
  destruct (len <? minlen).
  - apply triple_ret. tauto.
  - eapply triple_bind.
    + eapply triple_pre; [|apply triple_read_loop_binv; exact Ha]. cbn. tauto.
    + intros acc self [-> Hs]. cbn. apply binv_record; [|exact Hs].
      apply Hr. unfold item_count. cbn [fst].
      rewrite close_pattern_items, decode_fold_items. reflexivity.
Qed.

Lemma triple_write_single_binv pre item sup E :
  rec_ok ([[item]], sup) ->
  triple (inv pre) (_write_single item sup) (fun _ => inv pre) E.
Proof.
  intros Hr. unfold _write_single.
  eapply triple_bind; [apply triple_gets|]. intros minlen.
  destruct (minlen >? 1).
  - apply triple_ret. tauto.
  - intros self [_ Hs]. cbn. now apply binv_record.
Qed.

Lemma triple_gets_max_len pre E :
  triple (inv pre) (gets max_len) (fun maxlen s => maxlen = ml /\ inv pre s) E.
Proof. intros self Hs. cbn. split; [apply Hs | exact Hs]. Qed.

(** [_recursion_single_items] at depth [k] with the pattern [pre] in the
    buffer. *)
Lemma recursion_single_binv :
  forall fuel database k last_buf_pos pre,
    Z.of_nat (length pre) = last_buf_pos + 1 ->
    k <= ml ->
    (forall r, count_items pre + 1 <= item_count r <= count_items pre + 1 + (ml - k) ->
               rec_ok r) ->
    (forall a, access_ok (last_buf_pos + 1) (last_buf_pos + 2 * (ml - k + 1)) a -> acc_ok a) ->
    triple (inv pre) (_recursion_single_items fuel database k last_buf_pos)
      (fun _ => inv pre)
      (berr L (last_buf_pos + 2 * (ml - k + 1)) (ml - k) fuel).
Proof.
  induction fuel as [|fuel IH]; intros database k p pre Hlen Hk Hrec Hacc;
    cbn [_recursion_single_items].
  - intros self _. split; [discriminate | cbn; lia].
  - eapply triple_bind; [apply triple_the_db; split; discriminate|]. intros db.
    eapply triple_bind.
    { apply triple_lift. intros e He. apply scan_single_errors_gen in He.
      split; intros _; destruct He; subst; discriminate. }
    intros m. apply triple_pure. intros Hscan.
    apply (scan_single_keys _ _ _ _ _ (entries_nil _)) in Hscan.
    eapply triple_pre; [|apply (triple_for_each (fun _ _ => inv pre))]; [cbn; tauto|].
    intros done [item pseqs] rest [] Em.
    assert (Hitem : item > 0).
    { assert (Hin : In (item, pseqs) m) by (rewrite Em; apply in_elt).
      now destruct (entries_In _ _ _ _ Hscan Hin). }
    eapply triple_bind; [apply triple_gets|]. intros minsupp.
    destruct (Py.len pseqs >=? minsupp); [|apply triple_ret; tauto].
    eapply triple_bind.
    { eapply triple_pre; [|apply (triple_buf_write_binv pre (p + 1) (-1)
                                   (p + 2 * (ml - k + 1)) (ml - k) (Datatypes.S fuel))];
        [cbn; tauto | lia | lia | apply Hacc; unfold access_ok; lia]. }
    intros []. eapply triple_bind.
    { apply (triple_buf_write_binv (pre ++ [-1]) (p + 2) item
               (p + 2 * (ml - k + 1)) (ml - k) (Datatypes.S fuel));
        [rewrite length_app; cbn; lia | lia | apply Hacc; unfold access_ok; lia]. }
    intros [].
    assert (Hlen2 : Z.of_nat (length ((pre ++ [-1]) ++ [item])) = p + 2 + 1)
      by (rewrite !length_app; cbn; lia).
    assert (Hcount2 : count_items ((pre ++ [-1]) ++ [item]) = count_items pre + 1).
    { rewrite <- app_assoc, count_items_app. cbn [app].
      rewrite !count_items_cons. destruct (Z.gtb_spec item 0); [|lia].
      change (count_items []) with 0. cbn [Z.gtb Z.compare]. lia. }
    eapply triple_bind.
    { apply triple_write_pattern_tokens_binv; [lia | |].
      - intros i Hi. apply Hacc. unfold access_ok. lia.
      - intros r Hr. apply Hrec. rewrite Hcount2 in Hr. lia. }
    intros []. eapply triple_bind; [apply triple_gets_max_len|]. intros maxlen.
    apply triple_pure. intros ->.
    destruct (Z.ltb_spec k ml).
    + eapply triple_weaken;
        [apply (IH pseqs (k + 1) (p + 2) ((pre ++ [-1]) ++ [item])); try lia | | |].
      * intros r Hr. apply Hrec. rewrite Hcount2 in Hr. lia.
      * intros a Ha. apply Hacc. destruct a; unfold access_ok in *; lia.
      * auto.
      * intros [] s Hs. rewrite <- app_assoc in Hs. eapply binv_shorter; eauto.
      * intros e [H1 H2]. split; intros Hx; [apply H1 | apply H2]; lia.
    + apply triple_ret. intros s Hs. rewrite <- app_assoc in Hs.
      eapply binv_shorter; eauto.
Qed.

(** The search for the first position of the last itemset reads inside
    the pattern and stays inside it. *)
Lemma triple_find_first_pos_binv pre E :
  (forall i, 0 <= i < Z.of_nat (length pre) -> acc_ok (Rd i)) ->
  forall n pos,
    0 <= pos < Z.of_nat (length pre) ->
    triple (inv pre) (find_first_pos n pos)
      (fun fp s => 0 <= fp <= pos /\ inv pre s) E.
Proof.
  intros Ha. induction n as [|n IH]; intros pos Hpos; cbn [find_first_pos].
  - apply triple_ret. intros s Hs. split; [lia | exact Hs].
  - destruct (Z.gtb_spec pos 0); [|apply triple_ret; intros s Hs; split; [lia | exact Hs]].
    eapply triple_bind; [apply (triple_buf_read_binv pre (pos - 1)); [lia | apply Ha; lia]|].
    intros b. apply triple_pure. intros _.
    destruct (negb (b =? -1)).
    + eapply triple_weaken; [apply (IH (pos - 1)); lia | auto | | auto].
      intros fp s [Hfp Hs]. split; [lia | exact Hs].
    + apply triple_ret. intros s Hs. split; [lia | exact Hs].
Qed.


Lemma triple_multi_token_step_binv pre fresh fp p sid i tok s E :
  (forall i, 0 <= i < Z.of_nat (length pre) -> acc_ok (Rd i)) ->
  Z.of_nat (length pre) = p + 1 -> 0 <= fp <= p ->
  cursor_ok fp p s ->
  triple (inv pre) (multi_token_step fresh fp p sid i tok s)
    (fun s' self' => cursor_ok fp p s' /\ inv pre self') E.
Proof.
  intros Ha Hlen Hfp [Hc1 Hc2]. unfold multi_token_step.
  destruct (tok >? 0).
  - destruct (current_itemset_is_postfix s) eqn:Epost;
      cbn [current_itemset_is_postfix is_first_itemset map_postfix map_normal
           position_to_match andb negb].
    + destruct (is_first_itemset s);
        cbn [negb current_itemset_is_postfix]; apply triple_ret; intros self Hs;
          (split; [|exact Hs]); split; cbn [position_to_match current_itemset_is_postfix];
            [assumption | discriminate | assumption | discriminate].
    + specialize (Hc2 eq_refl).
      eapply triple_bind;
        [apply (triple_buf_read_binv pre (position_to_match s)); [lia | apply Ha; lia]|].
      intros b. apply triple_pure. intros _.
      destruct (b =? tok); apply triple_ret; intros self Hs; (split; [|exact Hs]);
        split; cbn [position_to_match current_itemset_is_postfix].
      * lia.
      * destruct (Z.gtb_spec (position_to_match s + 1) p); [discriminate | lia].
      * assumption.
      * auto.
  - destruct (tok =? -1); apply triple_ret; intros self Hs; (split; [|exact Hs]).
    + split; cbn [position_to_match current_itemset_is_postfix]; lia.
    + split; assumption.
Qed.

Lemma triple_scan_multi_tokens_binv pre fresh fp p sid E :
  (forall i, 0 <= i < Z.of_nat (length pre) -> acc_ok (Rd i)) ->
  Z.of_nat (length pre) = p + 1 -> 0 <= fp <= p ->
  E SequenceIndexError ->
  forall toks i s,
    cursor_ok fp p s ->
    triple (inv pre) (scan_multi_tokens fresh fp p sid toks i s)
      (fun _ self' => inv pre self') E.
Proof.
  intros Ha Hlen Hfp HE. induction toks as [|tok rest IH]; intros i s Hc;
    cbn [scan_multi_tokens].
  - intros self _. exact HE.
  - destruct (tok =? -2); [apply triple_ret; auto|].
    eapply triple_bind; [apply triple_multi_token_step_binv; eassumption|].
    intros s'. apply triple_pure. intros Hc'. now apply IH.
Qed.

Lemma triple_scan_multi_binv pre fp p database E :
  (forall i, 0 <= i < Z.of_nat (length pre) -> acc_ok (Rd i)) ->
  Z.of_nat (length pre) = p + 1 -> 0 <= fp <= p ->
  E SequenceIndexError -> E TypeError ->
  triple (inv pre) (scan_multi last_id_differs fp p database)
    (fun maps self' => (entries any_list (fst maps) /\ entries any_list (snd maps)) /\
                       inv pre self') E.
Proof.
  intros Ha Hlen Hfp HE1 HE2.
  assert (G : triple (inv pre) (scan_multi last_id_differs fp p database)
                (fun _ self' => inv pre self') E).
  { unfold scan_multi. apply (triple_for_each (fun _ _ => inv pre)).
    intros done pseq rest maps _. unfold scan_multi_pseq.
    eapply triple_bind; [apply triple_the_db; exact HE2|]. intros db.
    eapply triple_bind.
    { apply triple_lift. intros e He. apply get_sequence_errors in He.
      destruct He; subst; assumption. }
    intros seq. eapply triple_bind.
    { apply triple_lift. intros e He.
      destruct (Py.getitem seq (index_first_item pseq - 1)); [discriminate|].
      now injection He as <-. }
    intros prev_tok. eapply triple_bind.
    - eapply triple_pre; [|apply triple_scan_multi_tokens_binv; try eassumption].
      + cbn. tauto.
      + split; cbn [position_to_match current_itemset_is_postfix]; lia.
    - intros s. apply triple_ret. auto. }
  intros self Hs. specialize (G self Hs).
  destruct (scan_multi last_id_differs fp p database self) as [[maps s1]|e] eqn:Escan;
    [|exact G].
  split; [|exact G]. apply scan_multi_at_most in Escan as [H1 H2].
  split; eapply entries_weaken; try eassumption; intros; exact I.
Qed.

(** [_recursion_multi] at depth [k] with the pattern [pre] in the
    buffer. *)
Lemma recursion_multi_binv :
  forall fuel database k last_buf_pos pre,
    Z.of_nat (length pre) = last_buf_pos + 1 ->
    0 <= last_buf_pos ->
    k <= ml ->
    (forall r, count_items pre + 1 <= item_count r <= count_items pre + 1 + (ml - k) ->
               rec_ok r) ->
    (forall a, access_ok (last_buf_pos + 1) (last_buf_pos + 2 * (ml - k + 1)) a -> acc_ok a) ->
    triple (inv pre) (_recursion_multi fuel database k last_buf_pos)
      (fun _ => inv pre)
      (berr L (last_buf_pos + 2 * (ml - k + 1)) (ml - k) fuel).
Proof.
  induction fuel as [|fuel IH]; intros database k p pre Hlen Hp Hk Hrec Hacc;
    cbn [_recursion_multi].
  - intros self _. split; [discriminate | cbn; lia].
  - assert (Hrd : forall i, 0 <= i < Z.of_nat (length pre) -> acc_ok (Rd i)).
    { intros i Hi. apply Hacc. unfold access_ok. lia. }
    eapply triple_bind.
    { apply triple_find_first_pos_binv; [exact Hrd | lia]. }
    intros fp. apply triple_pure. intros Hfp.
    eapply triple_bind.
    { apply (triple_scan_multi_binv pre fp p database); try assumption;
        split; discriminate. }
    intros maps. apply triple_pure. intros [Hkp Hkn].
    assert (Hkey : forall m done item pseqs rest,
               entries any_list m -> m = done ++ (item, pseqs) :: rest -> item > 0).
    { intros m done item pseqs rest Hm Em.
      assert (Hin : In (item, pseqs) m) by (rewrite Em; apply in_elt).
      now destruct (entries_In _ _ _ _ Hm Hin). }
    assert (Hcnt : forall item, item > 0 ->
                             count_items (pre ++ [item]) = count_items pre + 1).
    { intros item Hitem. rewrite count_items_app, count_items_cons.
      destruct (Z.gtb_spec item 0); [|lia]. change (count_items []) with 0. lia. }
    eapply triple_bind.
    + apply (triple_for_each (fun _ _ => inv pre)).
      intros done [item pseqs] rest [] Em.
      pose proof (Hkey _ _ _ _ _ Hkp Em) as Hitem.
      eapply triple_bind; [apply triple_gets|]. intros minsupp.
      destruct (Py.len pseqs >=? minsupp); [|apply triple_ret; tauto].
      cbv zeta.
      eapply triple_bind.
      { eapply triple_pre; [|apply (triple_buf_write_binv pre (p + 1) item
                                     (p + 2 * (ml - k + 1)) (ml - k) (Datatypes.S fuel))];
          [cbn; tauto | lia | lia | apply Hacc; unfold access_ok; lia]. }
      intros [].
      assert (Hlen2 : Z.of_nat (length (pre ++ [item])) = p + 1 + 1)
        by (rewrite !length_app; cbn; lia).
      eapply triple_bind.
      { apply triple_write_pattern_tokens_binv; [lia | |].
        - intros i Hi. apply Hacc. unfold access_ok. lia.
        - intros r Hr. apply Hrec. rewrite Hcnt in Hr by assumption. lia. }
      intros []. eapply triple_bind; [apply triple_gets_max_len|]. intros maxlen.
      apply triple_pure. intros ->.
      destruct (Z.ltb_spec k ml).
      * eapply triple_weaken;
          [apply (IH pseqs (k + 1) (p + 1) (pre ++ [item])); try lia | | |].
        -- intros r Hr. apply Hrec. rewrite Hcnt in Hr by assumption. lia.
        -- intros a Ha. apply Hacc. destruct a; unfold access_ok in *; lia.
        -- auto.
        -- intros [] s Hs. eapply binv_shorter; eauto.
        -- intros e [H1 H2]. split; intros Hx; [apply H1 | apply H2]; lia.
      * apply triple_ret. intros s Hs. eapply binv_shorter; eauto.
    + intros [].
      apply (triple_for_each (fun _ _ => inv pre)).
      intros done [item pseqs] rest [] Em.
      pose proof (Hkey _ _ _ _ _ Hkn Em) as Hitem.
      eapply triple_bind; [apply triple_gets|]. intros minsupp.
      destruct (Py.len pseqs >=? minsupp); [|apply triple_ret; tauto].
      cbv zeta.
      eapply triple_bind.
      { eapply triple_pre; [|apply (triple_buf_write_binv pre (p + 1) (-1)
                                     (p + 2 * (ml - k + 1)) (ml - k) (Datatypes.S fuel))];
          [cbn; tauto | lia | lia | apply Hacc; unfold access_ok; lia]. }
      intros []. eapply triple_bind.
      { apply (triple_buf_write_binv (pre ++ [-1]) (p + 1 + 1) item
                 (p + 2 * (ml - k + 1)) (ml - k) (Datatypes.S fuel));
          [rewrite length_app; cbn; lia | lia | apply Hacc; unfold access_ok; lia]. }
      intros [].
      assert (Hlen2 : Z.of_nat (length ((pre ++ [-1]) ++ [item])) = p + 1 + 1 + 1)
        by (rewrite !length_app; cbn; lia).
      assert (Hcount2 : count_items ((pre ++ [-1]) ++ [item]) = count_items pre + 1).
      { rewrite <- app_assoc, count_items_app. cbn [app].
        rewrite !count_items_cons. destruct (Z.gtb_spec item 0); [|lia].
        change (count_items []) with 0. cbn [Z.gtb Z.compare]. lia. }
      eapply triple_bind.
      { apply triple_write_pattern_tokens_binv; [lia | |].
        - intros i Hi. apply Hacc. unfold access_ok. lia.
        - intros r Hr. apply Hrec. rewrite Hcount2 in Hr. lia. }
      intros []. eapply triple_bind; [apply triple_gets_max_len|]. intros maxlen.
      apply triple_pure. intros ->.
      destruct (Z.ltb_spec k ml).
      * eapply triple_weaken;
          [apply (IH pseqs (k + 1) (p + 1 + 1) ((pre ++ [-1]) ++ [item])); try lia | | |].
        -- intros r Hr. apply Hrec. rewrite Hcount2 in Hr. lia.
        -- intros a Ha. apply Hacc. destruct a; unfold access_ok in *; lia.
        -- auto.
        -- intros [] s Hs. rewrite <- app_assoc in Hs. eapply binv_shorter; eauto.
        -- intros e [H1 H2]. split; intros Hx; [apply H1 | apply H2]; lia.
      * apply triple_ret. intros s Hs. rewrite <- app_assoc in Hs.
        eapply binv_shorter; eauto.
Qed.

End Bounds.

(** * The whole run *)



Lemma dict_append_keys {V : Type} (m : Py.dict (list V)) k x :
  k > 0 -> Forall (fun kv => fst kv > 0) m ->
  Forall (fun kv => fst kv > 0) (dict_append m k x).
Proof.
  intros Hk Hm. unfold dict_append, Py.setdefault.
  destruct (Py.get m k); apply dict_set_Forall; auto.
  apply dict_set_Forall; auto.
Qed.

Lemma find_in_sequence_keys sid : forall seq count seen m flag,
  Forall (fun kv => fst kv > 0) m ->
  Forall (fun kv => fst kv > 0) (fst (find_in_sequence sid seq count seen (m, flag))).
Proof.
  induction seq as [|tok rest IH]; intros count seen m flag Hm; cbn [find_in_sequence].
  - exact Hm.
  - destruct (Z.gtb_spec tok 0).
    + destruct (negb (Py.mem tok seen)); apply IH; [|exact Hm].
      apply dict_append_keys; [lia | exact Hm].
    + destruct (tok =? -1); [now apply IH|].
      destruct (tok =? -2); [exact Hm | now apply IH].
Qed.

Lemma find_loop_keys : forall db sid acc acc',
  Forall (fun kv => fst kv > 0) (fst acc) ->
  find_loop db sid acc = Ok acc' ->
  Forall (fun kv => fst kv > 0) (fst acc').
Proof.
  induction db as [|[seq|] rest IH]; intros sid acc acc' Hm; cbn [find_loop].
  - now intros [= <-].
  - apply IH. destruct acc as [m flag]. now apply find_in_sequence_keys.
  - discriminate.
Qed.

Lemma find_loop_errors : forall db sid acc e,
  find_loop db sid acc = Raise e -> e = TypeError.
Proof.
  induction db as [|[seq|] rest IH]; intros sid acc e; cbn [find_loop].
  - discriminate.
  - apply IH.
  - now intros [= <-].
Qed.

Lemma prune_single_loop_errors m ms : forall n j seq wp e,
  prune_single_loop m ms n j seq wp = Raise e -> e = SequenceIndexError.
Proof.
  induction n as [|n IH]; intros j seq wp e; cbn [prune_single_loop]; [discriminate|].
  destruct (Py.getitem seq j) as [tok|]; [|discriminate].
  destruct (tok >? 0).
  - destruct (is_frequent m ms tok); [|apply IH].
    destruct (Py.setitem seq wp tok); [apply IH | now intros [= <-]].
  - destruct (tok =? -2); [|apply IH].
    destruct (wp >? 0); [|discriminate].
    destruct (Py.setitem seq wp (-2)); [discriminate | now intros [= <-]].
Qed.

Lemma prune_multi_loop_errors m ms : forall n j seq wp c e,
  prune_multi_loop m ms n j seq wp c = Raise e -> e = SequenceIndexError.
Proof.
  induction n as [|n IH]; intros j seq wp c e; cbn [prune_multi_loop]; [discriminate|].
  destruct (Py.getitem seq j) as [tok|]; [|discriminate].
  destruct (tok >? 0).
  - destruct (is_frequent m ms tok); [|apply IH].
    destruct (Py.setitem seq wp tok); [apply IH | now intros [= <-]].
  - destruct (tok =? -1).
    + destruct (c >? 0); [|apply IH].
      destruct (Py.setitem seq wp (-1)); [apply IH | now intros [= <-]].
    + destruct (tok =? -2); [|apply IH].
      destruct (wp >? 0); [|discriminate].
      destruct (Py.setitem seq wp (-2)); [discriminate | now intros [= <-]].
Qed.

Lemma prune_db_errors prune_entry :
  (forall entry e, prune_entry entry = Raise e -> e = SequenceIndexError) ->
  forall db e, prune_db prune_entry db = Raise e -> e = SequenceIndexError.
Proof.
  intros H. induction db as [|entry rest IH]; intros e; cbn [prune_db]; [discriminate|].
  destruct (prune_entry entry) as [entry'|e1] eqn:E1.
  - destruct (prune_db prune_entry rest) as [rest'|e2]; [discriminate|].
    intros [= <-]. now apply IH.
  - intros [= <-]. eapply H; eauto.
Qed.

Lemma prune_single_entry_errors m ms entry e :
  prune_single_entry m ms entry = Raise e -> e = SequenceIndexError.
Proof. destruct entry; cbn; [apply prune_single_loop_errors | discriminate]. Qed.

Lemma prune_multi_entry_errors m ms entry e :
  prune_multi_entry m ms entry = Raise e -> e = SequenceIndexError.
Proof. destruct entry; cbn; [apply prune_multi_loop_errors | discriminate]. Qed.

Section RunBounds.

Variables ml L : Z.
Variable t0 : list access.
Variable fuel : nat.

Let inv := binv ml L [] t0 (top_record_ok ml) (top_access_ok ml).
Let E := berr L (2 * ml - 2) (ml - 2) fuel.

Lemma berr_other e : e <> BufferIndexError -> e <> OutOfFuel -> E e.
Proof. intros H1 H2. split; auto. Qed.

Lemma grow_frequent_items_binv build recursion map_item_to_sids :
  (forall item sids self proj self', build item sids self = Ok (proj, self') -> self' = self) ->
  (forall item sids e self, build item sids self = Raise e ->
                            e <> BufferIndexError /\ e <> OutOfFuel) ->
  (forall database item, item > 0 -> 1 < ml ->
     triple (inv [item]) (recursion database 2 0) (fun _ => inv [item]) E) ->
  Forall (fun kv => fst kv > 0) map_item_to_sids ->
  triple (inv []) (grow_frequent_items build recursion map_item_to_sids)
    (fun _ => inv []) E.
Proof.
  intros Hbuild Hbuild_err Hrec Hkeys. unfold grow_frequent_items.
  apply (triple_for_each (fun _ _ => inv [])).
  intros done [item sids] rest [] Em.
  assert (Hitem : item > 0).
  { rewrite Forall_forall in Hkeys. apply (Hkeys (item, sids)). rewrite Em. apply in_elt. }
  eapply triple_bind; [apply triple_gets|]. intros minsupp.
  destruct (Py.len sids >=? minsupp); [|apply triple_ret; tauto].
  eapply triple_bind.
  { eapply triple_pre;
      [|apply (triple_write_single_binv ml L [] t0 (top_record_ok ml) (top_access_ok ml) [])];
      [cbn; tauto|].
    left. now exists item. }
  intros []. eapply triple_bind; [apply triple_gets_max_len|]. intros maxlen.
  apply triple_pure. intros ->.
  destruct (Z.gtb_spec ml 1); [|apply triple_ret; auto].
  eapply triple_bind.
  { apply (triple_buf_write_binv ml L [] t0 (top_record_ok ml) (top_access_ok ml)
             [] 0 item (2 * ml - 2) (ml - 2) fuel); [reflexivity | lia |].
    split; [lia | unfold access_ok; lia]. }
  intros []. cbn [app]. eapply triple_bind.
  { intros self Hs. destruct (build item sids self) as [[proj s1]|e] eqn:Eb.
    - apply Hbuild in Eb. subst s1. exact Hs.
    - apply Hbuild_err in Eb. now apply berr_other. }
  intros projected.
  eapply triple_weaken; [apply (Hrec projected item Hitem); lia | auto | | auto].
  intros [] s Hs. apply (binv_shorter ml L [] t0 _ _ [] [item]). exact Hs.
Qed.

Lemma build_projected_errors first_projection db :
  (forall seq j e, first_projection seq j = Raise e -> e = SequenceIndexError) ->
  forall sids proj e,
    build_projected first_projection db sids proj = Raise e -> e = SequenceIndexError.
Proof.
  intros H. induction sids as [|sid rest IH]; intros proj e; cbn [build_projected];
    [discriminate|].
  destruct (get db sid) as [[seq|]|]; [|apply IH|now intros [= <-]].
  destruct (first_projection seq 0) as [[idx|]|e1] eqn:E1; [apply IH | apply IH|].
  intros [= <-]. eapply H; eauto.
Qed.

Lemma first_projection_single_errors item : forall toks j e,
  first_projection_single item toks j = Raise e -> e = SequenceIndexError.
Proof.
  induction toks as [|tok rest IH]; intros j e; cbn [first_projection_single].
  - now intros [= <-].
  - destruct (tok =? -2); [discriminate|].
    destruct (tok =? item); [|apply IH].
    destruct rest as [|next rest']; [now intros [= <-]|].
    destruct (negb (next =? -2)); discriminate.
Qed.

Lemma first_projection_multi_errors item : forall toks j e,
  first_projection_multi item toks j = Raise e -> e = SequenceIndexError.
Proof.
  induction toks as [|tok rest IH]; intros j e; cbn [first_projection_multi].
  - now intros [= <-].
  - destruct (tok =? -2); [discriminate|].
    destruct (tok =? item); [|apply IH].
    destruct rest as [|next rest']; [now intros [= <-]|].
    destruct (next =? -2); [discriminate|].
    destruct (next =? -1); [|discriminate].
    destruct rest' as [|next2 rest2]; [now intros [= <-]|].
    destruct (next2 =? -2); discriminate.
Qed.

Lemma build_errors first_projection sids e self :
  (forall seq j e, first_projection seq j = Raise e -> e = SequenceIndexError) ->
  (db <- the_db ;; lift (build_projected first_projection db sids [])) self = Raise e ->
  e <> BufferIndexError /\ e <> OutOfFuel.
Proof.
  intros H Hr. apply bind_Raise in Hr as [Hr | (db & s1 & _ & Hr)].
  - unfold the_db in Hr. destruct (_db self); [discriminate|].
    injection Hr as <-. split; discriminate.
  - unfold lift in Hr.
    destruct (build_projected first_projection db sids []) eqn:Eb; [discriminate|].
    injection Hr as <-. apply (build_projected_errors _ _ H) in Eb. subst.
    split; discriminate.
Qed.

Lemma recursion_single_top database item :
  item > 0 -> 1 < ml ->
  triple (inv [item]) (_recursion_single_items fuel database 2 0) (fun _ => inv [item]) E.
Proof.
  intros Hitem Hml.
  assert (Hc : count_items [item] = 1).
  { rewrite count_items_cons. destruct (Z.gtb_spec item 0); [reflexivity | lia]. }
  eapply triple_weaken;
    [apply (recursion_single_binv ml L [] t0 (top_record_ok ml) (top_access_ok ml)
              fuel database 2 0 [item]); [reflexivity | lia | |] | auto | auto |].
  - intros r Hr. right. rewrite Hc in Hr. lia.
  - intros a Ha. split; [lia|]. destruct a; unfold access_ok in *; lia.
  - intros e [H1 H2]. split; intros Hx; [apply H1 | apply H2]; lia.
Qed.

Lemma recursion_multi_top database item :
  item > 0 -> 1 < ml ->
  triple (inv [item]) (_recursion_multi fuel database 2 0) (fun _ => inv [item]) E.
Proof.
  intros Hitem Hml.
  assert (Hc : count_items [item] = 1).
  { rewrite count_items_cons. destruct (Z.gtb_spec item 0); [reflexivity | lia]. }
  eapply triple_weaken;
    [apply (recursion_multi_binv ml L [] t0 (top_record_ok ml) (top_access_ok ml)
              fuel database 2 0 [item]); [reflexivity | lia | lia | |] | auto | auto |].
  - intros r Hr. right. rewrite Hc in Hr. lia.
  - intros a Ha. split; [lia|]. destruct a; unfold access_ok in *; lia.
  - intros e [H1 H2]. split; intros Hx; [apply H1 | apply H2]; lia.
Qed.

Lemma prefixspan_binv output_file :
  triple (fun s => max_len s = ml /\ Py.len (_buffer s) = L /\ trace s = t0)
    (_prefixspan fuel output_file) (fun _ => inv []) E.
Proof.
  unfold _prefixspan.
  eapply triple_bind with (R := fun _ => inv []).
  { intros self (H1 & H2 & H3). cbn. repeat split; auto.
    - now exists [].
    - exists []. now split. }
  intros []. eapply triple_bind
    with (R := fun m s => Forall (fun kv => fst kv > 0) m /\ inv [] s).
  { unfold _find_sequences_containing_items.
    eapply triple_bind with (R := fun _ => inv []); [intros self Hs; exact Hs|].
    intros []. eapply triple_bind; [apply triple_the_db; apply berr_other; discriminate|].
    intros db. eapply triple_bind.
    { apply triple_lift. intros e He. apply find_loop_errors in He. subst.
      apply berr_other; discriminate. }
    intros r. apply triple_pure. intros Hfind.
    apply find_loop_keys in Hfind; [|constructor].
    eapply triple_bind with (R := fun _ => inv []); [intros self [_ Hs]; exact Hs|].
    intros []. apply triple_ret. auto. }
  intros m. apply triple_pure. intros Hkeys.
  eapply triple_bind; [apply triple_gets|]. intros flag.
  destruct flag.
  - unfold _prefixspan_with_multiple_items.
    eapply triple_bind; [apply triple_the_db; apply berr_other; discriminate|].
    intros db. eapply triple_bind; [apply triple_gets|]. intros minsupp.
    eapply triple_bind.
    { apply triple_lift. intros e He.
      apply (prune_db_errors _ (prune_multi_entry_errors m minsupp)) in He. subst.
      apply berr_other; discriminate. }
    intros db'. eapply triple_bind with (R := fun _ => inv []).
    { intros self Hs. cbn. apply Hs. }
    intros []. apply grow_frequent_items_binv; auto.
    + intros item sids self proj self' H. now apply build_projected_state in H as [-> _].
    + intros item sids e self H. apply (build_errors _ _ _ _ (first_projection_multi_errors item) H).
    + apply recursion_multi_top.
  - unfold _prefixspan_with_single_items.
    eapply triple_bind; [apply triple_the_db; apply berr_other; discriminate|].
    intros db. eapply triple_bind; [apply triple_gets|]. intros minsupp.
    eapply triple_bind.
    { apply triple_lift. intros e He.
      apply (prune_db_errors _ (prune_single_entry_errors m minsupp)) in He. subst.
      apply berr_other; discriminate. }
    intros db'. eapply triple_bind with (R := fun _ => inv []).
    { intros self Hs. cbn. apply Hs. }
    intros []. apply grow_frequent_items_binv; auto.
    + intros item sids self proj self' H. now apply build_projected_state in H as [-> _].
    + intros item sids e self H. apply (build_errors _ _ _ _ (first_projection_single_errors item) H).
    + apply recursion_single_top.
Qed.

End RunBounds.

(** Records and buffer accesses of a whole run. *)
Lemma run_with_fuel_bounds fuel lines minsup_relative output_file self :
  match run_with_fuel fuel lines minsup_relative output_file self with
  | Ok (_, self') =>
      Forall (top_record_ok (max_len self)) (_writer self') /\
      exists accs, trace self' = accs ++ trace self /\
                   Forall (top_access_ok (max_len self)) accs
  | Raise e =>
      berr (Py.len (_buffer self)) (2 * max_len self - 2) (max_len self - 2) fuel e
  end.
Proof.
  unfold run_with_fuel. destruct output_file as [|c output_file].
  - cbn. split; discriminate.
  - unfold bind at 1. unfold start_run.
    destruct (minsupp_abs_of minsup_relative (size (load_csv_tokens lines)))
      as [minsupp_abs|e] eqn:Ems.
    2:{ apply berr_other;
          destruct (minsupp_abs_of_errors _ _ _ Ems); subst; discriminate. }
    unfold bind at 1.
    pose proof (prefixspan_binv (max_len self) (Py.len (_buffer self)) (trace self) fuel
                  (String c output_file)
                  (started (load_csv_tokens lines) minsupp_abs self)
                  (conj eq_refl (conj eq_refl eq_refl))) as H.
    destruct (_prefixspan fuel (String c output_file) _) as [[[] s1]|e]; [|exact H].
    cbn. destruct H as (_ & _ & _ & (new & Hw & Hnew) & Hacc).
    split; [|exact Hacc]. now rewrite Hw.
Qed.

(** * One call of a growth procedure *)


Lemma binv_start self p :
  0 <= p -> p + 1 <= Py.len (_buffer self) ->
  forall rec_ok acc_ok,
    binv (max_len self) (Py.len (_buffer self)) (_writer self) (trace self) rec_ok acc_ok
      (firstn (Z.to_nat (p + 1)) (_buffer self)) self /\
    Z.of_nat (length (firstn (Z.to_nat (p + 1)) (_buffer self))) = p + 1.
Proof.
  intros Hp Hlen rec_ok acc_ok. unfold Py.len in Hlen.
  assert (Hl : length (firstn (Z.to_nat (p + 1)) (_buffer self)) = Z.to_nat (p + 1))
    by (rewrite length_firstn; lia).
  split; [|lia]. repeat split.
  - now rewrite Hl.
  - exists []. now rewrite app_nil_r.
  - exists []. now split.
Qed.

Lemma recursion_single_level fuel database k p self :
  0 <= p -> p + 1 <= Py.len (_buffer self) -> k <= max_len self ->
  level_outcome self k p fuel (_recursion_single_items fuel database k p self).
Proof.
  intros Hp Hlen Hk. unfold level_outcome. cbv zeta.
  set (pre := firstn (Z.to_nat (p + 1)) (_buffer self)).
  destruct (binv_start self p Hp Hlen
              (fun r => count_items pre + 1 <= item_count r
                        <= count_items pre + 1 + (max_len self - k))
              (access_ok (p + 1) (p + 2 * (max_len self - k + 1)))) as [Hinv Hl].
  fold pre in Hinv, Hl.
  pose proof (recursion_single_binv _ _ _ _ _ _ fuel database k p pre Hl Hk
                (fun r H => H) (fun a H => H) self Hinv) as H.
  destruct (_recursion_single_items fuel database k p self) as [[[] s1]|e]; [|exact H].
  destruct H as (_ & _ & H3 & H4 & H5). repeat split; auto.
  now rewrite <- Hl, Nat2Z.id.
Qed.

Lemma recursion_multi_level fuel database k p self :
  0 <= p -> p + 1 <= Py.len (_buffer self) -> k <= max_len self ->
  level_outcome self k p fuel (_recursion_multi fuel database k p self).
Proof.
  intros Hp Hlen Hk. unfold level_outcome. cbv zeta.
  set (pre := firstn (Z.to_nat (p + 1)) (_buffer self)).
  destruct (binv_start self p Hp Hlen
              (fun r => count_items pre + 1 <= item_count r
                        <= count_items pre + 1 + (max_len self - k))
              (access_ok (p + 1) (p + 2 * (max_len self - k + 1)))) as [Hinv Hl].
  fold pre in Hinv, Hl.
  pose proof (recursion_multi_binv _ _ _ _ _ _ fuel database k p pre Hl Hp Hk
                (fun r H => H) (fun a H => H) self Hinv) as H.
  destruct (_recursion_multi fuel database k p self) as [[[] s1]|e]; [|exact H].
  destruct H as (_ & _ & H3 & H4 & H5). repeat split; auto.
  now rewrite <- Hl, Nat2Z.id.
Qed.

Lemma single_item_count r : (exists item, item > 0 /\ fst r = [[item]]) -> item_count r = 1.
Proof. intros (item & _ & H). unfold item_count. now rewrite H. Qed.

(** C8. Maximum-length cap.  In a run with a maximum length of at
    least 1 every written record holds between 1 and
    [maximum_pattern_length] items, and [maximum_pattern_length - 1]
    nested calls are always enough.  With a maximum length of 1 every
    record is a single item, the buffer is never touched and no call of
    a growth procedure is made (no fuel is needed).  A call at depth [k]
    that is at most the maximum length nests at most [max_len - k]
    deeper calls, and the records it writes hold at most [max_len - k]
    items more than the first extension of its pattern. *)
Theorem maximum_length_cap :
  (forall fuel lines minsup_relative output_file maximum_pattern_length min_len_arg,
      1 <= maximum_pattern_length ->
      match run_with_fuel fuel lines minsup_relative output_file
              (init maximum_pattern_length min_len_arg) with
      | Ok (_, self') =>
          Forall (fun r => 1 <= item_count r <= maximum_pattern_length) (_writer self') /\
          (maximum_pattern_length = 1 ->
           Forall (fun r => exists item, fst r = [[item]]) (_writer self') /\
           trace self' = [])
      | Raise e => maximum_pattern_length - 2 < Z.of_nat fuel -> e <> OutOfFuel
      end) /\
  (forall lines minsup_relative output_file maximum_pattern_length min_len_arg,
      run lines minsup_relative output_file (init maximum_pattern_length min_len_arg)
      <> Raise OutOfFuel) /\
  (forall fuel database k last_buf_pos self,
      0 <= last_buf_pos -> last_buf_pos + 1 <= Py.len (_buffer self) ->
      k <= max_len self ->
      level_outcome self k last_buf_pos fuel
        (_recursion_single_items fuel database k last_buf_pos self) /\
      level_outcome self k last_buf_pos fuel
        (_recursion_multi fuel database k last_buf_pos self)).
Proof.
  split; [|split].
  - intros fuel lines s out maxlen minlen Hml.
    pose proof (run_with_fuel_bounds fuel lines s out (init maxlen minlen)) as H.
    cbn [init max_len trace] in H.
    destruct (run_with_fuel fuel lines s out (init maxlen minlen)) as [[[] s1]|e].
    + destruct H as [Hrec (accs & Ht & Hacc)]. split.
      * eapply Forall_impl; [|exact Hrec]. intros r [Hr | Hr].
        -- rewrite (single_item_count r Hr). lia.
        -- lia.
      * intros ->. split.
        -- eapply Forall_impl; [|exact Hrec]. intros r [(item & _ & Hr) | [Hr _]]; [|lia].
           now exists item.
        -- rewrite Ht, app_nil_r. destruct accs as [|a accs]; [reflexivity|].
           inversion Hacc as [|? ? [Ha _] _]. lia.
    + apply H.
  - intros lines s out maxlen minlen Hrun. unfold run in Hrun.
    pose proof (run_with_fuel_bounds (Z.to_nat (max_len (init maxlen minlen)))
                  lines s out (init maxlen minlen)) as H.
    rewrite Hrun in H. destruct H as [_ H]. apply H; [|reflexivity].
    cbn [init max_len]. lia.
  - intros fuel database k p self Hp Hlen Hk. split.
    + now apply recursion_single_level.
    + now apply recursion_multi_level.
Qed.

Lemma maximum_length_cap_witness :
  1 <= 1 /\
  match run_with_fuel 0 [[1; -1; 2; -1; -2]; [1; -1; 2; -1; -2]] (Finite 1) "out.txt" (init 1 1) with
  | Ok (_, self') =>
      Forall (fun r => 1 <= item_count r <= 1) (_writer self') /\
      (1 = 1 ->
       Forall (fun r => exists item, fst r = [[item]]) (_writer self') /\
       trace self' = [])
  | Raise e => 1 - 2 < Z.of_nat 0 -> e <> OutOfFuel
  end.
Proof.
  split; [lia|].
  apply (proj1 maximum_length_cap 0%nat [[1; -1; 2; -1; -2]; [1; -1; 2; -1; -2]] (Finite 1)
           "out.txt"%string 1 1). lia.
Defined.

(** With a maximum length of 1 and no fuel the run of two sequences
    [1,-1,2,-1,-2] completes with the two single items. *)
Example maximum_length_one_run :
  written (run_with_fuel 0 [[1; -1; 2; -1; -2]; [1; -1; 2; -1; -2]] (Finite 1) "out.txt" (init 1 1))
  = Some ([([[1]], 2); ([[2]], 2)], 2).
Proof. vm_compute. reflexivity. Qed.





(** * The minimum-length filter only suppresses output *)

Lemma agree_ret {A : Type} (a : A) : agree (ret a).
Proof. intros s1 s2 H. cbn. auto. Qed.

Lemma agree_raise {A : Type} e : agree (@raise A e).
Proof. intros s1 s2 H. reflexivity. Qed.

Lemma agree_bind {A B : Type} (c : M A) (k : A -> M B) :
  agree c -> (forall a, agree (k a)) -> agree (bind c k).
Proof.
  intros Hc Hk s1 s2 H. unfold bind. specialize (Hc s1 s2 H). unfold same_outcome in Hc.
  destruct (c s1) as [[a1 t1]|e1], (c s2) as [[a2 t2]|e2]; try contradiction.
  - destruct Hc as [<- Ht]. now apply Hk.
  - exact Hc.
Qed.

Lemma agree_lift {A : Type} (r : result A) : agree (lift r).
Proof. intros s1 s2 H. unfold lift. destruct r; cbn; auto. Qed.

Lemma agree_gets {A : Type} (f : PrefixSpan -> A) :
  (forall s1 s2, filtered_view s1 s2 -> f s1 = f s2) -> agree (gets f).
Proof. intros Hf s1 s2 H. cbn. auto. Qed.

Lemma agree_the_db : agree the_db.
Proof.
  intros s1 s2 H. unfold the_db. pose proof H as (_ & _ & Hdb & _).
  rewrite Hdb. destruct (_db s2); cbn; auto.
Qed.

Lemma agree_for_each {A St : Type} (body : A -> St -> M St) :
  (forall x acc, agree (body x acc)) -> forall l acc, agree (for_each l body acc).
Proof.
  intros Hb. induction l as [|x l IH]; intros acc; cbn [for_each].
  - apply agree_ret.
  - apply agree_bind; [apply Hb | intros acc'; apply IH].
Qed.

Lemma filtered_view_log a b s1 s2 :
  filtered_view s1 s2 -> filtered_view (log a s1) (log b s2).
Proof. intros H. exact H. Qed.

Lemma filtered_view_store b s1 s2 :
  filtered_view s1 s2 -> filtered_view (store b s1) (store b s2).
Proof. intros (H1 & H2 & H3 & H4 & H5 & H6 & H7 & H8). repeat split; auto. Qed.

Lemma agree_buf_read i : agree (buf_read i).
Proof.
  intros s1 s2 H. unfold buf_read. pose proof H as (H1 & H2 & H3 & H4 & H5).
  rewrite H4. destruct (Py.getitem (_buffer s2) i); cbn; auto.
Qed.

Lemma agree_buf_write i v : agree (buf_write i v).
Proof.
  intros s1 s2 H. unfold buf_write. pose proof H as (H1 & H2 & H3 & H4 & H5).
  rewrite H4. destruct (Py.setitem (_buffer s2) i v); cbn; [|reflexivity].
  split; [reflexivity|]. apply filtered_view_log. now apply filtered_view_store.
Qed.

Lemma agree_find_first_pos : forall n pos, agree (find_first_pos n pos).
Proof.
  induction n as [|n IH]; intros pos; cbn [find_first_pos]; [apply agree_ret|].
  destruct (pos >? 0); [|apply agree_ret].
  apply agree_bind; [apply agree_buf_read|]. intros b.
  destruct (negb (b =? -1)); [apply IH | apply agree_ret].
Qed.

Lemma agree_multi_token_step fresh fp lbp sid i tok s :
  agree (multi_token_step fresh fp lbp sid i tok s).
Proof.
  unfold multi_token_step. destruct (tok >? 0).
  - match goal with |- context [if negb ?b then _ else _] => destruct (negb b) end.
    + apply agree_bind; [apply agree_buf_read|]. intros b.
      destruct (b =? tok); apply agree_ret.
    + apply agree_ret.
  - destruct (tok =? -1); apply agree_ret.
Qed.

Lemma agree_scan_multi_tokens fresh fp lbp sid : forall toks i s,
  agree (scan_multi_tokens fresh fp lbp sid toks i s).
Proof.
  induction toks as [|tok rest IH]; intros i s; cbn [scan_multi_tokens].
  - apply agree_raise.
  - destruct (tok =? -2); [apply agree_ret|].
    apply agree_bind; [apply agree_multi_token_step | intros s'; apply IH].
Qed.

Lemma agree_scan_multi fresh fp lbp database : agree (scan_multi fresh fp lbp database).
Proof.
  unfold scan_multi. apply agree_for_each. intros pseq maps. unfold scan_multi_pseq.
  apply agree_bind; [apply agree_the_db|]. intros db.
  apply agree_bind; [apply agree_lift|]. intros seq.
  apply agree_bind; [apply agree_lift|]. intros prev_tok.
  apply agree_bind; [apply agree_scan_multi_tokens|]. intros s. apply agree_ret.
Qed.

(** The reading loops, exactly. *)
Lemma logged_reads_buffer l : forall s, _buffer (logged_reads l s) = _buffer s.
Proof. induction l as [|i l IH]; intros s; cbn; [reflexivity | now rewrite IH]. Qed.

Lemma read_loop_for_each {St : Type} (f : Z -> St -> St) : forall l acc self,
  for_each l (fun i acc => tok <- buf_read i ;; ret (f tok acc)) acc self
  = match read_all (_buffer self) l with
    | Some toks => Ok (fold_left (fun a t => f t a) toks acc, logged_reads l self)
    | None => Raise BufferIndexError
    end.
Proof.
  induction l as [|i l IH]; intros acc self; cbn [for_each read_all].
  - reflexivity.
  - unfold bind at 1 2. unfold buf_read at 1.
    destruct (Py.getitem (_buffer self) i) as [v|]; [|reflexivity].
    cbn [ret]. rewrite IH. cbn [log _buffer].
    destruct (read_all (_buffer self) l); reflexivity.
Qed.

Lemma read_loop_spec {St : Type} n (f : Z -> St -> St) acc self :
  read_loop n f acc self
  = match read_all (_buffer self) (Py.range n) with
    | Some toks => Ok (fold_left (fun a t => f t a) toks acc,
                       logged_reads (Py.range n) self)
    | None => Raise BufferIndexError
    end.
Proof. unfold read_loop. apply read_loop_for_each. Qed.

Lemma filtered_view_logged_reads l : forall s1 s2,
  filtered_view s1 s2 -> filtered_view (logged_reads l s1) (logged_reads l s2).
Proof.
  induction l as [|i l IH]; intros s1 s2 H; cbn; [exact H|].
  apply IH. now apply filtered_view_log.
Qed.

Lemma filtered_view_logged_left l : forall s1 s2,
  filtered_view s1 s2 -> filtered_view (logged_reads l s1) s2.
Proof.
  induction l as [|i l IH]; intros s1 s2 H; cbn; [exact H|].
  apply IH. exact H.
Qed.

Lemma logged_reads_fields l : forall s,
  min_len (logged_reads l s) = min_len s /\
  _writer (logged_reads l s) = _writer s /\
  pattern_count (logged_reads l s) = pattern_count s.
Proof.
  induction l as [|i l IH]; intros s; cbn; [auto|]. apply (IH (log (Rd i) s)).
Qed.

Lemma filtered_view_record_both r s1 s2 :
  long_enough (min_len s2) r = true ->
  filtered_view s1 s2 -> filtered_view (with_record r s1) (with_record r s2).
Proof.
  intros Hr (H1 & H2 & H3 & H4 & H5 & H6 & H7 & H8). repeat split; auto.
  cbn [with_record _writer min_len]. rewrite filter_app, H8. cbn [filter].
  now rewrite Hr.
Qed.

Lemma filtered_view_record_left r s1 s2 :
  long_enough (min_len s2) r = false ->
  filtered_view s1 s2 -> filtered_view (with_record r s1) s2.
Proof.
  intros Hr (H1 & H2 & H3 & H4 & H5 & H6 & H7 & H8). repeat split; auto.
  cbn [with_record _writer min_len]. rewrite filter_app, H8. cbn [filter].
  rewrite Hr. now rewrite app_nil_r.
Qed.

Lemma decoded_record_items toks sup :
  item_count (close_pattern (fold_left (fun a t => decode_token t a) toks ([], [])), sup)
  = count_items toks.
Proof.
  unfold item_count. cbn [fst]. rewrite close_pattern_items, decode_fold_items.
  reflexivity.
Qed.

Lemma agree_write_pattern_tokens e pseqs : agree (_write_pattern_tokens e pseqs).
Proof.
  intros s1 s2 H.
  unfold _write_pattern_tokens, _pattern_length_in_buffer, bind.
  rewrite !read_loop_spec.
  assert (Hb : _buffer s1 = _buffer s2) by apply H. rewrite Hb.
  destruct (read_all (_buffer s2) (Py.range (e + 1))) as [toks|] eqn:Er; [|reflexivity].
  cbn [gets].
  pose proof (logged_reads_fields (Py.range (e + 1)) s1) as (Hm1 & _ & _).
  pose proof (logged_reads_fields (Py.range (e + 1)) s2) as (Hm2 & _ & _).
  rewrite Hm1, Hm2, pattern_length_fold. cbn [Z.add].
  pose proof (filtered_view_logged_reads (Py.range (e + 1)) _ _ H) as H1.
  pose proof (filtered_view_logged_reads (Py.range (e + 1)) _ _ H1) as H2.
  assert (Hm : min_len s1 <= min_len s2) by apply H.
  set (r := (close_pattern (fold_left (fun a t => decode_token t a) toks ([], [])),
             Py.len pseqs)).
  assert (Hr : item_count r = count_items toks) by apply decoded_record_items.
  destruct (Z.ltb_spec (count_items toks) (min_len s1)),
           (Z.ltb_spec (count_items toks) (min_len s2)); try lia;
    rewrite ?read_loop_spec, ?logged_reads_buffer, ?Hb, ?Er; cbn [ret emit same_outcome].
  - auto.
  - split; [reflexivity|]. fold r.
    apply filtered_view_record_left.
    + rewrite Hm2. unfold long_enough. rewrite Hr. lia.
    + apply filtered_view_logged_left. exact H1.
  - split; [reflexivity|]. fold r.
    apply filtered_view_record_both; [|exact H2].
    pose proof (logged_reads_fields (Py.range (e + 1))
                  (logged_reads (Py.range (e + 1)) s2)) as (Hm3 & _ & _).
    rewrite Hm3, Hm2. unfold long_enough. rewrite Hr. lia.
Qed.

Lemma agree_write_single item sup : agree (_write_single item sup).
Proof.
  intros s1 s2 H. unfold _write_single, bind. cbn [gets].
  assert (Hm : min_len s1 <= min_len s2) by apply H.
  destruct (Z.gtb_spec (min_len s1) 1), (Z.gtb_spec (min_len s2) 1); try lia; cbn.
  - auto.
  - split; [reflexivity|]. apply filtered_view_record_left; [|exact H].
    unfold long_enough, item_count. cbn. lia.
  - split; [reflexivity|]. apply filtered_view_record_both; [|exact H].
    unfold long_enough, item_count. cbn. lia.
Qed.

Lemma agree_gets_minsupp : agree (gets _minsupp_abs).
Proof. apply agree_gets. intros s1 s2 H. apply H. Qed.

Lemma agree_gets_max_len : agree (gets max_len).
Proof. apply agree_gets. intros s1 s2 H. apply H. Qed.

Lemma agree_recursion_single : forall fuel database k p,
  agree (_recursion_single_items fuel database k p).
Proof.
  induction fuel as [|fuel IH]; intros database k p; cbn [_recursion_single_items].
  - apply agree_raise.
  - apply agree_bind; [apply agree_the_db|]. intros db.
    apply agree_bind; [apply agree_lift|]. intros m.
    apply agree_for_each. intros [item pseqs] [].
    apply agree_bind; [apply agree_gets_minsupp|]. intros minsupp.
    destruct (Py.len pseqs >=? minsupp); [|apply agree_ret].
    apply agree_bind; [apply agree_buf_write|]. intros [].
    apply agree_bind; [apply agree_buf_write|]. intros [].
    apply agree_bind; [apply agree_write_pattern_tokens|]. intros [].
    apply agree_bind; [apply agree_gets_max_len|]. intros maxlen.
    destruct (k <? maxlen); [apply IH | apply agree_ret].
Qed.

Lemma agree_recursion_multi : forall fuel database k p,
  agree (_recursion_multi fuel database k p).
Proof.
  induction fuel as [|fuel IH]; intros database k p; cbn [_recursion_multi].
  - apply agree_raise.
  - apply agree_bind; [apply agree_find_first_pos|]. intros fp.
    apply agree_bind; [apply agree_scan_multi|]. intros maps.
    apply agree_bind.
    + apply agree_for_each. intros [item pseqs] [].
      apply agree_bind; [apply agree_gets_minsupp|]. intros minsupp.
      destruct (Py.len pseqs >=? minsupp); [|apply agree_ret]. cbv zeta.
      apply agree_bind; [apply agree_buf_write|]. intros [].
      apply agree_bind; [apply agree_write_pattern_tokens|]. intros [].
      apply agree_bind; [apply agree_gets_max_len|]. intros maxlen.
      destruct (k <? maxlen); [apply IH | apply agree_ret].
    + intros []. apply agree_for_each. intros [item pseqs] [].
      apply agree_bind; [apply agree_gets_minsupp|]. intros minsupp.
      destruct (Py.len pseqs >=? minsupp); [|apply agree_ret]. cbv zeta.
      apply agree_bind; [apply agree_buf_write|]. intros [].
      apply agree_bind; [apply agree_buf_write|]. intros [].
      apply agree_bind; [apply agree_write_pattern_tokens|]. intros [].
      apply agree_bind; [apply agree_gets_max_len|]. intros maxlen.
      destruct (k <? maxlen); [apply IH | apply agree_ret].
Qed.

Lemma agree_grow_frequent_items build recursion m :
  (forall item sids, agree (build item sids)) ->
  (forall database k p, agree (recursion database k p)) ->
  agree (grow_frequent_items build recursion m).
Proof.
  intros Hb Hr. unfold grow_frequent_items. apply agree_for_each. intros [item sids] [].
  apply agree_bind; [apply agree_gets_minsupp|]. intros minsupp.
  destruct (Py.len sids >=? minsupp); [|apply agree_ret].
  apply agree_bind; [apply agree_write_single|]. intros [].
  apply agree_bind; [apply agree_gets_max_len|]. intros maxlen.
  destruct (maxlen >? 1); [|apply agree_ret].
  apply agree_bind; [apply agree_buf_write|]. intros [].
  apply agree_bind; [apply Hb|]. intros projected. apply Hr.
Qed.

Lemma agree_set_db db : agree (set_db db).
Proof.
  intros s1 s2 (H1 & H2 & H3 & H4 & H5 & H6 & H7 & H8). cbn. repeat split; auto.
Qed.

Lemma agree_set_flag b : agree (set_flag b).
Proof.
  intros s1 s2 (H1 & H2 & H3 & H4 & H5 & H6 & H7 & H8). cbn. repeat split; auto.
Qed.

Lemma agree_open_writer : agree open_writer.
Proof.
  intros s1 s2 (H1 & H2 & H3 & H4 & H5 & H6 & H7 & H8). cbn. repeat split; auto.
Qed.

Lemma agree_start_run db s : agree (start_run db s).
Proof.
  intros s1 s2 (H1 & H2 & H3 & H4 & H5 & H6 & H7 & H8). unfold start_run.
  destruct (minsupp_abs_of s (size db)) as [minsupp_abs|e]; [|reflexivity].
  cbn. repeat split; auto.
Qed.

Lemma agree_build first_projection sids :
  agree (db <- the_db ;; lift (build_projected first_projection db sids [])).
Proof. apply agree_bind; [apply agree_the_db | intros db; apply agree_lift]. Qed.

Lemma agree_prefixspan fuel output_file : agree (_prefixspan fuel output_file).
Proof.
  unfold _prefixspan.
  apply agree_bind; [apply agree_open_writer|]. intros [].
  apply agree_bind.
  { unfold _find_sequences_containing_items.
    apply agree_bind; [apply agree_set_flag|]. intros [].
    apply agree_bind; [apply agree_the_db|]. intros db.
    apply agree_bind; [apply agree_lift|]. intros r.
    apply agree_bind; [apply agree_set_flag|]. intros []. apply agree_ret. }
  intros m. apply agree_bind.
  { apply agree_gets. intros s1 s2 H. apply H. }
  intros flag. destruct flag.
  - unfold _prefixspan_with_multiple_items.
    apply agree_bind; [apply agree_the_db|]. intros db.
    apply agree_bind; [apply agree_gets_minsupp|]. intros minsupp.
    apply agree_bind; [apply agree_lift|]. intros db'.
    apply agree_bind; [apply agree_set_db|]. intros [].
    apply agree_grow_frequent_items.
    + intros item sids. apply agree_build.
    + apply agree_recursion_multi.
  - unfold _prefixspan_with_single_items.
    apply agree_bind; [apply agree_the_db|]. intros db.
    apply agree_bind; [apply agree_gets_minsupp|]. intros minsupp.
    apply agree_bind; [apply agree_lift|]. intros db'.
    apply agree_bind; [apply agree_set_db|]. intros [].
    apply agree_grow_frequent_items.
    + intros item sids. apply agree_build.
    + apply agree_recursion_single.
Qed.

Lemma agree_run_with_fuel fuel lines s output_file :
  agree (run_with_fuel fuel lines s output_file).
Proof.
  unfold run_with_fuel. destruct output_file; [apply agree_raise|].
  apply agree_bind; [apply agree_start_run|]. intros [].
  apply agree_bind; [apply agree_prefixspan|]. intros []. apply agree_set_db.
Qed.

Lemma filtered_view_init maxlen m1 m2 :
  m1 <= m2 -> filtered_view (init maxlen m1) (init maxlen m2).
Proof. intros H. repeat split. cbn. lia. Qed.

Lemma read_all_seq b : forall m a toks,
  read_all b (map Z.of_nat (seq a m)) = Some toks -> toks = firstn m (skipn a b).
Proof.
  induction m as [|m IH]; intros a toks; cbn [seq map read_all].
  - now intros [= <-].
  - rewrite getitem_of_nat.
    destruct (nth_error b a) as [v|] eqn:Ev; [|discriminate].
    destruct (read_all b (map Z.of_nat (seq (S a) m))) as [vs|] eqn:Er; [|discriminate].
    intros [= <-]. apply IH in Er. subst vs.
    assert (Hs : skipn a b = v :: skipn (S a) b).
    { clear -Ev. revert a Ev. induction b as [|x b IHb]; intros [|a] Ev; cbn in *;
        try discriminate.
      - now injection Ev as ->.
      - now apply IHb. }
    rewrite Hs. reflexivity.
Qed.

Lemma read_all_range b n toks :
  read_all b (Py.range n) = Some toks -> toks = firstn (Z.to_nat n) b.
Proof. unfold Py.range. intros H. now apply read_all_seq in H. Qed.

(** What one call of the writer does. *)
Lemma write_pattern_tokens_Ok e pseqs self self' :
  _write_pattern_tokens e pseqs self = Ok (tt, self') ->
  let n := count_items (firstn (Z.to_nat (e + 1)) (_buffer self)) in
  (min_len self <= n /\
   exists r, _writer self' = _writer self ++ [r] /\
             pattern_count self' = pattern_count self + 1 /\
             item_count r = n /\ snd r = Py.len pseqs) \/
  (n < min_len self /\ _writer self' = _writer self /\
   pattern_count self' = pattern_count self).
Proof.
  unfold _write_pattern_tokens, _pattern_length_in_buffer, bind.
  rewrite read_loop_spec.
  destruct (read_all (_buffer self) (Py.range (e + 1))) as [toks|] eqn:Er; [|discriminate].
  pose proof (read_all_range _ _ _ Er) as <-.
  cbn [gets].
  pose proof (logged_reads_fields (Py.range (e + 1)) self) as (Hm1 & Hw1 & Hc1).
  rewrite Hm1, pattern_length_fold. cbn [Z.add].
  destruct (Z.ltb_spec (count_items toks) (min_len self)).
  - intros [= <-]. right. auto.
  - rewrite read_loop_spec, logged_reads_buffer, Er. cbn [emit].
    intros [= <-]. left. split; [assumption|].
    pose proof (logged_reads_fields (Py.range (e + 1))
                  (logged_reads (Py.range (e + 1)) self)) as (_ & Hw2 & Hc2).
    eexists. cbn [with_record _writer pattern_count]. rewrite Hw2, Hw1, Hc2, Hc1.
    repeat split. apply decoded_record_items.
Qed.

(** C7. The minimum-length filter acts on output only.  A call of the
    writer writes one record and counts it exactly when the pattern in
    the buffer holds at least [min_len] items, and changes neither file
    nor counter otherwise.  [_write_single] writes the single item
    unless [min_len] exceeds 1.  Raising the minimum length changes
    nothing else: the run with the larger minimum length ends with the
    same error or writes exactly the records of the other run that are
    long enough, so the suppressed patterns are still explored and
    extended.  The pattern count of a completed run is the number of
    records written. *)
Theorem minimum_length_filter_output_only :
  (forall e pseqs self self',
      _write_pattern_tokens e pseqs self = Ok (tt, self') ->
      let n := count_items (firstn (Z.to_nat (e + 1)) (_buffer self)) in
      (min_len self <= n /\
       exists r, _writer self' = _writer self ++ [r] /\
                 pattern_count self' = pattern_count self + 1 /\
                 item_count r = n /\ snd r = Py.len pseqs) \/
      (n < min_len self /\ _writer self' = _writer self /\
       pattern_count self' = pattern_count self)) /\
  (forall item support self,
      _write_single item support self
      = Ok (tt, if min_len self >? 1 then self
                else with_record ([[item]], support) self)) /\
  (forall fuel lines minsup_relative output_file maximum_pattern_length m1 m2,
      m1 <= m2 ->
      match run_with_fuel fuel lines minsup_relative output_file
              (init maximum_pattern_length m1),
            run_with_fuel fuel lines minsup_relative output_file
              (init maximum_pattern_length m2) with
      | Ok (_, s1), Ok (_, s2) =>
          _writer s2 = filter (long_enough (Z.max 1 m2)) (_writer s1)
      | Raise e1, Raise e2 => e1 = e2
      | _, _ => False
      end) /\
  (forall fuel lines minsup_relative output_file self self',
      run_with_fuel fuel lines minsup_relative output_file self = Ok (tt, self') ->
      pattern_count self' = Py.len (_writer self')).
Proof.
  split; [|split; [|split]].
  - apply write_pattern_tokens_Ok.
  - intros item support self. unfold _write_single, bind. cbn [gets].
    destruct (min_len self >? 1); reflexivity.
  - intros fuel lines s out maxlen m1 m2 Hm.
    pose proof (agree_run_with_fuel fuel lines s out (init maxlen m1) (init maxlen m2)
                  (filtered_view_init maxlen m1 m2 Hm)) as H.
    unfold same_outcome in H.
    destruct (run_with_fuel fuel lines s out (init maxlen m1)) as [[[] s1]|e1] eqn:E1,
             (run_with_fuel fuel lines s out (init maxlen m2)) as [[[] s2]|e2] eqn:E2;
      try exact H.
    destruct H as [_ H]. apply run_with_fuel_Ok in E2 as (_ & Hmin & _).
    destruct H as (_ & _ & _ & _ & _ & _ & _ & Hw). rewrite Hw, Hmin. reflexivity.
  - intros fuel lines s out self self' H. now apply run_with_fuel_Ok in H.
Qed.

Lemma minimum_length_filter_output_only_witness :
  1 <= 2 /\
  match run_with_fuel 10 [[1; -1; 2; -1; 3; -1; -2]; [1; -1; 3; -1; -2]] (Finite 1) "out.txt"
          (init 10 1),
        run_with_fuel 10 [[1; -1; 2; -1; 3; -1; -2]; [1; -1; 3; -1; -2]] (Finite 1) "out.txt"
          (init 10 2) with
  | Ok (_, s1), Ok (_, s2) => _writer s2 = filter (long_enough (Z.max 1 2)) (_writer s1)
  | Raise e1, Raise e2 => e1 = e2
  | _, _ => False
  end.
Proof.
  split; [lia|].
  apply (proj1 (proj2 (proj2 minimum_length_filter_output_only)) 10%nat
           [[1; -1; 2; -1; 3; -1; -2]; [1; -1; 3; -1; -2]] (Finite 1) "out.txt"%string 10 1 2).
  lia.
Defined.

(** The minimum-length example: with [min_len = 2] only [{1} {3}] is
    written, and counted. *)
Example minimum_length_example :
  written (run [[1; -1; 2; -1; 3; -1; -2]; [1; -1; 3; -1; -2]] (Finite 1) "out.txt" (init 10 2))
  = Some ([([[1]; [3]], 2)], 1).
Proof. vm_compute. reflexivity. Qed.

(** * Loading *)

(** X1. Loading keeps the tokens of every line and appends a
    terminator exactly when the last token is not one: a list that ends
    with the terminator is stored unchanged, a list that ends with
    another token is stored with the terminator appended, and an empty
    token list stays an empty sequence without a terminator.  Hence
    every sequence loaded from a non-empty token list ends with the
    terminator and loading twice changes nothing.  The database holds
    one present sequence per line, at the index of the line. *)
Theorem load_appends_missing_terminator :
  (forall body, load_line (body ++ [-2]) = body ++ [-2]) /\
  (forall body t, t <> -2 -> load_line (body ++ [t]) = body ++ [t; -2]) /\
  load_line [] = [] /\
  (forall toks,
      toks <> [] ->
      exists body,
        load_line toks = body ++ [-2] /\ (toks = body ++ [-2] \/ toks = body)) /\
  (forall toks, load_line (load_line toks) = load_line toks) /\
  (forall lines,
      size (load_csv_tokens lines) = Py.len lines /\
      forall sid,
        0 <= sid < Py.len lines ->
        exists toks, Py.getitem lines sid = Some toks /\
                     get (load_csv_tokens lines) sid = Some (Some (load_line toks))).
Proof.
  assert (Hkeep : forall body, load_line (body ++ [-2]) = body ++ [-2]).
  { intros body.
    destruct (load_line_cases (body ++ [-2]))
      as [[E _] | [(b2 & _ & ->) | (b2 & t2 & E2 & Ht2 & _)]].
    - destruct body; discriminate.
    - reflexivity.
    - apply app_inj_tail in E2 as [_ <-]. contradiction. }
  assert (Hadd : forall body t, t <> -2 -> load_line (body ++ [t]) = body ++ [t; -2]).
  { intros body t Ht.
    destruct (load_line_cases (body ++ [t]))
      as [[E _] | [(b2 & E2 & _) | (b2 & t2 & _ & _ & ->)]].
    - destruct body; discriminate.
    - apply app_inj_tail in E2 as [_ ->]. contradiction.
    - now rewrite <- app_assoc. }
  split; [exact Hkeep|]. split; [exact Hadd|]. split; [reflexivity|].
  split; [|split].
  - intros toks Hne.
    destruct (load_line_cases toks) as [[-> _] | [(body & E & ->) | (body & t & E & Ht & ->)]].
    + contradiction.
    + exists body. auto.
    + exists toks. auto.
  - intros toks.
    destruct (load_line_cases toks) as [[-> ->] | [(body & E & ->) | (body & t & E & Ht & ->)]].
    + reflexivity.
    + subst toks. apply Hkeep.
    + apply Hkeep.
  - intros lines. split; [apply size_load_csv_tokens|].
    intros sid Hsid. unfold get, load_csv_tokens, Py.getitem, Py.len in *.
    destruct (Z.leb_spec 0 sid); [|lia].
    rewrite nth_error_map.
    destruct (nth_error lines (Z.to_nat sid)) as [toks|] eqn:E.
    + exists toks. split; reflexivity.
    + apply nth_error_None in E. lia.
Qed.

Lemma load_appends_missing_terminator_witness :
  2 <> -2 /\ load_line ([1; -1] ++ [2]) = [1; -1] ++ [2; -2].
Proof.
  split; [discriminate|].
  apply (proj1 (proj2 load_appends_missing_terminator) [1; -1] 2). discriminate.
Defined.

(** * Bounds of the threshold *)

(** X2. The absolute threshold is at least 1 whenever its computation
    succeeds.  For a finite relative support between 0 and 1 and at
    most [2 ^ 53] sequences the computation succeeds and the threshold
    is at most the number of sequences (or 1 for an empty database), so
    a pattern contained in every sequence is always frequent.  For a
    NaN relative support [ceil] raises ValueError; for an infinite one
    it raises OverflowError, or ValueError when there is no sequence
    (the product of an infinity and zero being NaN). *)
Theorem absolute_threshold_bounds :
  (forall (minsup_relative : float) (N t : Z),
      minsupp_abs_of minsup_relative N = Ok t -> 1 <= t) /\
  (forall (s : Q) (N : Z),
      (0 <= s <= 1)%Q -> 0 <= N <= 2 ^ 53 ->
      exists t, minsupp_abs_of (Finite s) N = Ok t /\ 1 <= t <= Z.max 1 N) /\
  (forall N, - 2 ^ 53 <= N <= 2 ^ 53 -> minsupp_abs_of NaN N = Raise ValueError) /\
  (forall negative N,
      - 2 ^ 53 <= N <= 2 ^ 53 -> N <> 0 ->
      minsupp_abs_of (Infinity negative) N = Raise OverflowError) /\
  (forall negative, minsupp_abs_of (Infinity negative) 0 = Raise ValueError).
Proof.
  split; [exact minsupp_abs_of_positive|]. split; [|split; [|split]].
  - intros s N Hs HN.
    destruct (minsupp_abs_of_unit s N Hs HN) as (p & _ & _ & Hofs & Hlo & _ & Hhi).
    exists (Z.max 1 (Qceiling p)). split; [exact Hofs|].
    apply Qceiling_resp_le in Hhi. rewrite Qceiling_Z in Hhi. lia.
  - intros N HN. unfold minsupp_abs_of, float_of_int. now rewrite round64_Z.
  - intros negative N HN HN0. unfold minsupp_abs_of, float_of_int.
    rewrite round64_Z by assumption. cbn [float_mul].
    destruct (Qeq_bool (inject_Z N) 0) eqn:E; [|reflexivity].
    apply Qeq_bool_iff in E. unfold Qeq in E. cbn in E. lia.
  - intros negative. reflexivity.
Qed.

Lemma absolute_threshold_bounds_witness :
  ((0 <= 1 # 2 <= 1)%Q /\ 0 <= 3 <= 2 ^ 53) /\
  exists t, minsupp_abs_of (Finite (1 # 2)) 3 = Ok t /\ 1 <= t <= Z.max 1 3.
Proof.
  assert (H : (0 <= 1 # 2 <= 1)%Q /\ 0 <= 3 <= 2 ^ 53).
  { split; split; discriminate. }
  split; [exact H|].
  exact (proj1 (proj2 absolute_threshold_bounds) (1 # 2)%Q 3 (proj1 H) (proj2 H)).
Defined.
(** * The flat pruning pass *)

Lemma surviving_items_cons m ms tok rest :
  surviving_items m ms (tok :: rest)
  = if tok =? -2 then []
    else if (tok >? 0) && is_frequent m ms tok then tok :: surviving_items m ms rest
    else surviving_items m ms rest.
Proof.
  unfold surviving_items. cbn [before_terminator].
  destruct (tok =? -2); [reflexivity|]. cbn [filter].
  destruct ((tok >? 0) && is_frequent m ms tok); reflexivity.
Qed.

Lemma prune_single_loop_kept m ms : forall rest out junk,
  In (-2) rest ->
  prune_single_loop m ms (length rest) (Z.of_nat (length (out ++ junk)))
    (out ++ junk ++ rest) (Z.of_nat (length out))
  = Ok (slot_of (out ++ surviving_items m ms rest)).
Proof.
  induction rest as [|tok rest IH]; intros out junk Hin; [destruct Hin|].
  assert (Hget : Py.getitem (out ++ junk ++ tok :: rest)
                   (Z.of_nat (length (out ++ junk))) = Some tok).
  { rewrite getitem_of_nat, app_assoc. apply nth_error_app_head. }
  assert (Hset : forall v, exists junk',
             Py.setitem (out ++ junk ++ tok :: rest) (Z.of_nat (length out)) v
             = Some ((out ++ [v]) ++ junk' ++ rest) /\
             length ((out ++ [v]) ++ junk') = S (length (out ++ junk))).
  { intros v. destruct junk as [|a junk].
    - exists []. cbn [app]. rewrite setitem_app. split.
      + now rewrite <- app_assoc.
      + rewrite !app_nil_r, length_app. cbn. lia.
    - exists (junk ++ [tok]). cbn [app]. rewrite setitem_app. split.
      + now rewrite <- !app_assoc.
      + rewrite !length_app. cbn. rewrite ?length_app. cbn. lia. }
  assert (Hskip : out ++ junk ++ tok :: rest = out ++ (junk ++ [tok]) ++ rest
                  /\ length (out ++ junk ++ [tok]) = S (length (out ++ junk))).
  { split; [now rewrite <- !app_assoc|]. rewrite !length_app. cbn. lia. }
  cbn [length prune_single_loop]. rewrite Hget.
  replace (Z.of_nat (length (out ++ junk)) + 1)
    with (Z.of_nat (S (length (out ++ junk)))) by lia.
  rewrite surviving_items_cons.
  destruct (Z.gtb_spec tok 0) as [Hpos | Hnpos].
  - assert (Hin' : In (-2) rest) by (destruct Hin; [lia | assumption]).
    destruct (Z.eqb_spec tok (-2)); [lia|]. cbn [andb].
    destruct (is_frequent m ms tok).
    + destruct (Hset tok) as (junk' & -> & Hlen). rewrite <- Hlen.
      replace (Z.of_nat (length out) + 1) with (Z.of_nat (length (out ++ [tok])))
        by (rewrite length_app; cbn; lia).
      rewrite IH by assumption. now rewrite <- app_assoc.
    + destruct Hskip as [-> Hlen]. rewrite <- Hlen.
      rewrite IH by assumption. reflexivity.
  - cbn [andb]. destruct (Z.eqb_spec tok (-2)) as [E2 | N2].
    + rewrite app_nil_r. destruct out as [|a out].
      * reflexivity.
      * destruct (Z.gtb_spec (Z.of_nat (length (a :: out))) 0); [|cbn in *; lia].
        destruct (Hset (-2)) as (junk' & -> & Hlen).
        unfold Py.slice_to.
        replace (Z.to_nat (Z.of_nat (length (a :: out)) + 1))
          with (length ((a :: out) ++ [(-2)%Z]) + 0)%nat
          by (rewrite length_app; cbn; lia).
        rewrite firstn_app_2. cbn [firstn]. rewrite app_nil_r. reflexivity.
    + assert (Hin' : In (-2) rest) by (destruct Hin; [lia | assumption]).
      destruct Hskip as [-> Hlen]. rewrite <- Hlen.
      rewrite IH by assumption. reflexivity.
Qed.

Lemma surviving_items_kind m ms seq t :
  In t (surviving_items m ms seq) ->
  t > 0 /\ is_frequent m ms t = true /\ In t (before_terminator seq).
Proof.
  unfold surviving_items. rewrite filter_In. intros [Hin Ht].
  apply andb_prop in Ht as [H1 H2]. repeat split; [lia | assumption | assumption].
Qed.

(** X3. After the pruning pass of [_prefixspan_with_single_items],
    every slot of a database of terminated sequences is [None] when no
    item of the sequence meets the threshold, and otherwise the items
    that meet it, in order, followed at once by the terminator: all
    separators and all other tokens are dropped.  The items are those
    that the itemset-preserving pass keeps. *)
Theorem prune_single_postcondition :
  forall (map_item_to_sids : Py.dict (list Z)) (minsupp_abs : Z) (db : SequenceDatabase),
    Forall (fun e => exists seq, e = Some seq /\ In (-2) seq) db ->
    exists db',
      prune_db (prune_single_entry map_item_to_sids minsupp_abs) db = Ok db' /\
      Forall2 (pruned_single_slot map_item_to_sids minsupp_abs) db db' /\
      forall seq,
        (forall t, In t (surviving_items map_item_to_sids minsupp_abs seq) ->
                   t > 0 /\ is_frequent map_item_to_sids minsupp_abs t = true) /\
        filter (fun t => t >? 0) (kept_multi map_item_to_sids minsupp_abs seq 0)
        = surviving_items map_item_to_sids minsupp_abs seq.
Proof.
  intros m ms db Hdb.
  assert (G : exists db',
             prune_db (prune_single_entry m ms) db = Ok db' /\
             Forall2 (pruned_single_slot m ms) db db').
  { induction Hdb as [|e db (seq & -> & Hin) _ (db' & Hrun & Hall)].
    - exists []. split; [reflexivity | constructor].
    - pose proof (prune_single_loop_kept m ms seq [] [] Hin) as Hent.
      cbn [app length] in Hent. change (Z.of_nat 0) with 0 in Hent.
      exists (slot_of (surviving_items m ms seq) :: db'). split.
      + cbn [prune_db prune_single_entry]. now rewrite Hent, Hrun.
      + constructor; [|assumption]. now exists seq. }
  destruct G as (db' & Hrun & Hall). exists db'. repeat split; auto.
  - now apply surviving_items_kind in H.
  - now apply surviving_items_kind in H.
  - apply kept_multi_items.
Qed.

Lemma prune_single_postcondition_witness :
  exists db',
    prune_db (prune_single_entry [(1, [0; 1]); (2, [0]); (3, [0; 1])] 2)
      [Some [1; -1; 2; -1; 3; -1; -2]; Some [1; -1; 3; -1; -2]] = Ok db' /\
    Forall2 (pruned_single_slot [(1, [0; 1]); (2, [0]); (3, [0; 1])] 2)
      [Some [1; -1; 2; -1; 3; -1; -2]; Some [1; -1; 3; -1; -2]] db' /\
    forall seq,
      (forall t, In t (surviving_items [(1, [0; 1]); (2, [0]); (3, [0; 1])] 2 seq) ->
                 t > 0 /\ is_frequent [(1, [0; 1]); (2, [0]); (3, [0; 1])] 2 t = true) /\
      filter (fun t => t >? 0) (kept_multi [(1, [0; 1]); (2, [0]); (3, [0; 1])] 2 seq 0)
      = surviving_items [(1, [0; 1]); (2, [0]); (3, [0; 1])] 2 seq.
Proof.
  apply (prune_single_postcondition [(1, [0; 1]); (2, [0]); (3, [0; 1])] 2).
  repeat constructor; eexists; (split; [reflexivity | simpl; tauto]).
Defined.

Example prune_single_example :
  prune_db (prune_single_entry [(1, [0; 1]); (2, [0]); (3, [0; 1])] 2)
    [Some [1; -1; 2; -1; 3; -1; -2]; Some [1; -1; 3; -1; -2]; Some [2; -1; -2]]
  = Ok [Some [1; 3; -2]; Some [1; 3; -2]; None].
Proof. reflexivity. Qed.

(** * Dictionaries *)

Lemma dict_get_set_same {V : Type} (m : Py.dict V) k v :
  Py.get (Py.set m k v) k = Some v.
Proof.
  induction m as [|[k' v'] m IH]; cbn [Py.set Py.get].
  - now rewrite Z.eqb_refl.
  - destruct (Z.eqb_spec k' k) as [-> | N]; cbn [Py.get].
    + now rewrite Z.eqb_refl.
    + destruct (Z.eqb_spec k' k); [contradiction | exact IH].
Qed.

Lemma dict_get_set_other {V : Type} (m : Py.dict V) k k' v :
  k' <> k -> Py.get (Py.set m k v) k' = Py.get m k'.
Proof.
  intros N. induction m as [|[k0 v0] m IH]; cbn [Py.set Py.get].
  - destruct (Z.eqb_spec k k'); [congruence | reflexivity].
  - destruct (Z.eqb_spec k0 k) as [-> | N0]; cbn [Py.get].
    + destruct (Z.eqb_spec k k'); [congruence | reflexivity].
    + destruct (Z.eqb_spec k0 k'); [reflexivity | exact IH].
Qed.

Lemma dict_get_None_keys {V : Type} (m : Py.dict V) k :
  Py.get m k = None <-> ~ In k (map fst m).
Proof.
  induction m as [|[k' v'] m IH]; cbn [Py.get map fst In]; [tauto|].
  destruct (Z.eqb_spec k' k) as [-> | N].
  - split; [discriminate | intros H; exfalso; apply H; now left].
  - rewrite IH. intuition.
Qed.

Lemma dict_set_keys {V : Type} (m : Py.dict V) k v :
  map fst (Py.set m k v)
  = match Py.get m k with Some _ => map fst m | None => map fst m ++ [k] end.
Proof.
  induction m as [|[k' v'] m IH]; cbn [Py.set Py.get map fst app]; [reflexivity|].
  destruct (Z.eqb_spec k' k) as [-> | N]; cbn [map fst]; [reflexivity|].
  rewrite IH. now destruct (Py.get m k).
Qed.

Lemma dict_In_get {V : Type} (m : Py.dict V) k v :
  NoDup (map fst m) -> In (k, v) m -> Py.get m k = Some v.
Proof.
  induction m as [|[k' v'] m IH]; cbn [map fst In Py.get]; [tauto|].
  intros Hnd [E | Hin].
  - injection E as -> ->. now rewrite Z.eqb_refl.
  - inversion Hnd as [|? ? Hnot Hnd']; subst.
    destruct (Z.eqb_spec k' k) as [-> | N]; [|auto].
    exfalso. apply Hnot. change k with (fst (k, v)). now apply in_map.
Qed.

(** [m.setdefault(k, []).append(x)] extends the list of [k] and keeps
    the other lists; a new key goes to the end. *)
Lemma dict_append_get {V : Type} (m : Py.dict (list V)) k x k' :
  Py.get_default (dict_append m k x) k' []
  = if k' =? k then Py.get_default m k [] ++ [x] else Py.get_default m k' [].
Proof.
  unfold dict_append, Py.setdefault, Py.get_default.
  destruct (Py.get m k) as [lst|] eqn:E.
  - destruct (Z.eqb_spec k' k) as [-> | N].
    + now rewrite dict_get_set_same.
    + now rewrite dict_get_set_other.
  - destruct (Z.eqb_spec k' k) as [-> | N].
    + now rewrite dict_get_set_same.
    + now rewrite !dict_get_set_other.
Qed.

Lemma dict_append_key_list {V : Type} (m : Py.dict (list V)) k x :
  map fst (dict_append m k x)
  = if Py.mem k (map fst m) then map fst m else map fst m ++ [k].
Proof.
  unfold dict_append, Py.setdefault.
  destruct (Py.get m k) as [lst|] eqn:E.
  - rewrite dict_set_keys, E.
    assert (H : In k (map fst m)).
    { apply dict_get_In in E. change k with (fst (k, lst)). now apply in_map. }
    apply mem_In in H. now rewrite H.
  - rewrite dict_set_keys, dict_get_set_same, dict_set_keys, E.
    apply dict_get_None_keys in E.
    destruct (Py.mem k (map fst m)) eqn:M; [|reflexivity].
    apply mem_In in M. contradiction.
Qed.

Lemma dict_set_new {V : Type} (m : Py.dict V) k v :
  Py.get m k = None -> Py.set m k v = m ++ [(k, v)].
Proof.
  induction m as [|[k' v'] m IH]; cbn [Py.set Py.get app]; [reflexivity|].
  destruct (Z.eqb_spec k' k); [discriminate|]. intros H. now rewrite IH.
Qed.

Lemma dict_set_last {V : Type} (m : Py.dict V) k d v :
  Py.get m k = None -> Py.set (m ++ [(k, d)]) k v = m ++ [(k, v)].
Proof.
  induction m as [|[k' v'] m IH]; cbn [Py.set Py.get app].
  - now rewrite Z.eqb_refl.
  - destruct (Z.eqb_spec k' k); [discriminate|]. intros H. now rewrite IH.
Qed.

Lemma dict_set_In {V : Type} (m : Py.dict V) k v k' l :
  In (k', l) (Py.set m k v) -> l = v \/ In (k', l) m.
Proof.
  induction m as [|[k0 v0] m IH]; cbn [Py.set In].
  - intros [[= <- <-] | []]. now left.
  - destruct (Z.eqb_spec k0 k) as [-> | N]; cbn [In].
    + intros [[= <- <-] | H]; auto.
    + intros [H | H]; auto. apply IH in H. tauto.
Qed.

Lemma dict_append_In {V : Type} (m : Py.dict (list V)) k x k' l :
  In (k', l) (dict_append m k x) ->
  l <> [] \/ In (k', l) m.
Proof.
  unfold dict_append, Py.setdefault.
  destruct (Py.get m k) as [lst|] eqn:E; intros H.
  - apply dict_set_In in H as [-> | H]; [left; now destruct lst | now right].
  - rewrite (dict_set_new _ _ _ E), (dict_set_last _ _ _ _ E) in H.
    apply in_app_or in H as [H | [[= <- <-] | []]]; [now right | left; discriminate].
Qed.

(** * The dictionary of the frequent item pass *)

Lemma items_of_cons tok rest :
  items_of (tok :: rest)
  = if tok =? -2 then [] else if tok >? 0 then tok :: items_of rest else items_of rest.
Proof.
  unfold items_of. cbn [before_terminator].
  destruct (tok =? -2); [reflexivity|]. cbn [filter]. reflexivity.
Qed.

Lemma mem_cons x y s : Py.mem x (y :: s) = (x =? y) || Py.mem x s.
Proof. reflexivity. Qed.

(** The dictionary after the tokens [seq] of sequence [sid]: the id is
    appended once to the list of every item of the sequence. *)
Lemma find_in_sequence_get sid (base : Z -> list Z) : forall seq count seen m flag,
  (forall item, Py.get_default m item []
                = base item ++ (if Py.mem item seen then [sid] else [])) ->
  forall item,
    Py.get_default (fst (find_in_sequence sid seq count seen (m, flag))) item []
    = base item ++ (if Py.mem item seen || Py.mem item (items_of seq) then [sid] else []).
Proof.
  induction seq as [|tok rest IH]; intros count seen m flag Hm item.
  - cbn. rewrite orb_false_r. apply Hm.
  - cbn [find_in_sequence]. rewrite items_of_cons.
    destruct (Z.gtb_spec tok 0) as [Hpos | Hnpos].
    + destruct (Z.eqb_spec tok (-2)); [lia|].
      destruct (Py.mem tok seen) eqn:Hseen; cbn [negb].
      * rewrite (IH _ _ _ _ Hm). rewrite mem_cons.
        destruct (Z.eqb_spec item tok) as [-> | N]; [|reflexivity].
        rewrite Hseen. reflexivity.
      * rewrite IH.
        -- rewrite !mem_cons. now destruct (item =? tok), (Py.mem item seen).
        -- intros it. rewrite dict_append_get, mem_cons.
           destruct (Z.eqb_spec it tok) as [-> | N]; cbn [orb]; [|apply Hm].
           rewrite Hm, Hseen, app_nil_r. reflexivity.
    + destruct (Z.eqb_spec tok (-1)) as [E1 | N1].
      * destruct (Z.eqb_spec tok (-2)); [lia|]. now apply IH.
      * destruct (Z.eqb_spec tok (-2)) as [E2 | N2].
        -- cbn. rewrite orb_false_r. apply Hm.
        -- now apply IH.
Qed.

(** Keys are items, no key is repeated and no list is empty. *)
Lemma find_in_sequence_key_set sid : forall seq count seen m flag,
  NoDup (map fst m) -> Forall (fun kv => fst kv > 0 /\ snd kv <> []) m ->
  let m' := fst (find_in_sequence sid seq count seen (m, flag)) in
  NoDup (map fst m') /\ Forall (fun kv => fst kv > 0 /\ snd kv <> []) m'.
Proof.
  induction seq as [|tok rest IH]; intros count seen m flag Hnd Hall; cbn zeta.
  - cbn. auto.
  - cbn [find_in_sequence].
    destruct (Z.gtb_spec tok 0) as [Hpos | Hnpos].
    + destruct (negb (Py.mem tok seen)); [|now apply IH].
      apply IH.
      * rewrite dict_append_key_list. destruct (Py.mem tok (map fst m)) eqn:M; [assumption|].
        apply NoDup_app; [assumption | repeat constructor; intros [] | ].
        intros a Ha [<- | []].
        apply mem_In in Ha. congruence.
      * apply Forall_forall. intros [k l] Hin. cbn [fst snd].
        assert (Hk : In k (map fst (dict_append m tok sid))).
        { change k with (fst (k, l)). now apply in_map. }
        split.
        -- rewrite dict_append_key_list in Hk.
           destruct (Py.mem tok (map fst m)).
           ++ apply in_map_iff in Hk as ([k0 l0] & <- & Hk).
              rewrite Forall_forall in Hall. now apply (Hall _ Hk).
           ++ apply in_app_or in Hk as [Hk | [<- | []]]; [|lia].
              apply in_map_iff in Hk as ([k0 l0] & <- & Hk).
              rewrite Forall_forall in Hall. now apply (Hall _ Hk).
        -- apply dict_append_In in Hin as [H | H]; [assumption|].
           rewrite Forall_forall in Hall. now apply (Hall _ H).
    + destruct (tok =? -1); [now apply IH|].
      destruct (tok =? -2); [cbn; auto | now apply IH].
Qed.

Lemma find_loop_get : forall seqs sid m flag (base : Z -> list Z),
  NoDup (map fst m) -> Forall (fun kv => fst kv > 0 /\ snd kv <> []) m ->
  (forall item, Py.get_default m item [] = base item) ->
  exists m' flag',
    find_loop (map Some seqs) sid (m, flag) = Ok (m', flag') /\
    NoDup (map fst m') /\ Forall (fun kv => fst kv > 0 /\ snd kv <> []) m' /\
    forall item, Py.get_default m' item [] = base item ++ containing seqs sid item.
Proof.
  induction seqs as [|seq rest IH]; intros sid m flag base Hnd Hall Hm.
  - exists m, flag. cbn. repeat split; auto. intros. now rewrite app_nil_r.
  - cbn [map find_loop].
    pose proof (find_in_sequence_get sid base seq 0 [] m flag) as Hget.
    pose proof (find_in_sequence_key_set sid seq 0 [] m flag Hnd Hall) as [Hnd1 Hall1].
    unfold Py.dict in *.
    destruct (find_in_sequence sid seq 0 [] (m, flag)) as [m1 flag1] eqn:E.
    cbn [fst] in *.
    destruct (IH (sid + 1) m1 flag1
                (fun item => base item ++ (if Py.mem item (items_of seq) then [sid] else []))
                Hnd1 Hall1) as (m' & flag' & Hrun & Hnd' & Hall' & Hget').
    { intros item. apply Hget.
      intros it. cbn. rewrite app_nil_r. apply Hm. }
    exists m', flag'. repeat split; auto.
    intros item. rewrite Hget'. cbn [containing].
    rewrite <- app_assoc. now destruct (Py.mem item (items_of seq)).
Qed.

Lemma containing_spec : forall seqs sid item x,
  In x (containing seqs sid item) <->
  exists n seq, x = sid + Z.of_nat n /\ nth_error seqs n = Some seq /\ In item (items_of seq).
Proof.
  induction seqs as [|seq rest IH]; intros sid item x; cbn [containing].
  - split; [intros [] | intros (n & seq & _ & H & _); now destruct n].
  - assert (Hrest : In x (containing rest (sid + 1) item) <->
                    exists n seq0, x = sid + Z.of_nat (S n) /\
                                   nth_error (seq :: rest) (S n) = Some seq0 /\
                                   In item (items_of seq0)).
    { rewrite IH. split; intros (n & s & -> & H1 & H2); exists n, s; repeat split; auto; lia. }
    destruct (Py.mem item (items_of seq)) eqn:M.
    + cbn [In]. rewrite Hrest. split.
      * intros [<- | (n & s & H)]; [|now exists (S n), s].
        exists O, seq. repeat split; [lia|]. now apply mem_In.
      * intros ([|n] & s & -> & H1 & H2); [left; lia | right; now exists n, s].
    + rewrite Hrest. split.
      * intros (n & s & H). now exists (S n), s.
      * intros ([|n] & s & -> & H1 & H2); [|now exists n, s].
        injection H1 as <-. apply mem_In in H2. congruence.
Qed.

Lemma containing_ascending : forall seqs sid item lo,
  lo <= sid -> ascending_from lo (containing seqs sid item).
Proof.
  induction seqs as [|seq rest IH]; intros sid item lo Hlo; cbn [containing]; [exact I|].
  destruct (Py.mem item (items_of seq)).
  - cbn [ascending_from]. split; [assumption|]. apply IH. lia.
  - apply IH. lia.
Qed.

Lemma containing_length : forall seqs sid item,
  length (containing seqs sid item)
  = length (filter (fun seq => Py.mem item (items_of seq)) seqs).
Proof.
  induction seqs as [|seq rest IH]; intros sid item; cbn [containing filter]; [reflexivity|].
  destruct (Py.mem item (items_of seq)); cbn [length]; now rewrite IH.
Qed.

Lemma ascending_from_NoDup : forall l lo,
  ascending_from lo l -> NoDup l /\ Forall (fun x => lo <= x) l.
Proof.
  induction l as [|x l IH]; intros lo; cbn [ascending_from].
  - intros _. split; constructor.
  - intros [Hlo H]. destruct (IH _ H) as [Hnd Hall]. split.
    + constructor; [|assumption]. intros Hin.
      rewrite Forall_forall in Hall. specialize (Hall _ Hin). lia.
    + constructor; [assumption|]. eapply Forall_impl; [|exact Hall]. cbn. intros; lia.
Qed.

(** X4. [_find_sequences_containing_items] returns a dictionary whose
    keys are the items of the database, each once; the list of an item
    holds, in increasing order and without repetition, the ids of the
    sequences that hold the item before their terminator, so its length
    is the number of those sequences; no list is empty.  The object is
    changed in the multi-item flag only. *)
Theorem frequent_item_lists :
  forall (seqs : list (list Z)) (self : PrefixSpan),
    _db self = Some (map Some seqs) ->
    exists map_item_to_sids flag,
      _find_sequences_containing_items self = Ok (map_item_to_sids, with_flag flag self) /\
      NoDup (map fst map_item_to_sids) /\
      (forall item, Py.get_default map_item_to_sids item [] = containing seqs 0 item) /\
      (forall item sids,
          In (item, sids) map_item_to_sids ->
          item > 0 /\ sids <> [] /\ sids = containing seqs 0 item) /\
      (forall item,
          ascending_from 0 (containing seqs 0 item) /\
          NoDup (containing seqs 0 item) /\
          Py.len (containing seqs 0 item)
          = Py.len (filter (fun seq => Py.mem item (items_of seq)) seqs) /\
          forall sid,
            In sid (containing seqs 0 item) <->
            0 <= sid /\ exists seq, Py.getitem seqs sid = Some seq /\ In item (items_of seq)).
Proof.
  intros seqs self Hdb.
  destruct (find_loop_get seqs 0 [] false (fun _ => [])) as (m & flag & Hrun & Hnd & Hall & Hget);
    [constructor | constructor | reflexivity |].
  assert (Hget' : forall item, Py.get_default m item [] = containing seqs 0 item)
    by (intros item; apply Hget).
  clear Hget.
  exists m, flag. split; [|split; [exact Hnd|split; [exact Hget'|split]]].
  - unfold _find_sequences_containing_items, bind, set_flag, the_db, lift, ret.
    cbn [with_flag _db]. rewrite Hdb, Hrun. cbn [fst snd]. reflexivity.
  - intros item sids Hin.
    rewrite Forall_forall in Hall. destruct (Hall _ Hin) as [Hpos Hne]. cbn [fst snd] in *.
    repeat split; auto.
    rewrite <- Hget'. unfold Py.get_default. now rewrite (dict_In_get _ _ _ Hnd Hin).
  - intros item. split; [apply containing_ascending; lia|].
    split; [apply (ascending_from_NoDup _ 0), containing_ascending; lia|].
    split; [unfold Py.len; now rewrite containing_length|].
    intros sid. rewrite containing_spec. split.
    + intros (n & seq & -> & Hn & Hin). split; [lia|]. exists seq. split; [|assumption].
      cbn [Z.add]. now rewrite getitem_of_nat.
    + intros (Hsid & seq & Hg & Hin). exists (Z.to_nat sid), seq.
      repeat split; [lia | | assumption].
      unfold Py.getitem in Hg. destruct (Z.leb_spec 0 sid); [assumption | lia].
Qed.

Lemma frequent_item_lists_witness :
  exists map_item_to_sids flag,
    _find_sequences_containing_items
      (started (load_csv_tokens [[1; -1; 2; -1; -2]; [2; 2; -1; -2]]) 2 (init 10 1))
    = Ok (map_item_to_sids,
          with_flag flag
            (started (load_csv_tokens [[1; -1; 2; -1; -2]; [2; 2; -1; -2]]) 2 (init 10 1))) /\
    Py.get_default map_item_to_sids 2 [] = [0; 1].
Proof.
  destruct (frequent_item_lists [[1; -1; 2; -1; -2]; [2; 2; -1; -2]]
              (started (load_csv_tokens [[1; -1; 2; -1; -2]; [2; 2; -1; -2]]) 2 (init 10 1))
              eq_refl) as (m & flag & Hrun & _ & Hget & _).
  exists m, flag. split; [exact Hrun|]. exact (Hget 2).
Defined.

(** * The steps of a run *)

Lemma load_csv_tokens_map lines :
  load_csv_tokens lines = map Some (map load_line lines).
Proof. unfold load_csv_tokens. now rewrite map_map. Qed.

(** A run is the computation of the threshold, the frequent item pass,
    the pruning pass of the path chosen by the flag, and the growth loop
    of that path. *)
Lemma run_with_fuel_steps fuel lines minsup_relative c output_file self :
  run_with_fuel fuel lines minsup_relative (String c output_file) self
  = match minsupp_abs_of minsup_relative (size (load_csv_tokens lines)) with
    | Ok minsupp_abs =>
        match find_loop (load_csv_tokens lines) 0 ([], false) with
        | Ok (m, flag) =>
            match prune_db (prune_entry_of flag m minsupp_abs)
                    (load_csv_tokens lines) with
            | Ok db' =>
                (grow_of flag fuel m ;;; set_db None)
                  (searching lines minsupp_abs flag db' self)
            | Raise e => Raise e
            end
        | Raise e => Raise e
        end
    | Raise e => Raise e
    end.
Proof.
  unfold run_with_fuel, _prefixspan, _find_sequences_containing_items, bind, start_run,
    open_writer, set_flag, the_db, lift, gets, ret.
  destruct (minsupp_abs_of minsup_relative (size (load_csv_tokens lines)))
    as [minsupp_abs|e]; [|reflexivity].
  cbn [_db with_flag with_writer started _contains_itemsets_with_multiple_items].
  destruct (find_loop (load_csv_tokens lines) 0 ([], false)) as [[m flag]|e];
    [|reflexivity].
  cbn [fst snd _db with_flag with_writer started _contains_itemsets_with_multiple_items].
  destruct flag.
  - unfold _prefixspan_with_multiple_items, bind, the_db, gets, lift, set_db, grow_of,
      prune_entry_of, searching.
    cbn [_db with_flag with_writer started _minsupp_abs].
    destruct (prune_db _ _); reflexivity.
  - unfold _prefixspan_with_single_items, bind, the_db, gets, lift, set_db, grow_of,
      prune_entry_of, searching.
    cbn [_db with_flag with_writer started _minsupp_abs].
    destruct (prune_db _ _); reflexivity.
Qed.

(** * Supports lie between the threshold and the number of sequences *)

Section Supports.

Variable s0 : PrefixSpan.
Variable hi : Z.

Let ok := support_between (_minsupp_abs s0) hi.

Lemma triple_gets_minsupp :
  triple (grows s0 ok) (gets _minsupp_abs)
    (fun a s => a = _minsupp_abs s0 /\ grows s0 ok s) any_error.
Proof.
  intros self Hs. cbn. split; [|exact Hs].
  destruct Hs as [Hc _]. unfold same_config in Hc. tauto.
Qed.

Lemma recursion_single_support :
  forall fuel database k last_buf_pos,
    Py.len database <= hi ->
    triple (grows s0 ok) (_recursion_single_items fuel database k last_buf_pos)
      (fun _ => grows s0 ok) any_error.
Proof.
  induction fuel as [|fuel IH]; intros database k p Hhi; cbn [_recursion_single_items].
  - intros self _. exact I.
  - eapply triple_bind; [apply triple_the_db; exact I|]. intros db.
    eapply triple_bind; [apply triple_lift; intros; exact I|]. intros m.
    apply triple_pure. intros Hscan.
    apply (scan_single_at_most db database 0 [] m (entries_nil _)) in Hscan.
    cbn [Nat.add] in Hscan.
    eapply triple_pre; [|apply (triple_for_each (fun _ _ => grows s0 ok))]; [cbn; tauto|].
    intros done [item pseqs] rest [] Hm.
    assert (Hlen : Py.len pseqs <= Py.len database).
    { assert (Hin : In (item, pseqs) m) by (rewrite Hm; apply in_elt).
      destruct (entries_In _ _ _ _ Hscan Hin) as [_ H]. unfold at_most, Py.len in *. lia. }
    eapply triple_bind; [apply triple_gets_minsupp|]. intros minsupp.
    apply triple_pure. intros ->.
    destruct (Z.geb_spec (Py.len pseqs) (_minsupp_abs s0)); [|apply triple_ret; tauto].
    eapply triple_bind; [apply triple_buf_write_grows|].
    intros []. eapply triple_bind; [apply triple_buf_write_grows|]. intros [].
    eapply triple_bind.
    { apply triple_write_pattern_tokens_grows. intros pattern.
      unfold ok, support_between. cbn [snd]. lia. }
    intros []. eapply triple_bind; [apply triple_gets|]. intros maxlen.
    destruct (k <? maxlen).
    + eapply triple_pre; [|apply IH]; [cbn; tauto | lia].
    + apply triple_ret. tauto.
Qed.

Lemma recursion_multi_support :
  forall fuel database k last_buf_pos,
    Py.len database <= hi ->
    triple (grows s0 ok) (_recursion_multi fuel database k last_buf_pos)
      (fun _ => grows s0 ok) any_error.
Proof.
  induction fuel as [|fuel IH]; intros database k p Hhi; cbn [_recursion_multi].
  - intros self _. exact I.
  - eapply triple_bind;
      [apply triple_find_first_pos_inv, grows_log_invariant|]. intros fp.
    eapply triple_bind; [apply triple_scan_multi_grows|]. intros maps.
    eapply triple_pre with (P := fun s => (entries (at_most (length database)) (fst maps) /\
                                 entries (at_most (length database)) (snd maps)) /\
                                grows s0 ok s); [cbn; tauto|].
    apply triple_pure. intros [Hp Hn].
    assert (Hlen : forall m done item pseqs rest,
               entries (at_most (length database)) m ->
               m = done ++ (item, pseqs) :: rest -> Py.len pseqs <= Py.len database).
    { intros m done item pseqs rest Hm Em.
      assert (Hin : In (item, pseqs) m) by (rewrite Em; apply in_elt).
      destruct (entries_In _ _ _ _ Hm Hin) as [_ H]. unfold at_most, Py.len in *. lia. }
    eapply triple_bind.
    + apply (triple_for_each (fun _ _ => grows s0 ok)).
      intros done [item pseqs] rest [] Em.
      pose proof (Hlen _ _ _ _ _ Hp Em).
      eapply triple_bind; [apply triple_gets_minsupp|]. intros minsupp.
      apply triple_pure. intros ->.
      destruct (Z.geb_spec (Py.len pseqs) (_minsupp_abs s0)); [|apply triple_ret; tauto].
      cbv zeta.
      eapply triple_bind; [apply triple_buf_write_grows|].
      intros []. eapply triple_bind.
      { apply triple_write_pattern_tokens_grows. intros pattern.
        unfold ok, support_between. cbn [snd]. lia. }
      intros []. eapply triple_bind; [apply triple_gets|]. intros maxlen.
      destruct (k <? maxlen).
      * eapply triple_pre; [|apply IH]; [cbn; tauto | lia].
      * apply triple_ret. tauto.
    + intros [].
      apply (triple_for_each (fun _ _ => grows s0 ok)).
      intros done [item pseqs] rest [] Em.
      pose proof (Hlen _ _ _ _ _ Hn Em).
      eapply triple_bind; [apply triple_gets_minsupp|]. intros minsupp.
      apply triple_pure. intros ->.
      destruct (Z.geb_spec (Py.len pseqs) (_minsupp_abs s0)); [|apply triple_ret; tauto].
      cbv zeta.
      eapply triple_bind; [apply triple_buf_write_grows|].
      intros []. eapply triple_bind; [apply triple_buf_write_grows|].
      intros []. eapply triple_bind.
      { apply triple_write_pattern_tokens_grows. intros pattern.
        unfold ok, support_between. cbn [snd]. lia. }
      intros []. eapply triple_bind; [apply triple_gets|]. intros maxlen.
      destruct (k <? maxlen).
      * eapply triple_pre; [|apply IH]; [cbn; tauto | lia].
      * apply triple_ret. tauto.
Qed.

Lemma grow_frequent_items_support first_projection recursion map_item_to_sids :
  (forall database k p,
      Py.len database <= hi ->
      triple (grows s0 ok) (recursion database k p) (fun _ => grows s0 ok) any_error) ->
  Forall (fun kv => Py.len (snd kv) <= hi) map_item_to_sids ->
  triple (grows s0 ok)
    (grow_frequent_items
       (fun item sids =>
          db <- the_db ;; lift (build_projected (first_projection item) db sids []))
       recursion map_item_to_sids)
    (fun _ => grows s0 ok) any_error.
Proof.
  intros Hrec Hm. unfold grow_frequent_items.
  apply (triple_for_each (fun _ _ => grows s0 ok)).
  intros done [item sids] rest [] Em.
  assert (Hsids : Py.len sids <= hi).
  { rewrite Forall_forall in Hm. apply (Hm (item, sids)). rewrite Em. apply in_elt. }
  eapply triple_bind; [apply triple_gets_minsupp|]. intros minsupp.
  apply triple_pure. intros ->.
  destruct (Z.geb_spec (Py.len sids) (_minsupp_abs s0)); [|apply triple_ret; tauto].
  eapply triple_bind.
  { apply triple_write_single_grows. unfold ok, support_between. cbn [snd]. lia. }
  intros []. eapply triple_bind; [apply triple_gets|]. intros maxlen.
  destruct (maxlen >? 1); [|apply triple_ret; tauto].
  eapply triple_bind.
  { eapply triple_pre; [|apply (triple_buf_write_grows s0 ok)]. cbn. tauto. }
  intros []. eapply triple_bind with
    (R := fun projected s => Py.len projected <= Py.len sids /\ grows s0 ok s).
  { intros self Hs.
    destruct ((db <- the_db;; lift (build_projected (first_projection item) db sids [])) self)
      as [[proj s1]|e] eqn:Eb; [|exact I].
    apply build_projected_state in Eb as (-> & db & _ & Hb).
    split; [|exact Hs]. apply build_projected_length in Hb.
    unfold Py.len. cbn [length] in Hb. lia. }
  intros projected. apply triple_pure. intros Hp. apply Hrec. lia.
Qed.

End Supports.

Lemma find_loop_supports lines m flag :
  find_loop (load_csv_tokens lines) 0 ([], false) = Ok (m, flag) ->
  Forall (fun kv => Py.len (snd kv) <= Py.len lines) m.
Proof.
  intros Hrun. rewrite load_csv_tokens_map in Hrun.
  destruct (find_loop_get (map load_line lines) 0 [] false (fun _ => []))
    as (m' & flag' & Hrun' & Hnd & Hall & Hget); [constructor | constructor | reflexivity |].
  rewrite Hrun in Hrun'. injection Hrun' as <- <-.
  apply Forall_forall. intros [item sids] Hin. cbn [snd].
  pose proof (Hget item) as Hg. unfold Py.get_default in Hg.
  rewrite (dict_In_get _ _ _ Hnd Hin) in Hg. cbn [app] in Hg. subst sids.
  unfold Py.len. rewrite containing_length.
  pose proof (filter_length_le (fun seq => Py.mem item (items_of seq)) (map load_line lines)) as H.
  rewrite length_map in H. lia.
Qed.

(** X5. Every record of a completed run carries a support that is at
    least the absolute threshold of the run, which is at least 1, and
    at most the number of loaded sequences; the threshold is the one
    computed from the relative support and the number of sequences, and
    the object holds it when the run completes. *)
Theorem record_supports_bounded :
  forall (fuel : nat) (lines : list (list Z)) (minsup_relative : float)
         (output_file : string) (self self' : PrefixSpan),
    run_with_fuel fuel lines minsup_relative output_file self = Ok (tt, self') ->
    minsupp_abs_of minsup_relative (Py.len lines) = Ok (_minsupp_abs self') /\
    Forall (fun r => 1 <= _minsupp_abs self' <= snd r /\ snd r <= Py.len lines)
      (_writer self').
Proof.
  intros fuel lines s out self self' Hrun.
  pose proof (run_with_fuel_Ok _ _ _ _ _ _ Hrun) as (_ & _ & Hms & _).
  rewrite size_load_csv_tokens in Hms. split; [exact Hms|].
  pose proof (minsupp_abs_of_positive _ _ _ Hms) as Hpos.
  destruct out as [|c out]; [discriminate|].
  rewrite run_with_fuel_steps, size_load_csv_tokens, Hms in Hrun.
  destruct (find_loop (load_csv_tokens lines) 0 ([], false)) as [[m flag]|] eqn:Hfind;
    [|discriminate].
  destruct (prune_db _ _) as [db'|]; [|discriminate].
  apply bind_Ok in Hrun as ([] & s1 & Hgrow & Hend). injection Hend as Hend.
  set (s0 := searching lines (_minsupp_abs self') flag db' self) in *.
  assert (G : grows s0 (support_between (_minsupp_abs s0) (Py.len lines)) s1).
  { pose proof (find_loop_supports _ _ _ Hfind) as Hm.
    assert (T : triple (grows s0 (support_between (_minsupp_abs s0) (Py.len lines)))
                  (grow_of flag fuel m)
                  (fun _ => grows s0 (support_between (_minsupp_abs s0) (Py.len lines)))
                  any_error).
    { unfold grow_of. destruct flag.
      - apply (grow_frequent_items_support s0 (Py.len lines) first_projection_multi);
          [|exact Hm].
        intros. now apply recursion_multi_support.
      - apply (grow_frequent_items_support s0 (Py.len lines) first_projection_single);
          [|exact Hm].
        intros. now apply recursion_single_support. }
    specialize (T s0 (grows_refl _ _)). now rewrite Hgrow in T. }
  destruct G as (_ & new & Hw & _ & Hnew).
  assert (Hwriter : _writer self' = _writer s1) by (rewrite <- Hend; reflexivity).
  rewrite Hwriter, Hw. cbn [app s0 searching with_db with_flag with_writer _writer].
  eapply Forall_impl; [|exact Hnew].
  intros r [H1 H2]. cbn [s0 searching with_db with_flag with_writer started _minsupp_abs] in *.
  lia.
Qed.

Lemma record_supports_bounded_witness :
  exists self',
    run_with_fuel 10 [[1; -1; 2; -1; -2]; [1; -1; -2]; [2; -1; -2]] (Finite (1 # 2))
      "out.txt" (init 10 1)
    = Ok (tt, self') /\
    minsupp_abs_of (Finite (1 # 2)) 3 = Ok (_minsupp_abs self') /\
    Forall (fun r => 1 <= _minsupp_abs self' <= snd r /\ snd r <= 3) (_writer self').
Proof.
  eexists.
  refine ((fun H => conj H (record_supports_bounded _ _ _ _ _ _ H)) _).
  vm_compute. reflexivity.
Defined.

(** * Pseudo-sequences stay inside their sequences *)



Section ValidScans.

Variable fresh : list PseudoSequence -> Z -> bool.
Variable db : SequenceDatabase.

Let V := valid_pseq db.







End ValidScans.

(** ** Computations that keep the database *)

Section KeepDatabase.

Variable db : SequenceDatabase.

Let P := searching_in db.







End KeepDatabase.

Section Safety.

Variable db : SequenceDatabase.

Let V := valid_pseq db.
Let P := searching_in db.








End Safety.

(** ** First projections *)




Section SafeGrowth.

Variable db : SequenceDatabase.

Let V := valid_pseq db.
Let P := searching_in db.


End SafeGrowth.

(** ** The pruned database of a run *)








(** * Subsequences *)

Lemma is_subsequence_nil seq : is_subsequence [] seq = true.
Proof. now destruct seq. Qed.

Lemma is_subsequence_tail : forall seq a pattern,
  is_subsequence (a :: pattern) seq = true -> is_subsequence pattern seq = true.
Proof.
  induction seq as [|t seq IH]; intros a pattern H; cbn [is_subsequence] in H;
    [discriminate|].
  assert (Hskip : forall P, is_subsequence P seq = true ->
                            is_subsequence P (t :: seq) = true).
  { intros [|b P] HP; [reflexivity|]. cbn [is_subsequence].
    destruct (t =? b); [eapply IH; eauto | exact HP]. }
  destruct (t =? a); apply Hskip; [exact H | eapply IH; eauto].
Qed.

Lemma is_subsequence_skip t pattern seq :
  is_subsequence pattern seq = true -> is_subsequence pattern (t :: seq) = true.
Proof.
  destruct pattern as [|b P]; intros HP; [reflexivity|]. cbn [is_subsequence].
  destruct (t =? b); [eapply is_subsequence_tail; eauto | exact HP].
Qed.

(** The greedy test decides the subsequence relation. *)
Lemma is_subsequence_iff pattern seq :
  is_subsequence pattern seq = true <-> Subsequence pattern seq.
Proof.
  split.
  - revert pattern. induction seq as [|t seq IH]; intros [|a pattern] H;
      try apply Subsequence_nil; cbn [is_subsequence] in H; [discriminate|].
    destruct (Z.eqb_spec t a) as [-> | N].
    + apply Subsequence_take. now apply IH.
    + apply Subsequence_skip. now apply IH.
  - induction 1 as [seq | a pattern seq _ IH | t pattern seq _ IH].
    + apply is_subsequence_nil.
    + cbn [is_subsequence]. now rewrite Z.eqb_refl.
    + now apply is_subsequence_skip.
Qed.

Lemma is_subsequence_app_l : forall seq P Q,
  is_subsequence (P ++ Q) seq = true -> is_subsequence P seq = true.
Proof.
  induction seq as [|t seq IH]; intros [|a P] Q H; try reflexivity;
    cbn [app is_subsequence] in *; [discriminate|].
  destruct (t =? a); [eapply IH; eauto|]. apply (IH (a :: P) Q). exact H.
Qed.

Lemma is_subsequence_In : forall seq P,
  is_subsequence P seq = true -> forall a, In a P -> In a seq.
Proof.
  induction seq as [|t seq IH]; intros P H a Ha.
  - destruct P; [destruct Ha | discriminate].
  - destruct P as [|b P]; [destruct Ha|]. cbn [is_subsequence] in H.
    destruct (Z.eqb_spec t b) as [-> | N].
    + destruct Ha as [<- | Ha]; [now left | right; eapply IH; eauto].
    + right. eapply IH; eauto.
Qed.

Lemma is_subsequence_single a : forall seq, is_subsequence [a] seq = Py.mem a seq.
Proof.
  induction seq as [|t seq IH]; [reflexivity|].
  cbn [is_subsequence]. rewrite mem_cons, (Z.eqb_sym a t).
  destruct (t =? a); [apply is_subsequence_nil | exact IH].
Qed.

(** Tokens that are not in the pattern do not matter. *)
Lemma is_subsequence_filter (f : Z -> bool) : forall seq P,
  Forall (fun a => f a = true) P ->
  is_subsequence P (filter f seq) = is_subsequence P seq.
Proof.
  induction seq as [|t seq IH]; intros P HP; [reflexivity|].
  cbn [filter]. destruct P as [|a P]; [now rewrite !is_subsequence_nil|].
  destruct (f t) eqn:Ft.
  - cbn [is_subsequence]. inversion HP; subst.
    destruct (t =? a); now apply IH.
  - rewrite (IH _ HP). cbn [is_subsequence].
    destruct (Z.eqb_spec t a) as [-> | N]; [|reflexivity].
    inversion HP; subst. congruence.
Qed.

(** * Leftmost matches *)

Lemma after_first_range x : forall toks i j,
  after_first x toks i = Some j ->
  i < j <= i + Py.len toks /\ nth_error toks (Z.to_nat (j - i - 1)) = Some x.
Proof.
  induction toks as [|t toks IH]; intros i j; cbn [after_first]; [discriminate|].
  unfold Py.len. cbn [length].
  destruct (Z.eqb_spec t x) as [-> | N].
  - intros [= <-]. split; [lia|]. now replace (Z.to_nat (i + 1 - i - 1)) with O by lia.
  - intros H. apply IH in H as [H1 H2]. unfold Py.len in H1. split; [lia|].
    replace (Z.to_nat (j - i - 1)) with (S (Z.to_nat (j - (i + 1) - 1))) by lia.
    exact H2.
Qed.

Lemma after_first_None x : forall toks i,
  after_first x toks i = None <-> ~ In x toks.
Proof.
  induction toks as [|t toks IH]; intros i; cbn [after_first In]; [tauto|].
  destruct (Z.eqb_spec t x) as [-> | N].
  - split; [discriminate | intros H; exfalso; apply H; now left].
  - rewrite IH. intuition.
Qed.

Lemma is_subsequence_after_first a P : forall toks i,
  is_subsequence (a :: P) toks
  = match after_first a toks i with
    | Some j => is_subsequence P (skipn (Z.to_nat (j - i)) toks)
    | None => false
    end.
Proof.
  induction toks as [|t toks IH]; intros i; [reflexivity|].
  cbn [is_subsequence after_first].
  destruct (t =? a).
  - now replace (Z.to_nat (i + 1 - i)) with 1%nat by lia.
  - rewrite (IH (i + 1)).
    destruct (after_first a toks (i + 1)) as [j|] eqn:E; [|reflexivity].
    apply after_first_range in E as [E _].
    now replace (Z.to_nat (j - i)) with (S (Z.to_nat (j - (i + 1)))) by lia.
Qed.

Lemma embed_end_range : forall P body i j,
  0 <= i -> embed_end P body i = Some j ->
  i <= j /\ (P <> [] -> i < j <= Py.len body).
Proof.
  induction P as [|a P IH]; intros body i j Hi; cbn [embed_end].
  - intros [= <-]. split; [lia | congruence].
  - destruct (after_first a (skipn (Z.to_nat i) body) i) as [j1|] eqn:E; [|discriminate].
    apply after_first_range in E as [E _]. unfold Py.len in *.
    rewrite length_skipn in E.
    intros H. destruct P as [|b P].
    + cbn [embed_end] in H. injection H as <-. split; [lia|]. intros _. lia.
    + apply IH in H as [H1 H2]; [|lia]. specialize (H2 ltac:(discriminate)).
      split; [lia|]. intros _. lia.
Qed.

Lemma embed_end_app : forall P Q body i,
  embed_end (P ++ Q) body i
  = match embed_end P body i with
    | Some j => embed_end Q body j
    | None => None
    end.
Proof.
  induction P as [|a P IH]; intros Q body i; cbn [app embed_end]; [reflexivity|].
  destruct (after_first a (skipn (Z.to_nat i) body) i); [apply IH | reflexivity].
Qed.

Lemma embed_end_is_subsequence : forall P body i,
  0 <= i ->
  match embed_end P body i with Some _ => true | None => false end
  = is_subsequence P (skipn (Z.to_nat i) body).
Proof.
  induction P as [|a P IH]; intros body i Hi; cbn [embed_end].
  - now rewrite is_subsequence_nil.
  - rewrite (is_subsequence_after_first a P _ i).
    destruct (after_first a (skipn (Z.to_nat i) body) i) as [j|] eqn:E; [|reflexivity].
    apply after_first_range in E as [E _].
    rewrite IH by lia. rewrite skipn_skipn.
    now replace (Z.to_nat (j - i) + Z.to_nat i)%nat with (Z.to_nat j) by lia.
Qed.

(** * Projected databases *)

Lemma indexed_from_In {A : Type} : forall (l : list A) off n x,
  In (n, x) (indexed_from off l) <-> (off <= n)%nat /\ nth_error l (n - off) = Some x.
Proof.
  induction l as [|y l IH]; intros off n x; cbn [indexed_from In].
  - split; [intros [] | intros [_ H]; now destruct (n - off)%nat].
  - rewrite IH. split.
    + intros [[= <- <-] | [H1 H2]].
      * split; [lia|]. now rewrite Nat.sub_diag.
      * split; [lia|]. now replace (n - off)%nat with (S (n - S off)) by lia.
    + intros [H1 H2]. destruct (Nat.eq_dec n off) as [-> | N].
      * left. rewrite Nat.sub_diag in H2. now injection H2 as <-.
      * right. split; [lia|].
        now replace (n - off)%nat with (S (n - S off)) in H2 by lia.
Qed.

Lemma project_with_length (G : nat -> list Z -> list PseudoSequence) (c : list Z -> bool) :
  (forall n body, length (G n body) = if c body then 1%nat else 0%nat) ->
  forall bodies off,
    length (flat_map (fun nb => G (fst nb) (snd nb)) (indexed_from off bodies))
    = length (filter c bodies).
Proof.
  intros HG. induction bodies as [|body bodies IH]; intros off; [reflexivity|].
  cbn [indexed_from flat_map filter fst snd]. rewrite length_app, IH, HG.
  now destruct (c body).
Qed.

Lemma project_length P bodies :
  length (project P bodies) = length (filter (is_subsequence P) bodies).
Proof.
  apply project_with_length. intros n body. unfold leftmost.
  pose proof (embed_end_is_subsequence P body 0 ltac:(lia)) as H. cbn [Z.to_nat skipn] in H.
  rewrite <- H. now destruct (embed_end P body 0).
Qed.

Lemma project_with_In (G : nat -> list Z -> list PseudoSequence) bodies p :
  In p (project_with G bodies) <->
  exists n body, nth_error bodies n = Some body /\ In p (G n body).
Proof.
  unfold project_with. rewrite in_flat_map. split.
  - intros ([n body] & Hin & Hp). apply indexed_from_In in Hin as [_ Hn].
    rewrite Nat.sub_0_r in Hn. now exists n, body.
  - intros (n & body & Hn & Hp). exists (n, body). split; [|exact Hp].
    apply indexed_from_In. rewrite Nat.sub_0_r. split; [lia | exact Hn].
Qed.

Lemma project_with_ids (G : nat -> list Z -> list PseudoSequence) :
  (forall n body p, In p (G n body) -> G n body = [p] /\ sequence_id p = Z.of_nat n) ->
  forall bodies off,
    ascending_from (Z.of_nat off)
      (map sequence_id (flat_map (fun nb => G (fst nb) (snd nb)) (indexed_from off bodies))).
Proof.
  intros HG. induction bodies as [|body bodies IH]; intros off; [exact I|].
  cbn [indexed_from flat_map fst snd]. rewrite map_app.
  assert (Hrest : forall lo, lo <= Z.of_nat (S off) ->
            ascending_from lo
              (map sequence_id
                 (flat_map (fun nb => G (fst nb) (snd nb)) (indexed_from (S off) bodies)))).
  { intros lo Hlo. specialize (IH (S off)).
    destruct (map sequence_id _) as [|x l]; [exact I|].
    cbn [ascending_from] in *. split; [lia | tauto]. }
  destruct (G off body) as [|p l] eqn:E.
  - apply Hrest. lia.
  - destruct (HG off body p) as [E1 E2]; [rewrite E; now left|].
    rewrite E in E1. injection E1 as ->. cbn [map app ascending_from].
    split; [lia|]. apply Hrest. lia.
Qed.
